(** * pi-skill-picker: the matching-and-selection engine

    A shallow embedding of [extensions/fuzzy.ts] (scorer, filter, display
    list), [extensions/usage.ts] (recency list),
    [extensions/screens/palette.ts] (the input reducer and the window of
    the renderer), [extensions/skill-loader.ts] (front matter and catalog)
    and [extensions/skill-palette.ts] (queueing and injection), with the
    properties the specification states about them.

    Modelling conventions.
    - A JavaScript string is a [string] whose characters are the code
      units 0 to 255, the Latin-1 range.  [toLowerCase] folds [A-Z] and the
      Latin-1 capitals U+00C0 to U+00DE (not U+00D7); [trim] strips the
      code units 9 to 13, 32 and 160 (the no-break space).  Strings with
      code units above 255 are outside the model.
    - A JavaScript number that holds a score is a rational [Q]; sums,
      products and quotients are the exact ones.  Every quotient
      [scoreMatch] evaluates has a positive denominator (see
      [scoreMatch_ratio_defined]), and [Math.ceil(n * 0.4)] is the exact
      ceiling of [2n/5].
    - Indices are [Z], because the code relies on [-1] as "not found" and on
      [from - 1] going below zero.
    - [Array.prototype.sort] is stable; it is embedded as the stable insertion
      sort of its comparator, which is what every stable sort returns for a
      comparator that is a total preorder.
    - [String.prototype.localeCompare] belongs to the host; it is a parameter
      of the definitions that call it. *)

From Stdlib Require Import String Ascii List ZArith QArith Lia Lqa Bool.
From Stdlib Require Import Permutation Sorted.
Import ListNotations.

Local Open Scope string_scope.
Local Open Scope Z_scope.

(** ** JavaScript string primitives *)

Module Js.

(** The lower-case form of a code unit below 256: [A-Z] and the Latin-1
    capitals U+00C0 to U+00DE, the multiplication sign U+00D7 apart, move up
    by 32; every other code unit stays. *)
Definition lowerChar (c : ascii) : ascii :=
  let n := N_of_ascii c in
  if ((65 <=? n) && (n <=? 90)
      || (192 <=? n) && (n <=? 222) && negb (n =? 215))%N
  then ascii_of_N (n + 32) else c.

Fixpoint toLowerCase (s : string) : string :=
  match s with
  | EmptyString => EmptyString
  | String c r => String (lowerChar c) (toLowerCase r)
  end.

(** The white space and line terminators [trim] strips, among the code
    units below 256: U+0009 to U+000D, the space and the no-break space
    U+00A0. *)
Definition isSpace (c : ascii) : bool :=
  let n := N_of_ascii c in
  ((9 <=? n) && (n <=? 13) || (n =? 32) || (n =? 160))%N.

Fixpoint trimStart (s : string) : string :=
  match s with
  | EmptyString => EmptyString
  | String c r => if isSpace c then trimStart r else s
  end.

(** [trimEnd] keeps a character when it is no white space or when something
    that survives follows it. *)
Fixpoint trimEnd (s : string) : string :=
  match s with
  | EmptyString => EmptyString
  | String c r =>
      match trimEnd r with
      | EmptyString => if isSpace c then EmptyString else String c EmptyString
      | r' => String c r'
      end
  end.

Definition trim (s : string) : string := trimEnd (trimStart s).

(** Truthiness of a string: [!s] is [isEmpty s]. *)
Definition isEmpty (s : string) : bool :=
  match s with EmptyString => true | _ => false end.

Definition len (s : string) : Z := Z.of_nat (String.length s).

(** [s.startsWith(p)] *)
Definition startsWith (s p : string) : bool := String.prefix p s.

Fixpoint indexOfFrom (s p : string) (i : Z) : Z :=
  if String.prefix p s then i
  else match s with
       | EmptyString => -1
       | String _ r => indexOfFrom r p (i + 1)
       end.

(** [s.indexOf(p)] *)
Definition indexOf (s p : string) : Z := indexOfFrom s p 0.

(** [s.includes(p)] *)
Definition includes (s p : string) : bool := 0 <=? indexOf s p.

(** [s[i]]: [None] stands for [undefined]. *)
Definition charAt (s : string) (i : Z) : option ascii :=
  if i <? 0 then None else String.get (Z.to_nat i) s.

(** [s[i] === c] for a one-character literal [c]. *)
Definition charIs (s : string) (i : Z) (c : ascii) : bool :=
  match charAt s i with
  | Some d => Ascii.eqb d c
  | None => false
  end.

(** [s.slice(0, n)] and [s.slice(n)] for [0 <= n]. *)
Definition sliceTo (s : string) (n : Z) : string :=
  String.substring 0 (Z.to_nat n) s.

Definition sliceFrom (s : string) (n : Z) : string :=
  String.substring (Z.to_nat n) (String.length s - Z.to_nat n) s.

(** [s.slice(0, -1)] *)
Fixpoint dropLast (s : string) : string :=
  match s with
  | EmptyString => EmptyString
  | String c EmptyString => EmptyString
  | String c r => String c (dropLast r)
  end.

End Js.

(** ** Data model ([types.ts]) *)

Inductive Source := home | local.

Record Skill := mkSkill {
  name : string;
  namespace : string;
  description : string;
  filePath : string;
  source : Source
}.

Inductive DisplayItem :=
| Header (ns : string)
| Entry (skill : Skill) (ns : string).

Record SkillUsage := mkUsage {
  u_name : string;
  u_namespace : string;
  timestamp : Z;
  count : Z
}.

Record PaletteState := mkPaletteState {
  queuedSkill : option Skill;
  recentSkills : list SkillUsage
}.

Inductive PaletteAction :=
| select (skill : Skill)
| unqueue (skill : Skill)
| cancel.

(** ** The scorer ([fuzzy.ts], [scoreMatch]) *)

(** [a / b] on lengths. *)
Definition ratio (a b : Z) : Q := (inject_Z a / inject_Z b)%Q.

(** Counters of the subsequence loop; [qi] is kept together with the part
    of the query that is still to be matched, [lq.slice(qi)]. *)
Record Fuzzy := mkFuzzy {
  qi : Z;
  maxRun : Z;
  currentRun : Z;
  totalMatched : Z
}.

(** The loop [for (i = 0; i < lt.length && qi < lq.length; i++)], by
    recursion on the part of [lt] from [i] on. *)
Fixpoint fuzzyLoop (lt rest : string) (st : Fuzzy) : Fuzzy * string :=
  match rest with
  | EmptyString => (st, rest)
  | String q rest' =>
      match lt with
      | EmptyString => (st, rest)
      | String c lt' =>
          if Ascii.eqb c q then
            let cr := currentRun st + 1 in
            fuzzyLoop lt' rest'
              (mkFuzzy (qi st + 1) (Z.max (maxRun st) cr) cr (totalMatched st + 1))
          else
            fuzzyLoop lt' rest
              (mkFuzzy (qi st) (maxRun st) 0 (totalMatched st))
      end
  end.

(** [Math.ceil(n * 0.4)] *)
Definition ceil04 (n : Z) : Z := (2 * n + 4) / 5.

Definition scoreMatch (query text : string) : Q :=
  let lq := Js.toLowerCase query in
  let lt := Js.toLowerCase text in
  if (lt =? lq)%string then 10000%Q
  else if Js.startsWith lt lq then
    (5000 + ratio (Js.len lq) (Js.len lt) * 100)%Q
  else
    let subIdx := Js.indexOf lt lq in
    if 0 <=? subIdx then
      let atBoundary :=
        (subIdx =? 0) || Js.charIs lt (subIdx - 1) "-" || Js.charIs lt (subIdx - 1) " " in
      (1000 + ratio (Js.len lq) (Js.len lt) * 100 + (if atBoundary then 200 else 0))%Q
    else
      let st := fst (fuzzyLoop lt lq (mkFuzzy 0 0 0 0)) in
      if qi st <? Js.len lq then 0%Q
      else if (Js.len lq <=? 2) && (maxRun st <? Js.len lq) then 0%Q
      else if maxRun st <? ceil04 (Js.len lq) then 0%Q
      else (100 + inject_Z (maxRun st * 30) + ratio (totalMatched st) (Js.len lt) * 50)%Q.

(** The tier a pair lands in: the branch of [scoreMatch] that returns. *)
Inductive Tier := Exact | Prefix | Substring | Subsequence | NoMatch.

Definition tierOf (query text : string) : Tier :=
  let lq := Js.toLowerCase query in
  let lt := Js.toLowerCase text in
  if (lt =? lq)%string then Exact
  else if Js.startsWith lt lq then Prefix
  else if 0 <=? Js.indexOf lt lq then Substring
  else
    let st := fst (fuzzyLoop lt lq (mkFuzzy 0 0 0 0)) in
    if qi st <? Js.len lq then NoMatch
    else if (Js.len lq <=? 2) && (maxRun st <? Js.len lq) then NoMatch
    else if maxRun st <? ceil04 (Js.len lq) then NoMatch
    else Subsequence.

(** ** The filter ([fuzzy.ts], [filterSkills]) *)

(** [Math.max] on two scores. *)
Definition qmax (a b : Q) : Q := if Qle_bool a b then b else a.

(** [score > 0] *)
Definition positive (q : Q) : bool := negb (Qle_bool q 0).

(** Stable sort of [Array.prototype.sort]: [before x y] holds when the
    comparator returns a value [<= 0] on [(x, y)], so that [x], which came
    first, stays in front of [y]. *)
Fixpoint insertBy {A} (before : A -> A -> bool) (x : A) (l : list A) : list A :=
  match l with
  | [] => [x]
  | y :: r => if before x y then x :: y :: r else y :: insertBy before x r
  end.

Fixpoint sortBy {A} (before : A -> A -> bool) (l : list A) : list A :=
  match l with
  | [] => []
  | x :: r => insertBy before x (sortBy before r)
  end.

(** The comparator [(a, b) => b.score - a.score]. *)
Definition byScoreDesc (a b : Skill * Q) : bool := Qle_bool (snd b - snd a) 0.

(** [[...new Set(l)]]: the distinct elements, in order of first occurrence. *)
Definition setAdd (seen : list string) (x : string) : list string :=
  if existsb (String.eqb x) seen then seen else seen ++ [x].

Definition distinct (l : list string) : list string := fold_left setAdd l [].

(** The pipeline [.map(score).filter(score > 0).sort(desc).map(skill)]. *)
Definition rank (score : Skill -> Q) (skills : list Skill) : list Skill :=
  map fst
    (sortBy byScoreDesc
       (filter (fun item => positive (snd item))
          (map (fun skill => (skill, score skill)) skills))).

Definition scopedScore (nameQuery : string) (skill : Skill) : Q :=
  qmax (scoreMatch nameQuery (name skill))
       (scoreMatch nameQuery (description skill) * (3 # 10)).

Definition globalScore (lowerQuery : string) (skill : Skill) : Q :=
  let nameScore := scoreMatch lowerQuery (name skill) in
  let nsNameScore :=
    (scoreMatch lowerQuery (namespace skill ++ ":" ++ name skill) * (9 # 10))%Q in
  let descLower := Js.toLowerCase (description skill) in
  let descScore :=
    if Js.includes descLower lowerQuery
    then (500 + ratio (Js.len lowerQuery) (Js.len descLower) * 100)%Q
    else 0%Q in
  qmax (qmax nameScore nsNameScore) descScore.

Definition filterSkills (skills : list Skill) (query : string) : list Skill :=
  if Js.isEmpty (Js.trim query) then skills
  else
    let lowerQuery := Js.trim (Js.toLowerCase query) in
    let colonIdx := Js.indexOf query ":" in
    if 0 <? colonIdx then
      let nsFilter := Js.toLowerCase (Js.sliceTo query colonIdx) in
      let nameQuery := Js.trim (Js.sliceFrom query (colonIdx + 1)) in
      let nsSkills :=
        filter (fun s => Js.startsWith (Js.toLowerCase (namespace s)) nsFilter) skills in
      if Js.isEmpty nameQuery then nsSkills
      else rank (scopedScore nameQuery) nsSkills
    else
      let exactNsMatch :=
        filter (fun s => (Js.toLowerCase (namespace s) =? lowerQuery)%string) skills in
      if (0 <? length exactNsMatch)%nat then exactNsMatch
      else
        let nsMatches :=
          filter (fun ns => Js.startsWith ns lowerQuery)
            (distinct (map (fun s => Js.toLowerCase (namespace s)) skills)) in
        match nsMatches with
        | [ns0] =>
            filter (fun s => (Js.toLowerCase (namespace s) =? ns0)%string) skills
        | _ => rank (globalScore lowerQuery) skills
        end.

(** ** The recency list ([usage.ts]) *)

Definition MAX_RECENTS : nat := 8.

(** [recordUsage]; [now] is the value of [Date.now()].  Writing the list to
    disk leaves the state alone and is not modelled. *)
Definition recordUsage (state : PaletteState) (skill : Skill) (now : Z) : PaletteState :=
  let existing :=
    find (fun r => (u_name r =? name skill)%string) (recentSkills state) in
  let cnt := match existing with Some r => count r | None => 0 end + 1 in
  let others :=
    filter (fun r => negb (u_name r =? name skill)%string) (recentSkills state) in
  let unshifted := mkUsage (name skill) (namespace skill) now cnt :: others in
  mkPaletteState (queuedSkill state)
    (if (MAX_RECENTS <? length unshifted)%nat then firstn MAX_RECENTS unshifted
     else unshifted).

(** ** The display list and the input reducer *)

Definition isSkill (i : DisplayItem) : bool :=
  match i with Entry _ _ => true | Header _ => false end.

(** [l.findIndex(p)] *)
Fixpoint findIndexFrom {A} (p : A -> bool) (l : list A) (i : Z) : Z :=
  match l with
  | [] => -1
  | x :: r => if p x then i else findIndexFrom p r (i + 1)
  end.

Definition findIndex {A} (p : A -> bool) (l : list A) : Z := findIndexFrom p l 0.

(** [l[i]] *)
Definition at_ {A} (l : list A) (i : Z) : option A :=
  if i <? 0 then None else nth_error l (Z.to_nat i).

Definition catSome {A} (l : list (option A)) : list A :=
  flat_map (fun o => match o with Some x => [x] | None => [] end) l.

(** A [Map<string, Skill[]>] in insertion order. *)
Definition Groups := list (string * list Skill).

Fixpoint mapGet (k : string) (m : Groups) : option (list Skill) :=
  match m with
  | [] => None
  | (k', v) :: r => if (k' =? k)%string then Some v else mapGet k r
  end.

Fixpoint mapSet (k : string) (v : list Skill) (m : Groups) : Groups :=
  match m with
  | [] => [(k, v)]
  | (k', v') :: r =>
      if (k' =? k)%string then (k', v) :: r else (k', v') :: mapSet k v r
  end.

Definition groupStep (recentNames : list string) (groups : Groups) (skill : Skill)
  : Groups :=
  if existsb (String.eqb (name skill)) recentNames then groups
  else
    let list := match mapGet (namespace skill) groups with
                | Some l => l
                | None => []
                end in
    mapSet (namespace skill) (list ++ [skill]) groups.

Inductive Direction := Down | Up.

Definition step (d : Direction) : Z :=
  match d with Down => 1 | Up => -1 end.

(** What [matchesKey] of the terminal library decides about an input chunk,
    in the order [handlePaletteInput] asks: the five keys it knows, or a
    chunk [data] that is none of them. *)
Inductive Input :=
| KeyEscape | KeyReturn | KeyUp | KeyDown | KeyBackspace
| Data (data : string).

Record PaletteRenderState := mkRender {
  allSkills : list Skill;
  displayItems : list DisplayItem;
  selectedIndex : Z;
  query : string;
  queuedSkillName : option string;
  recents : list SkillUsage
}.

Definition firstSkillIndex (items : list DisplayItem) : Z :=
  findIndex isSkill items.

(** The body of [while (idx >= 0 && idx < items.length)] going up: [l] is
    [items.slice(idx)]. *)
Fixpoint scanUp (l : list DisplayItem) (idx : Z) : option Z :=
  match l with
  | [] => None
  | it :: r => if isSkill it then Some idx else scanUp r (idx + 1)
  end.

(** Going down over the indices [n - 1, ..., 0]; also the closing loop
    [for (i = items.length - 1; i >= 0; i--)]. *)
Fixpoint scanDown (items : list DisplayItem) (n : nat) : option Z :=
  match n with
  | O => None
  | S i =>
      match nth_error items i with
      | Some it => if isSkill it then Some (Z.of_nat i) else scanDown items i
      | None => scanDown items i
      end
  end.

Definition nextSkillIndex (items : list DisplayItem) (from : Z) (direction : Direction)
  : Z :=
  let idx := from + step direction in
  let found :=
    if (0 <=? idx) && (idx <? Z.of_nat (length items)) then
      match direction with
      | Down => scanUp (skipn (Z.to_nat idx) items) idx
      | Up => scanDown items (S (Z.to_nat idx))
      end
    else None in
  match found with
  | Some i => i
  | None =>
      match direction with
      | Down =>
          let first := firstSkillIndex items in
          if 0 <=? first then first else 0
      | Up =>
          match scanDown items (length items) with
          | Some i => i
          | None => 0
          end
      end
  end.

(** [data.length === 1 && data.charCodeAt(0) >= 32] *)
Definition printable (data : string) : bool :=
  match data with
  | String c EmptyString => (32 <=? N_of_ascii c)%N
  | _ => false
  end.

Section Collation.

Variable localeCompare : string -> string -> Z.

(** The comparator that puts ["other"] last. *)
Definition compareNs (a b : string) : Z :=
  if (a =? "other")%string then 1
  else if (b =? "other")%string then -1
  else localeCompare a b.

Definition nsBefore (a b : string) : bool := compareNs a b <=? 0.

Definition nameBefore (a b : Skill) : bool := localeCompare (name a) (name b) <=? 0.

Definition recentSection (skills : list Skill) (recents : list SkillUsage)
  : list DisplayItem :=
  if (0 <? length recents)%nat then
    let recentSkills :=
      catSome
        (map (fun r => find (fun s => (name s =? u_name r)%string) skills) recents) in
    if (0 <? length recentSkills)%nat
    then Header "recent" :: map (fun skill => Entry skill "recent") recentSkills
    else []
  else [].

Definition groupsOf (skills : list Skill) (recents : list SkillUsage) : Groups :=
  fold_left (groupStep (map u_name recents)) skills [].

Definition sortedNs (groups : Groups) : list string :=
  sortBy nsBefore (map fst groups).

Definition groupItems (groups : Groups) (ns : string) : list DisplayItem :=
  let sorted :=
    sortBy nameBefore (match mapGet ns groups with Some l => l | None => [] end) in
  Header ns :: map (fun skill => Entry skill ns) sorted.

Definition buildDisplayList (skills : list Skill) (recents : list SkillUsage)
  : list DisplayItem :=
  let groups := groupsOf skills recents in
  recentSection skills recents ++ flat_map (groupItems groups) (sortedNs groups).

Definition createPaletteState (skills : list Skill) (queuedSkillName : option string)
    (recents : list SkillUsage) : PaletteRenderState :=
  let displayItems := buildDisplayList skills recents in
  let selectedIndex := findIndex isSkill displayItems in
  mkRender skills displayItems
    (if 0 <=? selectedIndex then selectedIndex else 0)
    "" queuedSkillName recents.

Definition updateFilter (state : PaletteRenderState) : PaletteRenderState :=
  let filtered := filterSkills (allSkills state) (query state) in
  let items :=
    if negb (Js.isEmpty (Js.trim (query state)))
    then map (fun skill => Entry skill (namespace skill)) filtered
    else buildDisplayList filtered (recents state) in
  let first := firstSkillIndex items in
  mkRender (allSkills state) items (if 0 <=? first then first else 0)
    (query state) (queuedSkillName state) (recents state).

Definition setSelected (state : PaletteRenderState) (i : Z) : PaletteRenderState :=
  mkRender (allSkills state) (displayItems state) i
    (query state) (queuedSkillName state) (recents state).

Definition setQuery (state : PaletteRenderState) (q : string) : PaletteRenderState :=
  mkRender (allSkills state) (displayItems state) (selectedIndex state)
    q (queuedSkillName state) (recents state).

(** [handlePaletteInput]: the state after the call and the action it
    returns ([None] for [undefined]). *)
Definition handlePaletteInput (state : PaletteRenderState) (input : Input)
  : PaletteRenderState * option PaletteAction :=
  match input with
  | KeyEscape => (state, Some cancel)
  | KeyReturn =>
      match at_ (displayItems state) (selectedIndex state) with
      | Some (Entry skill _) =>
          match queuedSkillName state with
          | Some q =>
              if (name skill =? q)%string then (state, Some (unqueue skill))
              else (state, Some (select skill))
          | None => (state, Some (select skill))
          end
      | _ => (state, None)
      end
  | KeyUp =>
      (setSelected state (nextSkillIndex (displayItems state) (selectedIndex state) Up),
       None)
  | KeyDown =>
      (setSelected state (nextSkillIndex (displayItems state) (selectedIndex state) Down),
       None)
  | KeyBackspace =>
      if (0 <? String.length (query state))%nat
      then (updateFilter (setQuery state (Js.dropLast (query state))), None)
      else (state, None)
  | Data data =>
      if printable data
      then (updateFilter (setQuery state (query state ++ data)), None)
      else (state, None)
  end.

End Collation.

(** ** More string primitives *)

Module JsMore.

(** The line feed, ["\n"] in the source. *)
Definition nl : ascii := "010"%char.

(** [s.indexOf(p, from)]: the start position is clamped to [0 .. s.length]. *)
Definition indexOfAt (s p : string) (from : Z) : Z :=
  let k := Z.min (Z.max from 0) (Js.len s) in
  Js.indexOfFrom (Js.sliceFrom s k) p k.

(** [s.slice(a, b)] for [0 <= a] and [0 <= b]. *)
Definition slice (s : string) (a b : Z) : string :=
  String.substring (Z.to_nat a) (Z.to_nat b - Z.to_nat a) s.

(** [s.split(c)] for a one-character separator. *)
Fixpoint split (c : ascii) (s : string) : list string :=
  match s with
  | EmptyString => [EmptyString]
  | String d r =>
      if Ascii.eqb d c then EmptyString :: split c r
      else match split c r with
           | h :: t => String d h :: t
           | [] => [String d EmptyString]
           end
  end.

(** [s.replace(/c/g, by)] for a one-character pattern. *)
Fixpoint replaceAll (c : ascii) (by_ : string) (s : string) : string :=
  match s with
  | EmptyString => EmptyString
  | String d r =>
      if Ascii.eqb d c then by_ ++ replaceAll c by_ r
      else String d (replaceAll c by_ r)
  end.

End JsMore.

(** ** The front matter ([skill-loader.ts]) *)

(** One round of the loop over the lines of the front matter. *)
Definition frontmatterLine (acc : string * string) (line : string) : string * string :=
  let colonIndex := Js.indexOf line ":" in
  if colonIndex =? -1 then acc
  else
    let key := Js.trim (Js.sliceTo line colonIndex) in
    let value := Js.trim (Js.sliceFrom line (colonIndex + 1)) in
    let name1 := if (key =? "name")%string then value else fst acc in
    let description1 := if (key =? "description")%string then value else snd acc in
    (name1, description1).

(** [parseFrontmatter]: the pair is [(name, description)]. *)
Definition parseFrontmatter (content fallbackName : string) : string * string :=
  if negb (Js.startsWith content "---") then (fallbackName, "")
  else
    let endIndex := JsMore.indexOfAt content (String JsMore.nl "---") 3 in
    if endIndex =? -1 then (fallbackName, "")
    else
      let fm := JsMore.slice content 4 endIndex in
      fold_left frontmatterLine (JsMore.split JsMore.nl fm) (fallbackName, "").

(** [getSkillContent] once the file is read: [raw] is its text. *)
Definition skillContentOf (raw : string) : string :=
  if negb (Js.startsWith raw "---") then raw
  else
    let endIndex := JsMore.indexOfAt raw (String JsMore.nl "---") 3 in
    if endIndex =? -1 then raw
    else Js.trim (Js.sliceFrom raw (endIndex + 4)).

(** What [loadSkillFile] is given once the file system has answered: the
    text of the file, its path, the name of its directory, and the
    namespace [deriveNamespace] finds for it. *)
Record SkillFile := mkSkillFile {
  f_content : string;
  f_filePath : string;
  f_parentDirName : string;
  f_namespace : string;
  f_source : Source
}.

(** [loadSkillFile] on the map [skillsByName], kept as the list of its
    values in insertion order. *)
Definition loadSkillFile (skillsByName : list Skill) (file : SkillFile) : list Skill :=
  let (name0, description0) :=
    parseFrontmatter (f_content file) (f_parentDirName file) in
  if Js.isEmpty description0
     || existsb (fun s => (name s =? name0)%string) skillsByName
  then skillsByName
  else (skillsByName
        ++ [mkSkill name0 (f_namespace file) description0 (f_filePath file)
              (f_source file)])%list.

(** [loadSkills] over the files the scan meets, in scan order. *)
Definition loadSkillsFrom (files : list SkillFile) : list Skill :=
  fold_left loadSkillFile files [].

(** ** The extension entry ([skill-palette.ts]) *)

(** The double quote character. *)
Definition dquote : ascii := "034"%char.

Definition escapeXml (s : string) : string :=
  JsMore.replaceAll dquote "&quot;"
    (JsMore.replaceAll ">" "&gt;"
       (JsMore.replaceAll "<" "&lt;"
          (JsMore.replaceAll "&" "&amp;" s))).

Definition isControl (c : ascii) : bool := (N_of_ascii c <=? 31)%N.

(** [s.replace(/[\x00-\x1f]/g, "")] *)
Fixpoint sanitize (s : string) : string :=
  match s with
  | EmptyString => EmptyString
  | String c r => if isControl c then sanitize r else String c (sanitize r)
  end.

(** [queueSkill], without its notifications. *)
Definition queueSkill (state : PaletteState) (skill : Skill) : PaletteState :=
  mkPaletteState (Some skill) (recentSkills state).

(** What [openPalette] does with the action the palette ended with; the
    component turns a time-out into [cancel]. *)
Definition closePalette (state : PaletteState) (action : PaletteAction) : PaletteState :=
  match action with
  | select skill => queueSkill state skill
  | unqueue _ => mkPaletteState None (recentSkills state)
  | cancel => state
  end.

(** The text of the message [before_agent_start] injects for [skill],
    [content] being what [getSkillContent] returned. *)
Definition skillMessage (skill : Skill) (content : string) : string :=
  "<skill name="
  ++ String dquote
       (escapeXml (namespace skill) ++ ":" ++ escapeXml (name skill)
        ++ String dquote
             (">" ++ String JsMore.nl (content ++ String JsMore.nl "</skill>"))).

(** The handler of [before_agent_start] at time [now]: the state it leaves
    and the content of the message it injects, if any.  [readFile] is the
    file system: [None] where [readFileSync] throws.  The queue is emptied
    and the usage recorded before the file is read, so both happen on the
    failure path too, where nothing is injected. *)
Definition beforeAgentStart (readFile : string -> option string)
    (state : PaletteState) (now : Z) : PaletteState * option string :=
  match queuedSkill state with
  | None => (state, None)
  | Some skill =>
      let state' := recordUsage (mkPaletteState None (recentSkills state)) skill now in
      match readFile (filePath skill) with
      | Some raw => (state', Some (skillMessage skill (skillContentOf raw)))
      | None => (state', None)
      end
  end.

(** ** The window of the renderer ([screens/palette.ts], [renderPalette]) *)

Definition maxVisible : Z := 14.

(** [startIdx] and [endIdx] for a list of [n] items and the cursor [sel]. *)
Definition visibleWindow (n sel : Z) : Z * Z :=
  let startIdx := Z.max 0 (Z.min (sel - maxVisible / 2) (n - maxVisible)) in
  let endIdx := Z.min (startIdx + maxVisible) n in
  (startIdx, endIdx).

(** [l.slice(0, e)] *)
Definition sliceTo0 {A} (l : list A) (e : Z) : list A :=
  let n := Z.of_nat (length l) in
  let e1 := if e <? 0 then Z.max (n + e) 0 else Z.min e n in
  firstn (Z.to_nat e1) l.

(** The two numbers of the scroll indicator, [currentSkillIdx] and
    [skillCount]. *)
Definition scrollIndicator (items : list DisplayItem) (sel : Z) : Z * Z :=
  let skillCount := Z.of_nat (length (filter isSkill items)) in
  let currentSkillIdx :=
    Z.of_nat (length (filter isSkill (sliceTo0 items (sel + 1)))) in
  (currentSkillIdx, skillCount).

(** * Vocabulary of the statements *)

(** ** Scores *)

(** Rank of the tiers that carry a bounded bonus; the subsequence tier is
    ranked below them and above "no match". *)
Definition upperRank (t : Tier) : Z :=
  match t with
  | Exact => 3 | Prefix => 2 | Substring => 1 | Subsequence => 0 | NoMatch => -1
  end.

(** What the subsequence loop keeps true of its counters after it has read
    [consumed] characters of the text. *)
Definition fuzzy_ok (consumed : Z) (st : Fuzzy) : Prop :=
  0 <= currentRun st <= maxRun st /\ maxRun st <= qi st /\
  totalMatched st = qi st /\ qi st <= consumed.

(** A query of forty characters, a text that contains it after a space, and a
    text that only has it as a subsequence, with a run of thirty-nine. *)
Definition longQuery : string := "aaaaaaaaaaaaaaaaaaaaaaaaaaaaaaaaaaaaaaab".

Definition longSubstringText : string := " aaaaaaaaaaaaaaaaaaaaaaaaaaaaaaaaaaaaaaab".

Definition longSubsequenceText : string := "aaaaaaaaaaaaaaaaaaaaaaaaaaaaaaaaaaaaaaacb".

Fixpoint repeatChar (c : ascii) (n : nat) : string :=
  match n with
  | O => EmptyString
  | S k => String c (repeatChar c k)
  end.

(** The same shape with a run of 330: 331 characters against 332. *)
Definition hugeQuery : string := repeatChar "a" 330 ++ "b".

Definition hugeText : string := repeatChar "a" 330 ++ "cb".

(** ** Strings *)

Fixpoint allSpaces (s : string) : bool :=
  match s with
  | EmptyString => true
  | String c r => Js.isSpace c && allSpaces r
  end.

(** A collation for concrete runs: code units, lexicographically. *)
Definition codeUnitCompare (a b : string) : Z :=
  match String.compare a b with Lt => -1 | Eq => 0 | Gt => 1 end.

(** ** Catalogs and groups *)

(** The catalog of the palette tests. *)
Definition testSkills : list Skill :=
  [ mkSkill "fizzy-cli" "tools" "Desc for fizzy-cli" "/fake/fizzy-cli/SKILL.md" home;
    mkSkill "brave-search" "search" "Desc for brave-search" "/fake/brave-search/SKILL.md" home;
    mkSkill "ad-creative" "marketing" "Desc for ad-creative" "/fake/ad-creative/SKILL.md" home ].

Definition Skill_eq_dec (a b : Skill) : {a = b} + {a <> b}.
Proof. repeat decide equality. Defined.

(** The keys of the map are pairwise different and no group is empty. *)
Definition groups_ok (m : Groups) : Prop :=
  NoDup (map fst m) /\ forall k v, In (k, v) m -> v <> [].

(** ** Display lists *)

(** The flat list of a search: one entry per skill, under its namespace. *)
Definition flatList (skills : list Skill) : list DisplayItem :=
  map (fun skill => Entry skill (namespace skill)) skills.

(** The labels of the headers, in display order. *)
Definition headersOf (items : list DisplayItem) : list string :=
  flat_map (fun i => match i with Header ns => [ns] | Entry _ _ => [] end) items.

(** The skills listed under the group label [g], in display order. *)
Definition entriesOf (g : string) (items : list DisplayItem) : list Skill :=
  flat_map (fun i => match i with
                     | Entry skill ns => if (ns =? g)%string then [skill] else []
                     | Header _ => []
                     end) items.

(** Every entry is under a label that a header has announced: [seen] holds
    the labels of the headers passed so far. *)
Fixpoint headedFrom (seen : list string) (items : list DisplayItem) : Prop :=
  match items with
  | [] => True
  | Header ns :: r => headedFrom (ns :: seen) r
  | Entry _ ns :: r => In ns seen /\ headedFrom seen r
  end.

(** [localeCompare] orders strings; ["other"] goes behind all of them. *)
Definition nsOrder (localeCompare : string -> string -> Z) (a b : string) : Prop :=
  a <> "other" /\ (b = "other" \/ localeCompare a b <= 0).

Definition alphabetical (localeCompare : string -> string -> Z) (l : list Skill)
  : Prop :=
  StronglySorted (fun a b => localeCompare (name a) (name b) <= 0) l.

(** ** Sessions *)

(** The states a session goes through: the one [createPaletteState] builds
    and every state [handlePaletteInput] leaves behind. *)
Inductive reachable (localeCompare : string -> string -> Z)
  : PaletteRenderState -> Prop :=
| reach_create skills queued recents :
    reachable localeCompare (createPaletteState localeCompare skills queued recents)
| reach_input state input :
    reachable localeCompare state ->
    reachable localeCompare (fst (handlePaletteInput localeCompare state input)).

(** The query an input chunk leaves behind when it edits the query. *)
Definition editedQuery (q : string) (input : Input) : option string :=
  match input with
  | Data data => if printable data then Some (q ++ data) else None
  | KeyBackspace => if (0 <? String.length q)%nat then Some (Js.dropLast q) else None
  | _ => None
  end.

(** What holds of the cursor: it is on an entry when there is one, it is 0
    when there is none, and then the list is empty. *)
Definition cursorOk (s : PaletteRenderState) : Prop :=
  (if existsb isSkill (displayItems s)
   then exists skill g, at_ (displayItems s) (selectedIndex s) = Some (Entry skill g)
   else selectedIndex s = 0) /\
  (existsb isSkill (displayItems s) = false -> displayItems s = []).

(** ** Vocabulary of the further properties *)

(** Is the item at index [k] an entry? *)
Definition isEntryAt (items : list DisplayItem) (k : Z) : bool :=
  match at_ items k with
  | Some it => isSkill it
  | None => false
  end.

(** The skills of the entries, in display order, whatever their label. *)
Definition allEntries (items : list DisplayItem) : list Skill :=
  flat_map (fun i => match i with Entry skill _ => [skill] | Header _ => [] end) items.

(** Every header is directly followed by an entry under its label. *)
Fixpoint headersFollowed (items : list DisplayItem) : Prop :=
  match items with
  | [] => True
  | Header g :: r =>
      match r with
      | Entry _ g' :: _ => g' = g
      | _ => False
      end /\ headersFollowed r
  | Entry _ _ :: r => headersFollowed r
  end.

(** The display list that belongs to a catalog, a query and the recents. *)
Definition render (localeCompare : string -> string -> Z)
    (skills : list Skill) (q : string) (rs : list SkillUsage) : list DisplayItem :=
  if Js.isEmpty (Js.trim q) then buildDisplayList localeCompare skills rs
  else flatList (filterSkills skills q).

(** Is the name of the skill among the names of the recents? *)
Definition isRecent (recents : list SkillUsage) (skill : Skill) : bool :=
  existsb (String.eqb (name skill)) (map u_name recents).

(** The skills of the group [g]: under that namespace and not recent. *)
Definition inGroup (recents : list SkillUsage) (g : string) (s : Skill) : bool :=
  negb (isRecent recents s) && (namespace s =? g)%string.

(** The lower-cased namespaces of the catalog that start with the query. *)
Definition nsMatchesOf (skills : list Skill) (lowerQuery : string) : list string :=
  filter (fun ns => Js.startsWith ns lowerQuery)
    (distinct (map (fun s => Js.toLowerCase (namespace s)) skills)).

(** A recency list as [recordUsage] keeps it: one record per name, at most
    [MAX_RECENTS] records, every count at least 1. *)
Definition usage_ok (rs : list SkillUsage) : Prop :=
  NoDup (map u_name rs) /\ (length rs <= MAX_RECENTS)%nat /\
  Forall (fun r => 1 <= count r) rs.

(** What happens to the module state of the extension: the palette closes
    with an action, [/skill name] queues a skill directly, or the agent
    starts at time [now] with the file system [readFile]. *)
Inductive HostEvent :=
| PaletteClosed (action : PaletteAction)
| DirectQueue (skill : Skill)
| AgentStart (now : Z) (readFile : string -> option string).

Definition hostStep (state : PaletteState) (e : HostEvent) : PaletteState :=
  match e with
  | PaletteClosed action => closePalette state action
  | DirectQueue skill => queueSkill state skill
  | AgentStart now readFile => fst (beforeAgentStart readFile state now)
  end.

(** [q] can be read in [t] from left to right, skipping characters. *)
Inductive InOrder : string -> string -> Prop :=
| InOrder_nil t : InOrder EmptyString t
| InOrder_take c q t : InOrder q t -> InOrder (String c q) (String c t)
| InOrder_skip c q t : InOrder q t -> InOrder q (String c t).

(** [p] stands in [t] as one piece. *)
Definition Occurs (p t : string) : Prop := exists a b, t = a ++ p ++ b.

Fixpoint hasChar (c : ascii) (s : string) : bool :=
  match s with
  | EmptyString => false
  | String d r => Ascii.eqb d c || hasChar c r
  end.

(** A skill file with the two keys, as the tests write it. *)
Definition frontmatterDoc (n d body : string) : string :=
  "---" ++ String JsMore.nl ("name: " ++ n ++ String JsMore.nl ("description: " ++ d
    ++ String JsMore.nl ("---" ++ body))).

(** The front matter of [frontmatterDoc n d body]. *)
Definition frontmatterOf (n d : string) : string :=
  "name: " ++ n ++ String JsMore.nl ("description: " ++ d).

(** The skill a scanned file parses to. *)
Definition skillOfFile (f : SkillFile) : Skill :=
  mkSkill (fst (parseFrontmatter (f_content f) (f_parentDirName f)))
    (f_namespace f)
    (snd (parseFrontmatter (f_content f) (f_parentDirName f)))
    (f_filePath f) (f_source f).

(** What every value [parseFrontmatter] hands out looks like. *)
Definition parsed_ok (fallbackName : string) (r : string * string) : Prop :=
  (fst r = fallbackName \/ Js.trim (fst r) = fst r) /\ Js.trim (snd r) = snd r.

(** A catalog built from [files]: distinct names, described skills, each
    one parsed from a scanned file. *)
Definition catalog_ok (files : list SkillFile) (l : list Skill) : Prop :=
  NoDup (map name l) /\
  forall s, In s l -> description s <> "" /\ exists f, In f files /\ s = skillOfFile f.

(** ** Sample data *)

(** Code units above 127: the no-break space U+00A0, the capital U+00C9
    and the small letter U+00E9. *)
Definition nbsp : ascii := "160"%char.
Definition capitalE : ascii := "201"%char.
Definition smallE : ascii := "233"%char.

Definition sampleItems : list DisplayItem :=
  buildDisplayList codeUnitCompare testSkills [].

Definition sampleRecents : list SkillUsage :=
  [mkUsage "brave-search" "search" 10 2; mkUsage "fizzy-cli" "tools" 5 1].

Definition sampleSkill : Skill :=
  mkSkill "ad-creative" "marketing" "Desc for ad-creative"
    "/fake/ad-creative/SKILL.md" home.

(** * Properties *)

(** ** Strings *)

Lemma prefix_length p : forall s,
  String.prefix p s = true -> (String.length p <= String.length s)%nat.
Proof.
  induction p as [|c p IH]; intros [|d s]; simpl; try lia; try discriminate.
  destruct (ascii_dec c d); [|discriminate].
  intros H. apply IH in H. lia.
Qed.

Lemma prefix_same_length p : forall s,
  String.prefix p s = true -> String.length p = String.length s -> p = s.
Proof.
  induction p as [|c p IH]; intros [|d s]; simpl; try discriminate; auto.
  destruct (ascii_dec c d); [|discriminate].
  intros H L. subst. f_equal. apply IH; auto.
Qed.

Lemma indexOfFrom_range s p : forall i,
  0 <= i ->
  Js.indexOfFrom s p i = -1 \/
  (i <= Js.indexOfFrom s p i /\ (String.length p <= String.length s)%nat).
Proof.
  induction s as [|c s IH]; intros i Hi; cbn [Js.indexOfFrom].
  - destruct (String.prefix p "") eqn:E.
    + right. split; [lia|]. now apply prefix_length in E.
    + now left.
  - destruct (String.prefix p (String c s)) eqn:E.
    + right. split; [lia|]. now apply prefix_length in E.
    + destruct (IH (i + 1)) as [H|[H1 H2]]; [lia| now left |].
      right. split; simpl; lia.
Qed.

Lemma indexOf_found_length s p :
  0 <= Js.indexOf s p -> (String.length p <= String.length s)%nat.
Proof.
  unfold Js.indexOf. intros H.
  destruct (indexOfFrom_range s p 0) as [E|[_ L]]; lia.
Qed.

Lemma toLowerCase_length s : String.length (Js.toLowerCase s) = String.length s.
Proof. induction s; simpl; congruence. Qed.

(** ** Arithmetic on scores *)

Lemma ratio_bounds a b :
  0 <= a <= b -> 0 < b -> (0 <= ratio a b /\ ratio a b <= 1)%Q.
Proof.
  intros [Ha Hab] Hb. unfold ratio.
  assert (0 < inject_Z b)%Q by (change 0%Q with (inject_Z 0); now rewrite <- Zlt_Qlt).
  assert (0 <= inject_Z a)%Q by (change 0%Q with (inject_Z 0); now rewrite <- Zle_Qle).
  assert (inject_Z a <= inject_Z b)%Q by (now rewrite <- Zle_Qle).
  split.
  - apply Qle_shift_div_l; [assumption|]. lra.
  - apply Qle_shift_div_r; [assumption|]. lra.
Qed.

Lemma ratio_lt_1 a b : 0 <= a < b -> (ratio a b < 1)%Q.
Proof.
  intros [Ha Hab]. unfold ratio.
  assert (0 < inject_Z b)%Q
    by (change 0%Q with (inject_Z 0); rewrite <- Zlt_Qlt; lia).
  assert (inject_Z a < inject_Z b)%Q by (now rewrite <- Zlt_Qlt).
  apply Qlt_shift_div_r; [assumption|]. lra.
Qed.

(** ** The subsequence loop *)

Lemma fuzzyLoop_inv lt : forall rest st consumed,
  fuzzy_ok consumed st ->
  let r := fuzzyLoop lt rest st in
  fuzzy_ok (consumed + Js.len lt) (fst r) /\
  qi (fst r) + Js.len (snd r) = qi st + Js.len rest.
Proof.
  unfold Js.len.
  induction lt as [|c lt IH]; intros rest st consumed Hok; simpl.
  - destruct rest; simpl; unfold fuzzy_ok in *; split; lia.
  - destruct rest as [|q rest]; simpl.
    + unfold fuzzy_ok in *; split; lia.
    + destruct (Ascii.eqb c q).
      * specialize (IH rest
          (mkFuzzy (qi st + 1) (Z.max (maxRun st) (currentRun st + 1))
             (currentRun st + 1) (totalMatched st + 1)) (consumed + 1)).
        simpl in IH. destruct IH as [I1 I2].
        { unfold fuzzy_ok in *; simpl; lia. }
        split; [|simpl in *; lia].
        replace (consumed + Z.pos (Pos.of_succ_nat (String.length lt)))
          with (consumed + 1 + Z.of_nat (String.length lt)) by lia.
        exact I1.
      * specialize (IH (String q rest)
          (mkFuzzy (qi st) (maxRun st) 0 (totalMatched st)) (consumed + 1)).
        simpl in IH. destruct IH as [I1 I2].
        { unfold fuzzy_ok in *; simpl; lia. }
        split; [|simpl in *; lia].
        replace (consumed + Z.pos (Pos.of_succ_nat (String.length lt)))
          with (consumed + 1 + Z.of_nat (String.length lt)) by lia.
        exact I1.
Qed.

Lemma fuzzyLoop_start lt lq :
  let st := fst (fuzzyLoop lt lq (mkFuzzy 0 0 0 0)) in
  0 <= maxRun st /\ maxRun st <= qi st /\ totalMatched st = qi st /\
  qi st <= Js.len lt /\ qi st <= Js.len lq.
Proof.
  destruct (fuzzyLoop_inv lt lq (mkFuzzy 0 0 0 0) 0) as [H1 H2].
  { unfold fuzzy_ok; simpl; lia. }
  simpl in *. unfold fuzzy_ok in H1.
  assert (0 <= Js.len (snd (fuzzyLoop lt lq (mkFuzzy 0 0 0 0))))
    by (unfold Js.len; lia).
  lia.
Qed.

(** ** The scorer, tier by tier *)

Ltac split_tiers :=
  unfold tierOf, scoreMatch; cbv zeta;
  repeat match goal with
  | |- context [if ?c then _ else _] =>
      lazymatch c with
      | (_ || _) => fail
      | _ => let E := fresh "E" in destruct c eqn:E
      end
  end; try discriminate.

Lemma scoreMatch_exact q t : tierOf q t = Exact -> scoreMatch q t = 10000%Q.
Proof. split_tiers; reflexivity. Qed.

Lemma scoreMatch_nomatch q t : tierOf q t = NoMatch -> scoreMatch q t = 0%Q.
Proof. split_tiers; reflexivity. Qed.

Lemma tier_exact_iff q t :
  tierOf q t = Exact <-> Js.toLowerCase q = Js.toLowerCase t.
Proof.
  unfold tierOf; cbv zeta.
  destruct (String.eqb_spec (Js.toLowerCase t) (Js.toLowerCase q)) as [E|E].
  - split; auto.
  - split; [|congruence].
    repeat match goal with |- context [if ?c then _ else _] => destruct c end;
      discriminate.
Qed.

(** In the prefix tier the text is strictly longer than the query, so the
    quotient is taken with a positive denominator and stays below one. *)
Lemma prefix_tier_lengths q t :
  tierOf q t = Prefix ->
  0 <= Js.len (Js.toLowerCase q) < Js.len (Js.toLowerCase t).
Proof.
  unfold tierOf; cbv zeta.
  destruct (String.eqb_spec (Js.toLowerCase t) (Js.toLowerCase q)) as [E|E];
    [discriminate|].
  unfold Js.startsWith.
  destruct (String.prefix (Js.toLowerCase q) (Js.toLowerCase t)) eqn:P.
  - intros _. pose proof (prefix_length _ _ P) as L.
    pose proof (prefix_same_length _ _ P) as S.
    unfold Js.len.
    assert (String.length (Js.toLowerCase q) <> String.length (Js.toLowerCase t))
      by (intros X; apply E; symmetry; auto).
    lia.
  - repeat match goal with |- context [if ?c then _ else _] => destruct c end;
      discriminate.
Qed.

Lemma substring_tier_lengths q t :
  tierOf q t = Substring ->
  0 <= Js.len (Js.toLowerCase q) <= Js.len (Js.toLowerCase t) /\
  0 < Js.len (Js.toLowerCase t).
Proof.
  unfold tierOf; cbv zeta.
  destruct (String.eqb_spec (Js.toLowerCase t) (Js.toLowerCase q)) as [E|E];
    [discriminate|].
  destruct (Js.startsWith _ _); [discriminate|].
  destruct (0 <=? Js.indexOf (Js.toLowerCase t) (Js.toLowerCase q)) eqn:I.
  - intros _. apply Z.leb_le in I. apply indexOf_found_length in I.
    unfold Js.len.
    destruct (Js.toLowerCase t) as [|c lt]; simpl in *.
    + destruct (Js.toLowerCase q); simpl in *; [congruence | lia].
    + lia.
  - repeat match goal with |- context [if ?c then _ else _] => destruct c end;
      discriminate.
Qed.

Lemma scoreMatch_prefix q t :
  tierOf q t = Prefix -> (5000 <= scoreMatch q t /\ scoreMatch q t < 5100)%Q.
Proof.
  intros T. pose proof (prefix_tier_lengths q t T) as L.
  pose proof (ratio_lt_1 _ _ L) as R1.
  destruct (ratio_bounds (Js.len (Js.toLowerCase q)) (Js.len (Js.toLowerCase t)))
    as [R0 _]; [lia | lia |].
  revert T. split_tiers. intros _. split; lra.
Qed.

Lemma scoreMatch_substring q t :
  tierOf q t = Substring -> (1000 <= scoreMatch q t /\ scoreMatch q t <= 1300)%Q.
Proof.
  intros T. destruct (substring_tier_lengths q t T) as [L P].
  destruct (ratio_bounds (Js.len (Js.toLowerCase q)) (Js.len (Js.toLowerCase t)))
    as [R0 R1]; [lia | lia |].
  revert T. split_tiers. intros _.
  destruct (_ || _); split; lra.
Qed.

(** In the subsequence tier the whole query was matched, the text is not
    empty, and the score is the base plus the two rewards. *)
Lemma scoreMatch_subsequence q t :
  tierOf q t = Subsequence ->
  let st := fst (fuzzyLoop (Js.toLowerCase t) (Js.toLowerCase q) (mkFuzzy 0 0 0 0)) in
  scoreMatch q t =
    (100 + inject_Z (maxRun st * 30)
     + ratio (totalMatched st) (Js.len (Js.toLowerCase t)) * 50)%Q /\
  totalMatched st = Js.len (Js.toLowerCase q) /\
  0 < Js.len (Js.toLowerCase q) <= Js.len (Js.toLowerCase t) /\
  1 <= maxRun st <= Js.len (Js.toLowerCase q).
Proof.
  intros T st.
  pose proof (fuzzyLoop_start (Js.toLowerCase t) (Js.toLowerCase q)) as I.
  cbv zeta in I. fold st in I.
  revert T. unfold tierOf, scoreMatch; cbv zeta. fold st.
  destruct (Js.toLowerCase t =? Js.toLowerCase q)%string; [discriminate|].
  destruct (Js.startsWith _ _) eqn:P; [discriminate|].
  destruct (0 <=? Js.indexOf _ _); [discriminate|].
  destruct (qi st <? _) eqn:E1; [discriminate|].
  destruct ((_ <=? 2) && _) eqn:E2; [discriminate|].
  destruct (maxRun st <? ceil04 _) eqn:E3; [discriminate|].
  intros _. apply Z.ltb_ge in E1, E3.
  assert (0 < Js.len (Js.toLowerCase q)).
  { unfold Js.startsWith in P. unfold Js.len.
    destruct (Js.toLowerCase q); simpl; [|lia].
    destruct (Js.toLowerCase t); simpl in P; discriminate. }
  unfold ceil04 in E3.
  assert (1 <= (2 * Js.len (Js.toLowerCase q) + 4) / 5)
    by (apply Z.div_le_lower_bound; lia).
  repeat split; try lia.
Qed.

Lemma scoreMatch_subsequence_bounds q t :
  tierOf q t = Subsequence ->
  (130 <= scoreMatch q t /\
   scoreMatch q t <= 150 + inject_Z (30 * Js.len (Js.toLowerCase q)))%Q.
Proof.
  intros T. destruct (scoreMatch_subsequence q t T) as (E & M & L & R).
  rewrite E. clear E.
  set (st := fst (fuzzyLoop _ _ _)) in *.
  destruct (ratio_bounds (totalMatched st) (Js.len (Js.toLowerCase t)))
    as [R0 R1]; [lia | lia |].
  assert (inject_Z 30 <= inject_Z (maxRun st * 30))%Q
    by (rewrite <- Zle_Qle; lia).
  assert (inject_Z (maxRun st * 30) <= inject_Z (30 * Js.len (Js.toLowerCase q)))%Q
    by (rewrite <- Zle_Qle; lia).
  change (inject_Z 30) with 30%Q in *.
  split; lra.
Qed.

(** Every quotient [scoreMatch] evaluates has a positive denominator. *)
Lemma scoreMatch_ratio_defined q t :
  match tierOf q t with
  | Prefix | Substring | Subsequence => 0 < Js.len (Js.toLowerCase t)
  | Exact | NoMatch => True
  end.
Proof.
  destruct (tierOf q t) eqn:T; auto.
  - apply prefix_tier_lengths in T. lia.
  - apply substring_tier_lengths in T. lia.
  - apply scoreMatch_subsequence in T. lia.
Qed.

Lemma scoreMatch_nonneg q t : (0 <= scoreMatch q t)%Q.
Proof.
  destruct (tierOf q t) eqn:T.
  - rewrite (scoreMatch_exact _ _ T). lra.
  - apply scoreMatch_prefix in T. lra.
  - apply scoreMatch_substring in T. lra.
  - apply scoreMatch_subsequence_bounds in T. lra.
  - rewrite (scoreMatch_nomatch _ _ T). lra.
Qed.

Lemma upper_tiers_ordered q t1 t2 :
  tierOf q t1 <> Subsequence -> tierOf q t2 <> Subsequence ->
  upperRank (tierOf q t2) < upperRank (tierOf q t1) ->
  (scoreMatch q t2 < scoreMatch q t1)%Q.
Proof.
  intros N1 N2.
  destruct (tierOf q t1) eqn:T1; destruct (tierOf q t2) eqn:T2;
    simpl; try lia; try congruence; intros _;
    repeat match goal with
    | H : tierOf _ _ = Exact |- _ => rewrite (scoreMatch_exact _ _ H); clear H
    | H : tierOf _ _ = NoMatch |- _ => rewrite (scoreMatch_nomatch _ _ H); clear H
    | H : tierOf _ _ = Prefix |- _ => apply scoreMatch_prefix in H
    | H : tierOf _ _ = Substring |- _ => apply scoreMatch_substring in H
    end; lra.
Qed.

(** A subsequence match stays below every substring match as long as the
    query has at most 28 characters. *)
Lemma subsequence_below_substring_short q t1 t2 :
  Js.len (Js.toLowerCase q) <= 28 ->
  tierOf q t1 = Substring -> tierOf q t2 = Subsequence ->
  (scoreMatch q t2 < scoreMatch q t1)%Q.
Proof.
  intros L T1 T2.
  apply scoreMatch_substring in T1. apply scoreMatch_subsequence_bounds in T2.
  assert (inject_Z (30 * Js.len (Js.toLowerCase q)) <= inject_Z 840)%Q
    by (rewrite <- Zle_Qle; lia).
  change (inject_Z 840) with 840%Q in *. lra.
Qed.

(** ** Tiering and the maximum score *)

(** C1 (monotonic tiering), evaluated where it breaks: the reward
    [maxRun * 30] of the subsequence tier has no cap, so for this query the
    pure-subsequence candidate scores 54070/41 (about 1318.8) and the
    substring candidate, word-boundary bonus included, 53200/41 (about
    1297.6). The lower tier wins. *)
Theorem tiering_breaks_on_long_query :
  tierOf longQuery longSubstringText = Substring /\
  tierOf longQuery longSubsequenceText = Subsequence /\
  (scoreMatch longQuery longSubstringText == 53200 # 41)%Q /\
  (scoreMatch longQuery longSubsequenceText == 54070 # 41)%Q /\
  (scoreMatch longQuery longSubstringText
   < scoreMatch longQuery longSubsequenceText)%Q.
Proof. repeat split; vm_compute; reflexivity. Qed.

(** C2 as stated fails twice. The scorer folds case, so a query that differs
    from the text only in case reaches 10000 as well. And 10000 is not the
    maximum: a subsequence match with a run of 330 scores 3336550/332 (about
    10049.8). *)
Lemma maximum_reached_by_other_pairs :
  ("A" <> "a" /\ ~ (scoreMatch "A" "a" < 10000)%Q) /\
  (hugeQuery <> hugeText /\ tierOf hugeQuery hugeText = Subsequence /\
   (scoreMatch hugeQuery hugeText == 3336550 # 332)%Q /\
   (10000 < scoreMatch hugeQuery hugeText)%Q).
Proof.
  split; split.
  - discriminate.
  - vm_compute. discriminate.
  - discriminate.
  - repeat split; vm_compute; reflexivity.
Qed.

(** C2, amended: [scoreMatch t t] is 10000 for every [t]; so is the score of
    every pair whose lower-cased forms agree; and a pair whose lower-cased
    forms differ scores strictly below 10000 whenever it is not a
    pure-subsequence match. *)
Theorem scoreMatch_maximum (q t : string) :
  tierOf q t <> Subsequence ->
  scoreMatch t t = 10000%Q /\
  (Js.toLowerCase q = Js.toLowerCase t -> scoreMatch q t = 10000%Q) /\
  (Js.toLowerCase q <> Js.toLowerCase t -> (scoreMatch q t < 10000)%Q).
Proof.
  intros NS. split; [|split].
  - apply scoreMatch_exact. now apply tier_exact_iff.
  - intros E. apply scoreMatch_exact. now apply tier_exact_iff.
  - intros NE.
    destruct (tierOf q t) eqn:T.
    + apply tier_exact_iff in T. contradiction.
    + apply scoreMatch_prefix in T. lra.
    + apply scoreMatch_substring in T. lra.
    + congruence.
    + rewrite (scoreMatch_nomatch _ _ T). lra.
Qed.

Lemma scoreMatch_maximum_witness :
  scoreMatch "fizzy-cli" "fizzy-cli" = 10000%Q /\
  (Js.toLowerCase "fizzy" = Js.toLowerCase "fizzy-cli" ->
   scoreMatch "fizzy" "fizzy-cli" = 10000%Q) /\
  (Js.toLowerCase "fizzy" <> Js.toLowerCase "fizzy-cli" ->
   (scoreMatch "fizzy" "fizzy-cli" < 10000)%Q).
Proof.
  apply (scoreMatch_maximum "fizzy" "fizzy-cli").
  vm_compute. discriminate.
Defined.

(** ** Recording usage *)

Lemma find_first {A} (p : A -> bool) l1 r l2 :
  (forall x, In x l1 -> p x = false) -> p r = true ->
  find p (l1 ++ r :: l2)%list = Some r.
Proof.
  induction l1 as [|x l1 IH]; intros N P; simpl.
  - now rewrite P.
  - rewrite (N x) by now left. apply IH; auto. intros y Hy. apply N. now right.
Qed.

Lemma find_none_iff {A} (p : A -> bool) l :
  find p l = None <-> forall x, In x l -> p x = false.
Proof.
  split.
  - apply find_none.
  - induction l as [|x l IH]; simpl; auto. intros N.
    rewrite (N x) by now left. apply IH. intros y Hy. apply N. now right.
Qed.

Lemma count_occ_filtered_out (n : string) (l : list SkillUsage) :
  count_occ string_dec
    (map u_name (filter (fun r => negb (u_name r =? n)%string) l)) n = 0%nat.
Proof.
  apply count_occ_not_In. rewrite in_map_iff. intros (r & E & H).
  apply filter_In in H. destruct H as [_ H]. subst n.
  now rewrite String.eqb_refl in H.
Qed.

Lemma count_occ_firstn_le {A} (dec : forall x y : A, {x = y} + {x <> y}) x k :
  forall l, (count_occ dec (firstn k l) x <= count_occ dec l x)%nat.
Proof.
  induction k as [|k IH]; intros [|y l]; simpl; try lia.
  destruct (dec y x); specialize (IH l); lia.
Qed.

(** C7 (recordUsage). With [rs] the list before and [out] the list after:
    [out] is the list [fresh :: others] cut after eight records, where
    [others] is [rs] without the records of the chosen name, in their old
    order, and [fresh] carries the chosen name, the time of the call and
    the count: one more than the count of the first record of that name
    when there is one, and 1 when there is none. The chosen name occurs
    exactly once in [out], and nothing else of the state changes. *)
Theorem recordUsage_moves_to_front (state : PaletteState) (skill : Skill) (now : Z) :
  let rs := recentSkills state in
  let out := recentSkills (recordUsage state skill now) in
  let others := filter (fun r => negb (u_name r =? name skill)%string) rs in
  exists cnt dropped rest,
    (forall l1 r l2,
        rs = (l1 ++ r :: l2)%list -> u_name r = name skill ->
        (forall x, In x l1 -> u_name x <> name skill) -> cnt = count r + 1) /\
    ((forall x, In x rs -> u_name x <> name skill) -> cnt = 1) /\
    out = mkUsage (name skill) (namespace skill) now cnt :: rest /\
    others = (rest ++ dropped)%list /\
    (length out <= 8)%nat /\
    (dropped <> [] -> length out = 8%nat) /\
    count_occ string_dec (map u_name out) (name skill) = 1%nat /\
    queuedSkill (recordUsage state skill now) = queuedSkill state.
Proof.
  intros rs out others.
  set (cnt := match find (fun r => (u_name r =? name skill)%string) rs with
              | Some r => count r
              | None => 0
              end + 1).
  exists cnt, (skipn 7 others), (firstn 7 others).
  assert (Hout : out = mkUsage (name skill) (namespace skill) now cnt :: firstn 7 others).
  { unfold out, recordUsage. cbv zeta. fold rs. fold others. fold cnt.
    cbn [recentSkills]. unfold MAX_RECENTS.
    destruct (Nat.ltb_spec 8 (length (mkUsage (name skill) (namespace skill) now cnt :: others)))
      as [L|L].
    - reflexivity.
    - simpl in L. f_equal. symmetry. apply firstn_all2. lia. }
  repeat split.
  - intros l1 r l2 E N F. unfold cnt. rewrite E.
    rewrite (find_first _ l1 r l2).
    + reflexivity.
    + intros x Hx. apply String.eqb_neq. now apply F.
    + now apply String.eqb_eq.
  - intros F. unfold cnt.
    replace (find _ rs) with (@None SkillUsage); [reflexivity|].
    symmetry. apply find_none_iff. intros x Hx. apply String.eqb_neq. now apply F.
  - exact Hout.
  - symmetry. apply firstn_skipn.
  - rewrite Hout. cbn [Datatypes.length]. rewrite length_firstn. lia.
  - intros D. rewrite Hout. cbn [Datatypes.length]. rewrite length_firstn.
    assert (7 < length others)%nat; [|lia].
    destruct (Nat.ltb_spec 7 (length others)); auto.
    exfalso. apply D. apply skipn_all2. lia.
  - rewrite Hout. cbn [map u_name count_occ].
    destruct (string_dec (name skill) (name skill)); [|congruence].
    f_equal. rewrite <- firstn_map.
    pose proof (count_occ_firstn_le string_dec (name skill) 7 (map u_name others)).
    unfold others in *. rewrite count_occ_filtered_out in *. lia.
Qed.

(** ** Searching the display list *)

Lemma is_entry (x : DisplayItem) :
  isSkill x = true -> exists skill g, x = Entry skill g.
Proof. destruct x; [discriminate | eauto]. Qed.

Lemma at_nat {A} (l : list A) (n : nat) : at_ l (Z.of_nat n) = nth_error l n.
Proof.
  unfold at_. destruct (Z.ltb_spec (Z.of_nat n) 0); [lia|].
  now rewrite Nat2Z.id.
Qed.

Lemma existsb_false_nth {A} (p : A -> bool) l n x :
  existsb p l = false -> nth_error l n = Some x -> p x = false.
Proof.
  intros E H. apply nth_error_In in H.
  destruct (p x) eqn:P; auto.
  assert (existsb p l = true) by (apply existsb_exists; eauto). congruence.
Qed.

Lemma findIndexFrom_spec {A} (p : A -> bool) l : forall i,
  if existsb p l
  then exists k x, findIndexFrom p l i = i + Z.of_nat k /\
                   nth_error l k = Some x /\ p x = true
  else findIndexFrom p l i = -1.
Proof.
  induction l as [|y l IH]; intros i; simpl; auto.
  destruct (p y) eqn:P; simpl.
  - exists 0%nat, y. repeat split; auto. lia.
  - specialize (IH (i + 1)). destruct (existsb p l); auto.
    destruct IH as (k & x & E & N & Px).
    exists (S k), x. repeat split; auto. lia.
Qed.

Lemma findIndex_spec {A} (p : A -> bool) l :
  if existsb p l
  then exists x, 0 <= findIndex p l /\ at_ l (findIndex p l) = Some x /\ p x = true
  else findIndex p l = -1.
Proof.
  unfold findIndex. pose proof (findIndexFrom_spec p l 0) as H.
  destruct (existsb p l); auto.
  destruct H as (k & x & E & N & Px). exists x. rewrite E. simpl.
  rewrite at_nat. repeat split; auto. lia.
Qed.

(** The cursor the code picks after it has built a list: the first entry, or
    0 when there is none. *)
Lemma first_or_zero (items : list DisplayItem) :
  let first := findIndex isSkill items in
  let i := if 0 <=? first then first else 0 in
  if existsb isSkill items
  then exists skill g, at_ items i = Some (Entry skill g)
  else i = 0.
Proof.
  cbv zeta. pose proof (findIndex_spec isSkill items) as H.
  destruct (existsb isSkill items).
  - destruct H as (x & P & E & S).
    destruct (Z.leb_spec 0 (findIndex isSkill items)); [|lia].
    apply is_entry in S. destruct S as (sk & g & ->). eauto.
  - rewrite H. reflexivity.
Qed.

Lemma scanUp_found l : forall idx i,
  scanUp l idx = Some i ->
  exists k x, i = idx + Z.of_nat k /\ nth_error l k = Some x /\ isSkill x = true.
Proof.
  induction l as [|y l IH]; intros idx i; simpl; [discriminate|].
  destruct (isSkill y) eqn:P.
  - intros [= <-]. exists 0%nat, y. repeat split; auto. lia.
  - intros H. apply IH in H. destruct H as (k & x & E & N & Px).
    exists (S k), x. repeat split; auto. lia.
Qed.

Lemma scanDown_found items : forall n i,
  scanDown items n = Some i ->
  exists x, at_ items i = Some x /\ isSkill x = true.
Proof.
  induction n as [|n IH]; intros i; simpl; [discriminate|].
  destruct (nth_error items n) as [y|] eqn:N; auto.
  destruct (isSkill y) eqn:P; auto.
  intros [= <-]. exists y. now rewrite at_nat.
Qed.

Lemma scanDown_none items : forall n,
  scanDown items n = None ->
  forall k x, (k < n)%nat -> nth_error items k = Some x -> isSkill x = false.
Proof.
  induction n as [|n IH]; intros H k x L N; [lia|].
  simpl in H.
  destruct (Nat.eq_dec k n) as [->|NE].
  - rewrite N in H. destruct (isSkill x); [discriminate | reflexivity].
  - apply IH with (k := k); [|lia|exact N].
    destruct (nth_error items n) as [y|]; auto.
    destruct (isSkill y); [discriminate | assumption].
Qed.

Lemma scanDown_all_none items :
  scanDown items (length items) = None -> existsb isSkill items = false.
Proof.
  intros H. destruct (existsb isSkill items) eqn:E; auto.
  apply existsb_exists in E. destruct E as (x & I & P).
  apply In_nth_error in I. destruct I as (k & N).
  assert (k < length items)%nat by (apply nth_error_Some; congruence).
  rewrite (scanDown_none _ _ H k x) in P by assumption. discriminate.
Qed.

(** [nextSkillIndex] lands on an entry whenever the list has one, whatever
    the index it starts from, and on 0 when the list has none. *)
Lemma nextSkillIndex_spec items from direction :
  if existsb isSkill items
  then exists skill g,
      at_ items (nextSkillIndex items from direction) = Some (Entry skill g)
  else nextSkillIndex items from direction = 0.
Proof.
  unfold nextSkillIndex. cbv zeta.
  set (idx := from + step direction).
  set (found := if (0 <=? idx) && (idx <? Z.of_nat (length items)) then _ else None).
  assert (F : forall i, found = Some i ->
                        exists x, at_ items i = Some x /\ isSkill x = true).
  { intros i. unfold found.
    destruct ((0 <=? idx) && (idx <? Z.of_nat (length items))) eqn:R;
      [|discriminate].
    apply andb_prop in R. destruct R as [R1 R2]. apply Z.leb_le in R1.
    destruct direction.
    - intros H. apply scanUp_found in H. destruct H as (k & x & -> & N & P).
      exists x. split; auto.
      rewrite nth_error_skipn in N.
      replace (idx + Z.of_nat k) with (Z.of_nat (Z.to_nat idx + k)) by lia.
      now rewrite at_nat.
    - apply scanDown_found. }
  pose proof (first_or_zero items) as FZ. cbv zeta in FZ.
  unfold firstSkillIndex.
  destruct (existsb isSkill items) eqn:E.
  - destruct found as [i|].
    + destruct (F i eq_refl) as (x & A & P).
      apply is_entry in P. destruct P as (sk & g & ->). eauto.
    + destruct direction; [exact FZ|].
      destruct (scanDown items (length items)) as [i|] eqn:D.
      * apply scanDown_found in D. destruct D as (x & A & P).
        apply is_entry in P. destruct P as (sk & g & ->). eauto.
      * apply scanDown_all_none in D. congruence.
  - destruct found as [i|].
    + destruct (F i eq_refl) as (x & A & P). exfalso.
      unfold at_ in A. destruct (i <? 0); [discriminate|].
      rewrite (existsb_false_nth _ _ _ _ E A) in P. discriminate.
    + destruct direction; [exact FZ|].
      destruct (scanDown items (length items)) as [i|] eqn:D; auto.
      apply scanDown_found in D. destruct D as (x & A & P). exfalso.
      unfold at_ in A. destruct (i <? 0); [discriminate|].
      rewrite (existsb_false_nth _ _ _ _ E A) in P. discriminate.
Qed.

(** ** The stable sort *)

Section SortBy.

Context {A : Type} (before : A -> A -> bool).

Lemma insertBy_perm x l : Permutation (insertBy before x l) (x :: l).
Proof.
  induction l as [|y l IH]; simpl; auto.
  destruct (before x y); auto.
  rewrite IH. apply perm_swap.
Qed.

Lemma sortBy_perm l : Permutation (sortBy before l) l.
Proof.
  induction l as [|x l IH]; simpl; auto.
  rewrite insertBy_perm. now constructor.
Qed.

Lemma sortBy_In l x : In x (sortBy before l) <-> In x l.
Proof.
  split; apply Permutation_in; [|symmetry]; apply sortBy_perm.
Qed.

Lemma sortBy_nonempty l : l <> [] -> sortBy before l <> [].
Proof.
  intros N E. apply N. apply Permutation_nil.
  rewrite <- E. apply sortBy_perm.
Qed.

Variable R : A -> A -> Prop.
Hypothesis before_true : forall x y, before x y = true -> R x y.
Hypothesis before_false : forall x y, before x y = false -> R y x.
Hypothesis R_trans : forall x y z, R x y -> R y z -> R x z.

Lemma insertBy_sorted x l :
  StronglySorted R l -> StronglySorted R (insertBy before x l).
Proof.
  induction 1 as [|y l S IH F]; simpl.
  - repeat constructor.
  - destruct (before x y) eqn:B.
    + constructor; [now constructor|].
      constructor; [now apply before_true|].
      eapply Forall_impl; [|exact F].
      intros z. apply R_trans. now apply before_true.
    + constructor; auto.
      eapply Permutation_Forall; [symmetry; apply insertBy_perm|].
      constructor; auto.
Qed.

Lemma sortBy_sorted l : StronglySorted R (sortBy before l).
Proof.
  induction l as [|x l IH]; simpl; [constructor|].
  now apply insertBy_sorted.
Qed.

End SortBy.

(** A list that is sorted up to equality and has no duplicates is sorted. *)
Lemma StronglySorted_strict {A} (R : A -> A -> Prop) l :
  StronglySorted (fun x y => R x y \/ x = y) l -> NoDup l -> StronglySorted R l.
Proof.
  induction 1 as [|x l S IH F]; intros N; [constructor|].
  inversion N as [|? ? NI N']; subst.
  constructor; auto.
  rewrite Forall_forall in *. intros y Hy.
  destruct (F y Hy) as [H| ->]; [assumption | contradiction].
Qed.

(** ** Groups *)

Lemma mapGet_In k : forall (m : Groups) v, mapGet k m = Some v -> In (k, v) m.
Proof.
  induction m as [|[k' v'] m IH]; simpl; [discriminate|].
  intros v. destruct (String.eqb_spec k' k) as [->|NE].
  - intros [= ->]. now left.
  - intros H. right. now apply IH.
Qed.

Lemma mapGet_key k : forall (m : Groups),
  In k (map fst m) -> exists v, mapGet k m = Some v.
Proof.
  induction m as [|[k' v'] m IH]; simpl; [contradiction|].
  intros [->|H].
  - rewrite String.eqb_refl. eauto.
  - destruct (k' =? k)%string; eauto.
Qed.

Lemma mapGet_none k : forall (m : Groups),
  mapGet k m = None -> ~ In k (map fst m).
Proof.
  intros m H I. apply mapGet_key in I. destruct I as (v & E). congruence.
Qed.

Lemma mapSet_keys k v : forall (m : Groups),
  map fst (mapSet k v m) =
  match mapGet k m with
  | Some _ => map fst m
  | None => (map fst m ++ [k])%list
  end.
Proof.
  induction m as [|[k' v'] m IH]; simpl; auto.
  destruct (k' =? k)%string; simpl; auto.
  rewrite IH. destruct (mapGet k m); reflexivity.
Qed.

Lemma mapSet_values k v : forall (m : Groups) kv,
  In kv (mapSet k v m) -> kv = (k, v) \/ In kv m.
Proof.
  induction m as [|[k' v'] m IH]; simpl; intros kv.
  - intros [<-|[]]. now left.
  - destruct (String.eqb_spec k' k) as [->|NE]; simpl.
    + intros [<-|H]; auto.
    + intros [<-|H]; auto. apply IH in H. tauto.
Qed.

Lemma groupStep_ok recentNames m skill :
  groups_ok m -> groups_ok (groupStep recentNames m skill).
Proof.
  intros [N V]. unfold groupStep.
  destruct (existsb _ recentNames); [now split|].
  split.
  - rewrite mapSet_keys.
    destruct (mapGet (namespace skill) m) eqn:G; auto.
    apply mapGet_none in G.
    apply NoDup_app; auto.
    + repeat constructor. intros [].
    + intros x Hx [<-|[]]. contradiction.
  - intros k v H. apply mapSet_values in H. destruct H as [[= _ ->]|H].
    + intros E. apply app_eq_nil in E. destruct E; discriminate.
    + eapply V; eauto.
Qed.

Lemma fold_groupStep_ok recentNames skills : forall m,
  groups_ok m -> groups_ok (fold_left (groupStep recentNames) skills m).
Proof.
  induction skills as [|s skills IH]; simpl; auto.
  intros m H. apply IH. now apply groupStep_ok.
Qed.

Lemma groupsOf_ok skills recents : groups_ok (groupsOf skills recents).
Proof.
  apply fold_groupStep_ok. split; [constructor | intros k v []].
Qed.

(** ** The input reducer *)

Section Reducer.

Variable localeCompare : string -> string -> Z.

Lemma buildDisplayList_has_entry skills recents :
  existsb isSkill (buildDisplayList localeCompare skills recents) = false ->
  buildDisplayList localeCompare skills recents = [].
Proof.
  unfold buildDisplayList. cbv zeta. rewrite existsb_app.
  intros H. apply orb_false_elim in H. destruct H as [H1 H2].
  assert (R : recentSection skills recents = []).
  { revert H1. unfold recentSection.
    destruct (0 <? length recents)%nat; auto.
    destruct (catSome _) as [|s l]; simpl; auto. discriminate. }
  rewrite R. simpl.
  revert H2.
  destruct (sortedNs localeCompare (groupsOf skills recents)) as [|ns l] eqn:S;
    simpl; auto.
  assert (I : In ns (map fst (groupsOf skills recents))).
  { apply (sortBy_In (nsBefore localeCompare)). unfold sortedNs in S.
    rewrite S. now left. }
  apply mapGet_key in I. destruct I as (v & G). rewrite G.
  apply mapGet_In in G. apply (proj2 (groupsOf_ok skills recents)) in G.
  apply (sortBy_nonempty (nameBefore localeCompare)) in G.
  destruct (sortBy (nameBefore localeCompare) v); [congruence|].
  simpl. discriminate.
Qed.

Lemma flatList_has_entry skills :
  existsb isSkill (flatList skills) = false -> flatList skills = [].
Proof. destruct skills; simpl; [reflexivity | discriminate]. Qed.

Lemma createPaletteState_ok skills queued recents :
  cursorOk (createPaletteState localeCompare skills queued recents).
Proof.
  split; simpl.
  - apply first_or_zero.
  - apply buildDisplayList_has_entry.
Qed.

Lemma updateFilter_ok state : cursorOk (updateFilter localeCompare state).
Proof.
  split; simpl.
  - apply first_or_zero.
  - destruct (negb _).
    + apply flatList_has_entry.
    + apply buildDisplayList_has_entry.
Qed.

Lemma setSelected_next_ok state direction :
  cursorOk state ->
  cursorOk (setSelected state
              (nextSkillIndex (displayItems state) (selectedIndex state) direction)).
Proof.
  intros [_ E]. split; simpl; [apply nextSkillIndex_spec | exact E].
Qed.

Lemma handlePaletteInput_ok state input :
  cursorOk state -> cursorOk (fst (handlePaletteInput localeCompare state input)).
Proof.
  intros H. destruct input; simpl; auto.
  - destruct (at_ _ _) as [[|skill g]|]; auto.
    destruct (queuedSkillName state) as [q|]; auto.
    destruct (name skill =? q)%string; auto.
  - now apply setSelected_next_ok.
  - now apply setSelected_next_ok.
  - destruct (0 <? _)%nat; auto. apply updateFilter_ok.
  - destruct (printable data); auto. apply updateFilter_ok.
Qed.

(** C8 (cursor invariant). In every state reachable from
    [createPaletteState] through [handlePaletteInput], [selectedIndex] is
    the index of an entry when [displayItems] has an entry and is 0 when it
    has none; it is never the index of a header. *)
Theorem cursor_invariant (s : PaletteRenderState) :
  reachable localeCompare s ->
  (existsb isSkill (displayItems s) = true ->
   exists skill g, at_ (displayItems s) (selectedIndex s) = Some (Entry skill g)) /\
  (existsb isSkill (displayItems s) = false -> selectedIndex s = 0) /\
  (forall ns, at_ (displayItems s) (selectedIndex s) <> Some (Header ns)).
Proof.
  intros R.
  assert (H : cursorOk s).
  { induction R; [apply createPaletteState_ok | now apply handlePaletteInput_ok]. }
  destruct H as [C E].
  destruct (existsb isSkill (displayItems s)).
  - destruct C as (skill & g & A). repeat split; eauto; try discriminate.
    intros ns. rewrite A. discriminate.
  - repeat split; auto; try discriminate.
    intros ns. rewrite (E eq_refl), C. discriminate.
Qed.

(** C9 (confirm). With an entry under the cursor, the Return key leaves the
    state alone and returns [unqueue] of that entry's skill when its name is
    the queued name, and [select] of it when no name is queued or another
    one is. *)
Theorem confirm_selects_or_unqueues (state : PaletteRenderState) skill g :
  at_ (displayItems state) (selectedIndex state) = Some (Entry skill g) ->
  fst (handlePaletteInput localeCompare state KeyReturn) = state /\
  (queuedSkillName state = Some (name skill) <->
   snd (handlePaletteInput localeCompare state KeyReturn) = Some (unqueue skill)) /\
  (queuedSkillName state <> Some (name skill) <->
   snd (handlePaletteInput localeCompare state KeyReturn) = Some (select skill)).
Proof.
  intros A. simpl. rewrite A.
  destruct (queuedSkillName state) as [q|].
  - destruct (String.eqb_spec (name skill) q) as [->|NE]; simpl.
    + repeat split; auto; try congruence.
    + repeat split; auto; try congruence.
  - simpl. repeat split; auto; try congruence.
Qed.

(** C5 (display-mode switch), amended. After an input that edits the query
    (a printable character, or Backspace on a non-empty query) the query is
    the edited one, the catalog and the recents are the old ones, and the
    display list is the flat list of [filterSkills catalog query], one entry
    per skill in filter order, each under its own namespace and with no
    header, when the query is not blank; when the query is empty or all
    white space, the display list is [buildDisplayList] of the full catalog
    and the recents. *)
Theorem display_mode_switch (state : PaletteRenderState) input q' :
  editedQuery (query state) input = Some q' ->
  let s' := fst (handlePaletteInput localeCompare state input) in
  query s' = q' /\ allSkills s' = allSkills state /\ recents s' = recents state /\
  (Js.trim q' <> "" ->
   displayItems s' = flatList (filterSkills (allSkills state) q') /\
   forall ns, ~ In (Header ns) (displayItems s')) /\
  (Js.trim q' = "" ->
   displayItems s' = buildDisplayList localeCompare (allSkills state) (recents state)).
Proof.
  intros E.
  assert (S : fst (handlePaletteInput localeCompare state input)
              = updateFilter localeCompare (setQuery state q')).
  { destruct input; simpl in *; try discriminate.
    - destruct (0 <? _)%nat; [|discriminate]. now injection E as <-.
    - destruct (printable data); [|discriminate]. now injection E as <-. }
  cbv zeta. rewrite S. simpl. split; [|split; [|split; [|split]]]; auto.
  - intros N. destruct (Js.trim q'); [congruence|]. simpl. split; [reflexivity|].
    intros ns I. apply in_map_iff in I. destruct I as (x & X & _). discriminate.
  - intros B. unfold filterSkills. rewrite B. reflexivity.
Qed.

End Reducer.

(** ** Ranking *)

Lemma positive_iff q : positive q = true <-> (0 < q)%Q.
Proof.
  unfold positive. rewrite negb_true_iff.
  destruct (Qle_bool q 0) eqn:E.
  - apply Qle_bool_iff in E. split; [discriminate | lra].
  - split; auto. intros _. apply Qnot_le_lt. intros L.
    apply Qle_bool_iff in L. congruence.
Qed.

Lemma qmax_ge_l a b : (a <= qmax a b)%Q.
Proof.
  unfold qmax. destruct (Qle_bool a b) eqn:E; [|lra].
  now apply Qle_bool_iff.
Qed.

Lemma byScoreDesc_true a b : byScoreDesc a b = true -> (snd b <= snd a)%Q.
Proof. unfold byScoreDesc. intros H. apply Qle_bool_iff in H. lra. Qed.

Lemma byScoreDesc_false a b : byScoreDesc a b = false -> (snd a <= snd b)%Q.
Proof.
  unfold byScoreDesc. intros H.
  destruct (Qlt_le_dec (snd a) (snd b)) as [L|L]; [lra|].
  assert (Qle_bool (snd b - snd a) 0 = true) by (apply Qle_bool_iff; lra).
  congruence.
Qed.

Lemma scored_filter (score : Skill -> Q) l :
  map fst (filter (fun item : Skill * Q => positive (snd item))
             (map (fun skill => (skill, score skill)) l))
  = filter (fun s => positive (score s)) l.
Proof.
  induction l as [|s l IH]; simpl; auto.
  destruct (positive (score s)); simpl; congruence.
Qed.

(** [rank] keeps exactly the skills with a positive score ... *)
Lemma rank_perm score l :
  Permutation (rank score l) (filter (fun s => positive (score s)) l).
Proof.
  unfold rank. rewrite <- scored_filter.
  apply Permutation_map. apply sortBy_perm.
Qed.

Lemma sorted_pairs (score : Skill -> Q) (ps : list (Skill * Q)) :
  Forall (fun p => snd p = score (fst p)) ps ->
  StronglySorted (fun a b => snd b <= snd a)%Q ps ->
  StronglySorted (fun a b => score b <= score a)%Q (map fst ps).
Proof.
  intros F S. induction S as [|p ps S IH L]; simpl; [constructor|].
  inversion F as [|? ? Ep F']; subst.
  constructor; auto.
  rewrite Forall_forall in *. intros s Hs.
  apply in_map_iff in Hs. destruct Hs as (p' & <- & I).
  rewrite <- Ep, <- (F' p' I). now apply L.
Qed.

(** ... and lists them by descending score. *)
Lemma rank_sorted score l :
  StronglySorted (fun a b => score b <= score a)%Q (rank score l).
Proof.
  unfold rank. apply sorted_pairs.
  - eapply Permutation_Forall; [symmetry; apply sortBy_perm|].
    apply Forall_forall. intros p Hp. apply filter_In in Hp. destruct Hp as [Hp _].
    apply in_map_iff in Hp. destruct Hp as (s & <- & _). reflexivity.
  - apply sortBy_sorted.
    + apply byScoreDesc_true.
    + apply byScoreDesc_false.
    + intros x y z H1 H2. lra.
Qed.

(** ** The filter returns a selection of its input *)

Lemma filter_twice {A} (p q : A -> bool) l :
  filter p (filter q l) = filter (fun x => q x && p x) l.
Proof.
  induction l as [|x l IH]; simpl; auto.
  destruct (q x); simpl; [destruct (p x)|]; congruence.
Qed.

Lemma filterSkills_selects skills query :
  exists p, Permutation (filterSkills skills query) (filter p skills).
Proof.
  unfold filterSkills. cbv zeta.
  destruct (Js.isEmpty (Js.trim query)).
  { exists (fun _ => true). now rewrite filter_true. }
  destruct (0 <? Js.indexOf query ":").
  { set (inNs := fun s => Js.startsWith _ _).
    destruct (Js.isEmpty _).
    - exists inNs. reflexivity.
    - eexists. rewrite rank_perm, filter_twice. reflexivity. }
  destruct (0 <? length _)%nat.
  { eexists. reflexivity. }
  destruct (filter _ (distinct _)) as [|ns0 [|? ?]].
  - eexists. apply rank_perm.
  - eexists. reflexivity.
  - eexists. apply rank_perm.
Qed.

Lemma count_occ_filter_le {A} (dec : forall x y : A, {x = y} + {x <> y}) p x :
  forall l, (count_occ dec (filter p l) x <= count_occ dec l x)%nat.
Proof.
  induction l as [|y l IH]; simpl; auto.
  destruct (p y); simpl; destruct (dec y x); lia.
Qed.

(** C10 (the filter invents and duplicates nothing). Every skill of
    [filterSkills skills query] is a skill of [skills]; no skill occurs more
    often in the output than in the input; and a catalog without duplicates
    gives an output without duplicates. *)
Theorem filterSkills_invents_nothing (skills : list Skill) (query : string) :
  (forall s, In s (filterSkills skills query) -> In s skills) /\
  (forall s, (count_occ Skill_eq_dec (filterSkills skills query) s
              <= count_occ Skill_eq_dec skills s)%nat) /\
  (NoDup skills -> NoDup (filterSkills skills query)).
Proof.
  destruct (filterSkills_selects skills query) as (p & P).
  repeat split.
  - intros s H. apply (Permutation_in _ P) in H. apply filter_In in H. tauto.
  - intros s. rewrite (Permutation_count_occ Skill_eq_dec) in P. rewrite P.
    apply count_occ_filter_le.
  - intros N. apply (Permutation_NoDup (Permutation_sym P)).
    now apply NoDup_filter.
Qed.

(** ** Blank queries and the colon *)

Lemma trimEnd_empty s : Js.trimEnd s = "" -> allSpaces s = true.
Proof.
  induction s as [|c s IH]; simpl; auto.
  destruct (Js.trimEnd s); [|discriminate].
  destruct (Js.isSpace c); [|discriminate]. auto.
Qed.

Lemma trimStart_spaces s : allSpaces (Js.trimStart s) = true -> allSpaces s = true.
Proof.
  induction s as [|c s IH]; simpl; auto.
  destruct (Js.isSpace c) eqn:E; simpl; auto.
  now rewrite E.
Qed.

Lemma trim_empty s : Js.trim s = "" -> allSpaces s = true.
Proof. intros H. apply trimStart_spaces. now apply trimEnd_empty. Qed.

Lemma prefix_char a c s :
  String.prefix (String a "") (String c s) = Ascii.eqb a c.
Proof.
  cbn [String.prefix].
  destruct (ascii_dec a c) as [->|NE].
  - rewrite Ascii.eqb_refl. now destruct s.
  - symmetry. now apply Ascii.eqb_neq.
Qed.

Lemma indexOfFrom_char a c s i :
  Js.indexOfFrom (String c s) (String a "") i =
  if Ascii.eqb a c then i else Js.indexOfFrom s (String a "") (i + 1).
Proof. cbn [Js.indexOfFrom]. now rewrite prefix_char. Qed.

Lemma allSpaces_no_colon s : forall i,
  allSpaces s = true -> Js.indexOfFrom s ":" i = -1.
Proof.
  induction s as [|c s IH]; intros i; [reflexivity|].
  cbn [allSpaces]. intros H. apply andb_prop in H. destruct H as [C S].
  rewrite indexOfFrom_char.
  destruct (Ascii.eqb_spec ":" c) as [<-|NE]; [discriminate|].
  now apply IH.
Qed.

Lemma colon_not_blank query : 0 <= Js.indexOf query ":" -> Js.trim query <> "".
Proof.
  intros H E. apply trim_empty in E.
  unfold Js.indexOf in H. rewrite (allSpaces_no_colon _ 0 E) in H. lia.
Qed.

Lemma substring_all s : String.substring 0 (String.length s) s = s.
Proof. induction s; simpl; congruence. Qed.

(** The query is what stands before its first colon, the colon, and what
    stands after it. *)
Lemma colon_split s : forall i n,
  0 <= i ->
  Js.indexOfFrom s ":" i = i + Z.of_nat n ->
  s = String.substring 0 n s ++ ":"
      ++ String.substring (S n) (String.length s - S n) s.
Proof.
  induction s as [|c s IH]; intros i n Hi.
  - cbn. lia.
  - rewrite indexOfFrom_char.
    destruct (Ascii.eqb_spec ":" c) as [<-|NE].
    + intros H. assert (n = 0%nat) by lia. subst n.
      cbn [String.substring String.length String.append].
      replace (S (String.length s) - 1)%nat with (String.length s) by lia.
      now rewrite substring_all.
    + intros H.
      destruct (indexOfFrom_range s ":" (i + 1)) as [E|[L _]]; [lia | lia |].
      destruct n as [|n]; [lia|].
      specialize (IH (i + 1) n).
      cbn [String.substring String.length String.append Nat.sub].
      f_equal. apply IH; lia.
Qed.

Lemma query_split query :
  0 <= Js.indexOf query ":" ->
  query = Js.sliceTo query (Js.indexOf query ":") ++ ":"
          ++ Js.sliceFrom query (Js.indexOf query ":" + 1).
Proof.
  intros H. unfold Js.sliceTo, Js.sliceFrom.
  replace (Z.to_nat (Js.indexOf query ":" + 1))
    with (S (Z.to_nat (Js.indexOf query ":"))) by lia.
  apply (colon_split query 0); [lia|]. unfold Js.indexOf in *. lia.
Qed.

Lemma isEmpty_false s : s <> "" -> Js.isEmpty s = false.
Proof. destruct s; [congruence | reflexivity]. Qed.

Lemma isEmpty_true s : Js.isEmpty s = true -> s = "".
Proof. destruct s; [reflexivity | discriminate]. Qed.

(** ** Scoped queries and exact namespaces *)

Lemma rank_single score s :
  (0 < score s)%Q -> rank score [s] = [s].
Proof.
  intros H. apply positive_iff in H. unfold rank. simpl. now rewrite H.
Qed.

(** C3 as stated fails: a colon in first position does not scope the query.
    The claim would keep [zzz] (its description starts with "ad", which is
    worth 0.3 * 5025); the code searches for ":ad" as it stands and finds
    nothing. *)
Lemma leading_colon_is_not_scoped :
  let skills := [mkSkill "zzz" "marketing" "ad stuff" "" home] in
  Js.indexOf ":ad" ":" = 0 /\
  Js.sliceTo ":ad" 0 = "" /\ Js.trim (Js.sliceFrom ":ad" 1) = "ad" /\
  filter (fun s => positive (scopedScore "ad" s))
    (filter (fun s => Js.startsWith (Js.toLowerCase (namespace s)) "") skills)
  = skills /\
  filterSkills skills ":ad" = [].
Proof. repeat split; vm_compute; reflexivity. Qed.

(** C3 (colon-scoped filtering), amended: for a query whose first colon is
    not its first character. The query is [nsPart], the colon and the rest;
    [namePart] is the rest, trimmed. [filterSkills] keeps the skills whose
    lower-cased namespace starts with the lower-cased [nsPart]; it returns
    them in catalog order when [namePart] is empty, and otherwise returns
    those of them whose score [max(scoreMatch(namePart, name),
    0.3 * scoreMatch(namePart, description))] is positive, each as often as
    it is in the catalog, by descending score. For the catalog of the
    example, whatever the descriptions, "marketing:ad" gives [ad-creative]. *)
Theorem colon_scoped_filtering (skills : list Skill) (query : string) :
  0 < Js.indexOf query ":" ->
  let idx := Js.indexOf query ":" in
  let nsPart := Js.sliceTo query idx in
  let namePart := Js.trim (Js.sliceFrom query (idx + 1)) in
  let restricted :=
    filter (fun s => Js.startsWith (Js.toLowerCase (namespace s))
                       (Js.toLowerCase nsPart)) skills in
  let score := fun s =>
    qmax (scoreMatch namePart (name s))
         (scoreMatch namePart (description s) * (3 # 10)) in
  query = nsPart ++ ":" ++ Js.sliceFrom query (idx + 1) /\
  (namePart = "" -> filterSkills skills query = restricted) /\
  (namePart <> "" ->
   (forall s, In s (filterSkills skills query)
              <-> In s restricted /\ (0 < score s)%Q) /\
   Permutation (filterSkills skills query)
     (filter (fun s => positive (score s)) restricted) /\
   StronglySorted (fun a b => score b <= score a)%Q (filterSkills skills query)) /\
  (forall s1 s2 s3,
      name s1 = "fizzy-cli" -> namespace s1 = "tools" ->
      name s2 = "brave-search" -> namespace s2 = "search" ->
      name s3 = "ad-creative" -> namespace s3 = "marketing" ->
      filterSkills [s1; s2; s3] "marketing:ad" = [s3]).
Proof.
  intros C idx nsPart namePart restricted score.
  assert (B : Js.isEmpty (Js.trim query) = false).
  { apply isEmpty_false. apply colon_not_blank. lia. }
  assert (F : filterSkills skills query =
              if Js.isEmpty namePart then restricted else rank score restricted).
  { unfold filterSkills. cbv zeta. rewrite B.
    fold idx. destruct (Z.ltb_spec 0 idx); [reflexivity | lia]. }
  split; [apply query_split; lia|].
  split; [|split].
  - intros E. rewrite F, E. reflexivity.
  - intros N. rewrite F, (isEmpty_false _ N).
    split; [|split].
    + intros s. rewrite <- positive_iff.
      pose proof (filter_In (fun s => positive (score s)) s restricted) as FI.
      cbv beta in FI. rewrite <- FI.
      split; apply Permutation_in; [|symmetry]; apply rank_perm.
    + apply rank_perm.
    + apply rank_sorted.
  - intros [n1 ns1 d1 f1 o1] [n2 ns2 d2 f2 o2] [n3 ns3 d3 f3 o3]; simpl.
    intros -> -> -> -> -> ->.
    unfold filterSkills. cbv zeta.
    change (Js.isEmpty (Js.trim "marketing:ad")) with false.
    change (0 <? Js.indexOf "marketing:ad" ":") with true.
    change (Js.trim (Js.sliceFrom "marketing:ad" (Js.indexOf "marketing:ad" ":" + 1)))
      with "ad".
    cbn [filter namespace].
    change (Js.startsWith (Js.toLowerCase "tools") _) with false.
    change (Js.startsWith (Js.toLowerCase "search") _) with false.
    change (Js.startsWith (Js.toLowerCase "marketing") _) with true.
    cbv iota. change (Js.isEmpty "ad") with false. cbv iota.
    apply rank_single.
    eapply Qlt_le_trans; [|apply qmax_ge_l].
    vm_compute. reflexivity.
Qed.

Lemma colon_scoped_filtering_witness :
  0 < Js.indexOf "marketing:ad" ":" /\
  "marketing:ad" = Js.sliceTo "marketing:ad" 9 ++ ":" ++ Js.sliceFrom "marketing:ad" 10 /\
  Permutation (filterSkills testSkills "marketing:ad")
    (filter (fun s => positive (scopedScore "ad" s))
       (filter (fun s => Js.startsWith (Js.toLowerCase (namespace s)) "marketing")
          testSkills)) /\
  filterSkills testSkills "marketing:ad"
  = [mkSkill "ad-creative" "marketing" "Desc for ad-creative"
       "/fake/ad-creative/SKILL.md" home].
Proof.
  assert (C : 0 < Js.indexOf "marketing:ad" ":") by (vm_compute; reflexivity).
  destruct (colon_scoped_filtering testSkills "marketing:ad" C) as (S & _ & R & E).
  split; [exact C|]. split; [exact S|]. split.
  - apply R. vm_compute. discriminate.
  - apply E; reflexivity.
Defined.

(** C4 as stated fails: the query is trimmed before it is compared, the
    namespace is not. A namespace with a leading space is never matched
    exactly, and the query falls through to the ranking of all skills. *)
Lemma padded_namespace_is_not_matched :
  let skills := [mkSkill "x" " a" "" "" home; mkSkill "ab" "b" "" "" home] in
  Js.indexOf " a" ":" = -1 /\ Js.trim " a" <> "" /\
  (exists s, In s skills /\ Js.toLowerCase (namespace s) = Js.toLowerCase " a") /\
  filter (fun s => (Js.toLowerCase (namespace s) =? Js.toLowerCase " a")%string) skills
  = [mkSkill "x" " a" "" "" home] /\
  filterSkills skills " a"
  = [mkSkill "ab" "b" "" "" home; mkSkill "x" " a" "" "" home].
Proof.
  repeat split; try (vm_compute; reflexivity).
  - vm_compute. discriminate.
  - eexists. split; [left; reflexivity | reflexivity].
Qed.

(** C4 (exact-namespace priority), amended: for a query without a colon
    that is not blank, if the lower-cased namespace of some skill is the
    lower-cased, trimmed query, [filterSkills] returns the skills whose
    lower-cased namespace is that string, in catalog order, whatever the
    names and descriptions in the catalog match. For the catalog of the
    example, "search" gives [brave-search] only. *)
Theorem exact_namespace_priority (skills : list Skill) (query : string) :
  Js.indexOf query ":" = -1 ->
  Js.trim query <> "" ->
  (exists s, In s skills /\
             Js.toLowerCase (namespace s) = Js.trim (Js.toLowerCase query)) ->
  filterSkills skills query =
    filter (fun s => (Js.toLowerCase (namespace s)
                      =? Js.trim (Js.toLowerCase query))%string) skills /\
  (forall s1 s2 s3,
      name s1 = "fizzy-cli" -> namespace s1 = "tools" ->
      name s2 = "brave-search" -> namespace s2 = "search" ->
      name s3 = "ad-creative" -> namespace s3 = "marketing" ->
      filterSkills [s1; s2; s3] "search" = [s2]).
Proof.
  intros C B (s & I & E). split.
  - unfold filterSkills. cbv zeta.
    rewrite (isEmpty_false _ B), C. change (0 <? -1) with false. cbv iota.
    set (exact := filter _ skills).
    assert (In s exact).
    { apply filter_In. split; auto. now apply String.eqb_eq. }
    destruct exact; [contradiction | reflexivity].
  - intros [n1 ns1 d1 f1 o1] [n2 ns2 d2 f2 o2] [n3 ns3 d3 f3 o3]; simpl.
    intros -> -> -> -> -> ->. reflexivity.
Qed.

Lemma exact_namespace_priority_witness :
  Js.indexOf "search" ":" = -1 /\ Js.trim "search" <> "" /\
  filterSkills testSkills "search"
  = [mkSkill "brave-search" "search" "Desc for brave-search"
       "/fake/brave-search/SKILL.md" home].
Proof.
  assert (C : Js.indexOf "search" ":" = -1) by reflexivity.
  assert (B : Js.trim "search" <> "") by (vm_compute; discriminate).
  assert (X : exists s, In s testSkills /\
                Js.toLowerCase (namespace s) = Js.trim (Js.toLowerCase "search")).
  { eexists. split; [right; left; reflexivity | reflexivity]. }
  destruct (exact_namespace_priority testSkills "search" C B X) as [E _].
  split; [exact C|]. split; [exact B|]. rewrite E. reflexivity.
Defined.

(** ** The order of the display list *)

Lemma headedFrom_mono items : forall seen seen',
  incl seen seen' -> headedFrom seen items -> headedFrom seen' items.
Proof.
  induction items as [|[ns|sk ns] r IH]; simpl; auto; intros seen seen' I.
  - apply IH. intros x [<-|H]; [now left | right; auto].
  - intros [H1 H2]. split; [auto | eapply IH; eauto].
Qed.

Lemma headedFrom_app a b : forall seen,
  headedFrom seen a -> headedFrom [] b -> headedFrom seen (a ++ b)%list.
Proof.
  induction a as [|[ns|sk ns] r IH]; simpl; intros seen Ha Hb.
  - eapply headedFrom_mono; [|exact Hb]. intros x [].
  - now apply IH.
  - destruct Ha. split; auto.
Qed.

Lemma headedFrom_block seen g (l : list Skill) :
  headedFrom seen (Header g :: map (fun skill => Entry skill g) l).
Proof.
  simpl. induction l as [|s l IH]; simpl; auto.
Qed.

Lemma headedFrom_flat_map {A} (f : A -> list DisplayItem) l :
  (forall x, headedFrom [] (f x)) -> headedFrom [] (flat_map f l).
Proof.
  intros H. induction l; simpl; auto. now apply headedFrom_app.
Qed.

Lemma headedFrom_split items : forall seen pre skill g post,
  headedFrom seen items -> items = (pre ++ Entry skill g :: post)%list ->
  In g seen \/ In (Header g) pre.
Proof.
  induction items as [|x r IH]; intros seen pre skill g post H E.
  - destruct pre; discriminate.
  - destruct pre as [|y pre]; simpl in E; injection E as -> E.
    + simpl in H. tauto.
    + destruct y as [ns|sk ns]; simpl in H.
      * destruct (IH _ _ _ _ _ H E) as [[<-|I]|I]; simpl; auto.
      * destruct H as [_ H]. destruct (IH _ _ _ _ _ H E); simpl; auto.
Qed.

Lemma entriesOf_app g a b :
  entriesOf g (a ++ b)%list = (entriesOf g a ++ entriesOf g b)%list.
Proof. unfold entriesOf. apply flat_map_app. Qed.

Lemma headersOf_app a b :
  headersOf (a ++ b)%list = (headersOf a ++ headersOf b)%list.
Proof. unfold headersOf. apply flat_map_app. Qed.

Lemma StronglySorted_after {A} (R : A -> A -> Prop) pre x post :
  StronglySorted R (pre ++ x :: post) -> Forall (R x) post.
Proof.
  induction pre as [|y pre IH]; simpl; intros S; inversion S; subst; auto.
Qed.

Section DisplayOrder.

Variable localeCompare : string -> string -> Z.

Lemma headersOf_groups groups l :
  headersOf (flat_map (groupItems localeCompare groups) l) = l.
Proof.
  induction l as [|ns l IH]; simpl; auto.
  rewrite headersOf_app, IH. unfold groupItems. cbv zeta.
  change (ns :: l) with ([ns] ++ l)%list. f_equal.
  unfold headersOf. simpl. f_equal.
  induction (sortBy _ _); simpl; auto.
Qed.

Lemma entriesOf_block g groups ns :
  entriesOf g (groupItems localeCompare groups ns) =
  if (ns =? g)%string
  then sortBy (nameBefore localeCompare)
         (match mapGet ns groups with Some l => l | None => [] end)
  else [].
Proof.
  unfold groupItems. cbv zeta. simpl.
  induction (sortBy _ _) as [|s l IH]; simpl.
  - now destruct (ns =? g)%string.
  - rewrite IH. now destruct (ns =? g)%string.
Qed.

Lemma entriesOf_absent g groups l :
  ~ In g l -> entriesOf g (flat_map (groupItems localeCompare groups) l) = [].
Proof.
  induction l as [|ns l IH]; [reflexivity|]. intros N.
  cbn [flat_map].
  rewrite entriesOf_app, entriesOf_block, IH by (simpl in N; tauto).
  destruct (String.eqb_spec ns g); [|reflexivity].
  exfalso. apply N. now left.
Qed.

Lemma headedFrom_recent skills recents :
  headedFrom [] (recentSection skills recents).
Proof.
  unfold recentSection.
  destruct (0 <? length recents)%nat; simpl; auto.
  destruct (0 <? length _)%nat; simpl; auto.
  apply (headedFrom_block [] "recent").
Qed.

Lemma buildDisplayList_headed skills recents :
  headedFrom [] (buildDisplayList localeCompare skills recents).
Proof.
  unfold buildDisplayList. cbv zeta. apply headedFrom_app.
  - apply headedFrom_recent.
  - apply headedFrom_flat_map. intros ns. apply headedFrom_block.
Qed.

Hypothesis localeCompare_total :
  forall a b, localeCompare a b <= 0 \/ localeCompare b a <= 0.
Hypothesis localeCompare_trans :
  forall a b c, localeCompare a b <= 0 -> localeCompare b c <= 0 ->
                localeCompare a c <= 0.

Lemma sortedNs_sorted (groups : Groups) :
  NoDup (map fst groups) ->
  StronglySorted (nsOrder localeCompare) (sortedNs localeCompare groups) /\
  NoDup (sortedNs localeCompare groups).
Proof.
  intros N.
  assert (ND : NoDup (sortedNs localeCompare groups)).
  { eapply Permutation_NoDup; [symmetry; apply sortBy_perm | exact N]. }
  split; auto.
  apply StronglySorted_strict; auto.
  apply sortBy_sorted; unfold nsBefore, compareNs, nsOrder.
  - intros a b.
    destruct (String.eqb_spec a "other"), (String.eqb_spec b "other");
      intros H; apply Z.leb_le in H; auto; lia.
  - intros a b.
    destruct (String.eqb_spec a "other"), (String.eqb_spec b "other");
      intros H; apply Z.leb_gt in H; subst; auto; try lia.
    destruct (localeCompare_total a b); [lia | auto].
  - intros a b c [[A1 [A2|A2]]| ->] [[B1 [B2|B2]]| ->]; subst; auto;
      try congruence.
    left. split; auto. right. eauto.
Qed.

Lemma names_sorted (l : list Skill) :
  alphabetical localeCompare (sortBy (nameBefore localeCompare) l).
Proof.
  apply sortBy_sorted; unfold nameBefore.
  - intros a b H. now apply Z.leb_le in H.
  - intros a b H. apply Z.leb_gt in H.
    destruct (localeCompare_total (name a) (name b)); [lia | auto].
  - intros a b c. apply localeCompare_trans.
Qed.

Lemma group_entries_sorted g groups l :
  NoDup l ->
  alphabetical localeCompare
    (entriesOf g (flat_map (groupItems localeCompare groups) l)).
Proof.
  induction l as [|ns l IH]; intros N; [constructor|].
  inversion N as [|? ? NI N']; subst. cbn [flat_map].
  rewrite entriesOf_app, entriesOf_block.
  destruct (String.eqb_spec ns g) as [->|NE].
  - rewrite entriesOf_absent by assumption. rewrite app_nil_r.
    apply names_sorted.
  - simpl. now apply IH.
Qed.

(** C6 (order of the display list), amended. The output is the recent
    section followed by the namespace groups. Every entry has the header of
    its group somewhere before it. The headers of the namespace groups are
    pairwise different and in alphabetical order, except that ["other"]
    comes after all the others. The entries of each namespace group are in
    alphabetical order of their names; those of the recent section keep the
    order of the recents list. "Alphabetical" is the order of
    [localeCompare], taken to be total and transitive. *)
Theorem buildDisplayList_order (skills : list Skill) (recents : list SkillUsage) :
  let out := buildDisplayList localeCompare skills recents in
  exists groupsPart,
    out = (recentSection skills recents ++ groupsPart)%list /\
    (forall pre skill g post,
        out = (pre ++ Entry skill g :: post)%list -> In (Header g) pre) /\
    StronglySorted (nsOrder localeCompare) (headersOf groupsPart) /\
    NoDup (headersOf groupsPart) /\
    (forall pre post,
        headersOf groupsPart = (pre ++ "other" :: post)%list -> post = []) /\
    (forall g, alphabetical localeCompare (entriesOf g groupsPart)) /\
    entriesOf "recent" (recentSection skills recents)
    = catSome (map (fun r => find (fun s => (name s =? u_name r)%string) skills)
                 recents) /\
    headersOf (recentSection skills recents)
    = match entriesOf "recent" (recentSection skills recents) with
      | [] => []
      | _ => ["recent"]
      end.
Proof.
  intros out.
  exists (flat_map (groupItems localeCompare (groupsOf skills recents))
            (sortedNs localeCompare (groupsOf skills recents))).
  destruct (sortedNs_sorted (groupsOf skills recents)) as [S N].
  { apply groupsOf_ok. }
  rewrite headersOf_groups.
  assert (RS : forall l : list Skill,
             entriesOf "recent" (map (fun skill => Entry skill "recent") l) = l /\
             headersOf (map (fun skill => Entry skill "recent") l) = []).
  { induction l as [|x l [IH1 IH2]]; [split; reflexivity|].
    split; [simpl; f_equal; exact IH1 | exact IH2]. }
  split; [reflexivity|].
  split; [|split; [|split; [|split; [|split; [|split]]]]]; auto.
  - intros pre skill g post E.
    destruct (headedFrom_split out [] pre skill g post) as [[]|H]; auto.
    apply buildDisplayList_headed.
  - intros pre post E. rewrite E in S. apply StronglySorted_after in S.
    destruct post as [|y post]; auto.
    inversion S as [|? ? [X _] _]; subst. congruence.
  - intros g. now apply group_entries_sorted.
  - unfold recentSection.
    destruct recents as [|r recents]; [reflexivity|].
    change (0 <? length (r :: recents))%nat with true. cbv iota.
    destruct (catSome _) as [|s l]; [reflexivity|].
    change (0 <? length (s :: l))%nat with true. cbv iota.
    exact (proj1 (RS (s :: l))).
  - unfold recentSection.
    destruct recents as [|r recents]; [reflexivity|].
    change (0 <? length (r :: recents))%nat with true. cbv iota.
    destruct (catSome _) as [|s l]; [reflexivity|].
    change (0 <? length (s :: l))%nat with true. cbv iota.
    destruct (RS (s :: l)) as [E1 E2].
    change (headersOf (Header "recent" :: map (fun skill => Entry skill "recent") (s :: l)))
      with ("recent" :: headersOf (map (fun skill => Entry skill "recent") (s :: l))).
    change (entriesOf "recent"
              (Header "recent" :: map (fun skill => Entry skill "recent") (s :: l)))
      with (entriesOf "recent" (map (fun skill => Entry skill "recent") (s :: l))).
    rewrite E1, E2. reflexivity.
Qed.

End DisplayOrder.

(** ** Concrete runs *)

Lemma compare_le_trans a : forall b c,
  String.compare a b <> Gt -> String.compare b c <> Gt -> String.compare a c <> Gt.
Proof.
  induction a as [|x a IH]; intros [|y b] [|z c]; simpl; try congruence.
  unfold Ascii.compare.
  destruct (N.compare_spec (N_of_ascii x) (N_of_ascii y)),
           (N.compare_spec (N_of_ascii y) (N_of_ascii z)),
           (N.compare_spec (N_of_ascii x) (N_of_ascii z));
    try congruence; try lia.
  apply IH.
Qed.

Lemma codeUnitCompare_le a b : codeUnitCompare a b <= 0 <-> String.compare a b <> Gt.
Proof.
  unfold codeUnitCompare. destruct (String.compare a b); split; try lia; congruence.
Qed.

Lemma codeUnitCompare_total a b :
  codeUnitCompare a b <= 0 \/ codeUnitCompare b a <= 0.
Proof.
  rewrite !codeUnitCompare_le, (String.compare_antisym a b).
  destruct (String.compare b a); simpl; [left | right | left]; congruence.
Qed.

Lemma codeUnitCompare_trans a b c :
  codeUnitCompare a b <= 0 -> codeUnitCompare b c <= 0 -> codeUnitCompare a c <= 0.
Proof. rewrite !codeUnitCompare_le. apply compare_le_trans. Qed.

(** C5 as stated fails: a query of one space is not empty, yet the display
    list is the grouped one, headers included. *)
Lemma blank_query_shows_groups :
  let s := createPaletteState codeUnitCompare testSkills None [] in
  let s' := fst (handlePaletteInput codeUnitCompare s (Data " ")) in
  query s' = " " /\ query s' <> "" /\
  In (Header "tools") (displayItems s') /\
  displayItems s' <> flatList (filterSkills (allSkills s') (query s')).
Proof.
  vm_compute. repeat split; try discriminate.
  right. right. right. right. now left.
Qed.

Lemma display_mode_switch_witness :
  let state := createPaletteState codeUnitCompare testSkills None [] in
  let s' := fst (handlePaletteInput codeUnitCompare state (Data "f")) in
  query s' = "f" /\ allSkills s' = allSkills state /\ recents s' = recents state /\
  (Js.trim "f" <> "" ->
   displayItems s' = flatList (filterSkills (allSkills state) "f") /\
   forall ns, ~ In (Header ns) (displayItems s')) /\
  (Js.trim "f" = "" ->
   displayItems s' = buildDisplayList codeUnitCompare (allSkills state) (recents state)).
Proof.
  intros state.
  apply (display_mode_switch codeUnitCompare state (Data "f") "f").
  reflexivity.
Defined.

Lemma cursor_invariant_witness :
  let s0 := createPaletteState codeUnitCompare testSkills None [] in
  let s1 := fst (handlePaletteInput codeUnitCompare s0 KeyDown) in
  let s2 := fst (handlePaletteInput codeUnitCompare s1 (Data "x")) in
  (existsb isSkill (displayItems s2) = true ->
   exists skill g, at_ (displayItems s2) (selectedIndex s2) = Some (Entry skill g)) /\
  (existsb isSkill (displayItems s2) = false -> selectedIndex s2 = 0) /\
  (forall ns, at_ (displayItems s2) (selectedIndex s2) <> Some (Header ns)).
Proof.
  intros s0 s1 s2.
  apply (cursor_invariant codeUnitCompare s2).
  apply reach_input. apply reach_input. apply reach_create.
Defined.

Lemma confirm_selects_or_unqueues_witness :
  let state := createPaletteState codeUnitCompare testSkills (Some "ad-creative") [] in
  let skill := mkSkill "ad-creative" "marketing" "Desc for ad-creative"
                 "/fake/ad-creative/SKILL.md" home in
  fst (handlePaletteInput codeUnitCompare state KeyReturn) = state /\
  (queuedSkillName state = Some (name skill) <->
   snd (handlePaletteInput codeUnitCompare state KeyReturn) = Some (unqueue skill)) /\
  (queuedSkillName state <> Some (name skill) <->
   snd (handlePaletteInput codeUnitCompare state KeyReturn) = Some (select skill)).
Proof.
  intros state skill.
  apply (confirm_selects_or_unqueues codeUnitCompare state skill "marketing").
  reflexivity.
Defined.

(** C6 as stated fails for the recent group: its entries follow the recents
    list, most recent first, not the alphabet. *)
Lemma recent_entries_not_alphabetical :
  let a := mkSkill "a" "x" "" "" home in
  let b := mkSkill "b" "x" "" "" home in
  let recents := [mkUsage "b" "x" 2 1; mkUsage "a" "x" 1 1] in
  let out := buildDisplayList codeUnitCompare [a; b] recents in
  out = [Header "recent"; Entry b "recent"; Entry a "recent"] /\
  ~ alphabetical codeUnitCompare (entriesOf "recent" out).
Proof.
  split; [reflexivity|].
  intros H. vm_compute in H.
  inversion H as [|? ? _ F]; subst.
  inversion F as [|? ? L _]; subst.
  vm_compute in L. now apply L.
Qed.

Lemma buildDisplayList_order_witness :
  let recents := [mkUsage "brave-search" "search" 1 1] in
  let out := buildDisplayList codeUnitCompare testSkills recents in
  exists groupsPart,
    out = (recentSection testSkills recents ++ groupsPart)%list /\
    (forall pre skill g post,
        out = (pre ++ Entry skill g :: post)%list -> In (Header g) pre) /\
    StronglySorted (nsOrder codeUnitCompare) (headersOf groupsPart) /\
    NoDup (headersOf groupsPart) /\
    (forall pre post,
        headersOf groupsPart = (pre ++ "other" :: post)%list -> post = []) /\
    (forall g, alphabetical codeUnitCompare (entriesOf g groupsPart)) /\
    entriesOf "recent" (recentSection testSkills recents)
    = catSome (map (fun r => find (fun s => (name s =? u_name r)%string) testSkills)
                 recents) /\
    headersOf (recentSection testSkills recents)
    = match entriesOf "recent" (recentSection testSkills recents) with
      | [] => []
      | _ => ["recent"]
      end.
Proof.
  intros recents.
  exact (buildDisplayList_order codeUnitCompare
           codeUnitCompare_total codeUnitCompare_trans testSkills recents).
Defined.

(** ** The assertions of the repository's tests *)

Example test_scoreMatch_exact : scoreMatch "fizzy-cli" "fizzy-cli" = 10000%Q.
Proof. reflexivity. Qed.

Example test_scoreMatch_starts_with : (5000 <= scoreMatch "fizzy" "fizzy-cli")%Q.
Proof. vm_compute. discriminate. Qed.

Example test_scoreMatch_substring :
  (1000 <= scoreMatch "fizzy" "pi-fizzy-triage" /\
   scoreMatch "fizzy" "pi-fizzy-triage" < 5000)%Q.
Proof. split; vm_compute; [discriminate | reflexivity]. Qed.

Example test_scoreMatch_no_match : scoreMatch "xyz" "fizzy-cli" = 0%Q.
Proof. reflexivity. Qed.

Example test_scoreMatch_boundary :
  (scoreMatch "cli" "aclient-tool" < scoreMatch "cli" "fizzy-cli")%Q.
Proof. vm_compute. reflexivity. Qed.

Example test_scoreMatch_fuzzy : (0 < scoreMatch "fzcli" "fizzy-cli")%Q.
Proof. vm_compute. reflexivity. Qed.

Example test_scoreMatch_scattered : scoreMatch "fc" "fizzy-cli" = 0%Q.
Proof. reflexivity. Qed.

Example test_filter_empty_query : filterSkills testSkills "" = testSkills.
Proof. reflexivity. Qed.

Example test_filter_namespace_prefix :
  map name (filterSkills testSkills "marketing:") = ["ad-creative"].
Proof. reflexivity. Qed.

Example test_palette_down :
  let state := createPaletteState codeUnitCompare testSkills None [] in
  selectedIndex state = 1 /\
  selectedIndex (fst (handlePaletteInput codeUnitCompare state KeyDown)) = 3 /\
  selectedIndex (fst (handlePaletteInput codeUnitCompare state KeyUp)) = 5.
Proof. repeat split; reflexivity. Qed.

Example test_palette_typing :
  let state := createPaletteState codeUnitCompare testSkills None [] in
  let s1 := fst (handlePaletteInput codeUnitCompare state (Data "f")) in
  let s2 := fst (handlePaletteInput codeUnitCompare s1 (Data "i")) in
  query s2 = "fi" /\
  displayItems s2 = flatList [nth 0 testSkills (mkSkill "" "" "" "" home)] /\
  query (fst (handlePaletteInput codeUnitCompare s2 KeyBackspace)) = "f".
Proof. repeat split; vm_compute; reflexivity. Qed.

Example test_palette_escape :
  snd (handlePaletteInput codeUnitCompare
         (createPaletteState codeUnitCompare testSkills None []) KeyEscape)
  = Some cancel.
Proof. reflexivity. Qed.

(** * Further properties *)

(** ** The reducer, input by input *)

Section ReducerMore.

Variable localeCompare : string -> string -> Z.

(** X1. An input never touches the catalog, the recents or the queued name.
    An action comes back only from Escape and Return, and then the state is
    left as it was; Escape always answers [cancel]. *)
Theorem handlePaletteInput_frame (state : PaletteRenderState) (input : Input) :
  let r := handlePaletteInput localeCompare state input in
  allSkills (fst r) = allSkills state /\
  recents (fst r) = recents state /\
  queuedSkillName (fst r) = queuedSkillName state /\
  (forall a, snd r = Some a ->
     fst r = state /\ (input = KeyEscape \/ input = KeyReturn) /\
     (a = cancel <-> input = KeyEscape)) /\
  (input = KeyEscape -> snd r = Some cancel).
Proof.
  assert (T : forall (st : PaletteRenderState) (a0 : PaletteAction),
             a0 <> cancel ->
             forall a, Some a0 = Some a ->
               st = st /\ (KeyReturn = KeyEscape \/ KeyReturn = KeyReturn) /\
               (a = cancel <-> KeyReturn = KeyEscape)).
  { intros st a0 N a [= <-]. repeat split; auto; intros; congruence. }
  cbv zeta. destruct input; cbn [handlePaletteInput].
  - cbn [fst snd]. repeat split; auto; intros; congruence.
  - destruct (at_ _ _) as [[|skill g]|]; cbn [fst snd];
      try (repeat split; auto; intros; discriminate).
    destruct (queuedSkillName state) as [q|] eqn:Q;
      [destruct (name skill =? q)%string|];
      cbn [fst snd]; (split; [|split; [|split; [|split]]]); auto;
      try discriminate; apply T; discriminate.
  - cbn [fst snd]. repeat split; auto; intros; discriminate.
  - cbn [fst snd]. repeat split; auto; intros; discriminate.
  - destruct (0 <? _)%nat; cbn [fst snd]; repeat split; auto; intros; discriminate.
  - destruct (printable data); cbn [fst snd]; repeat split; auto;
      intros; discriminate.
Qed.

Lemma updateFilter_render state :
  displayItems (updateFilter localeCompare state)
  = render localeCompare (allSkills state) (query state) (recents state).
Proof.
  unfold updateFilter, render. cbv zeta. cbn [displayItems].
  destruct (Js.isEmpty (Js.trim (query state))) eqn:B; simpl; auto.
  unfold filterSkills. now rewrite B.
Qed.

Lemma reachable_render (s : PaletteRenderState) :
  reachable localeCompare s ->
  displayItems s = render localeCompare (allSkills s) (query s) (recents s).
Proof.
  induction 1 as [skills queued rs | state input R IH].
  - reflexivity.
  - destruct input; cbn [handlePaletteInput]; auto.
    + destruct (at_ _ _) as [[|skill g]|]; auto.
      destruct (queuedSkillName state) as [q|]; auto.
      destruct (name skill =? q)%string; auto.
    + destruct (0 <? _)%nat; auto. cbn [fst].
      rewrite updateFilter_render. reflexivity.
    + destruct (printable data); auto. cbn [fst].
      rewrite updateFilter_render. reflexivity.
Qed.

(** X2. In every reachable state the display list is a function of the
    catalog, the query and the recents: the grouped list while the query is
    blank, the flat ranked list otherwise. *)
Theorem displayItems_is_render (s : PaletteRenderState) :
  reachable localeCompare s ->
  displayItems s = render localeCompare (allSkills s) (query s) (recents s).
Proof. apply reachable_render. Qed.

Lemma dropLast_append q c : Js.dropLast (q ++ String c "") = q.
Proof.
  induction q as [|d q IH]; simpl; auto.
  rewrite IH. destruct q; reflexivity.
Qed.

Lemma length_append_char q c : (0 <? String.length (q ++ String c ""))%nat = true.
Proof. destruct q; reflexivity. Qed.

(** X3. Typing a printable character and erasing it again gives back the
    query and, in a reachable state, the display list; the cursor is then
    where [createPaletteState] would put it, on the first entry. *)
Theorem type_then_erase (s : PaletteRenderState) (c : ascii) :
  reachable localeCompare s ->
  printable (String c "") = true ->
  let s1 := fst (handlePaletteInput localeCompare s (Data (String c ""))) in
  let s2 := fst (handlePaletteInput localeCompare s1 KeyBackspace) in
  query s1 = query s ++ String c "" /\
  query s2 = query s /\
  displayItems s2 = displayItems s /\
  selectedIndex s2
  = (if 0 <=? firstSkillIndex (displayItems s)
     then firstSkillIndex (displayItems s) else 0).
Proof.
  intros R P. cbv zeta. cbn [handlePaletteInput]. rewrite P.
  cbn [fst updateFilter setQuery query allSkills recents queuedSkillName
       displayItems selectedIndex].
  rewrite length_append_char, dropLast_append.
  cbn [fst updateFilter setQuery query allSkills recents queuedSkillName
       displayItems selectedIndex].
  pose proof (reachable_render s R) as D.
  assert (E : (if negb (Js.isEmpty (Js.trim (query s)))
               then map (fun skill => Entry skill (namespace skill))
                      (filterSkills (allSkills s) (query s))
               else buildDisplayList localeCompare
                      (filterSkills (allSkills s) (query s)) (recents s))
              = displayItems s).
  { rewrite D. unfold render, filterSkills.
    destruct (Js.isEmpty (Js.trim (query s))); reflexivity. }
  rewrite E. repeat split; reflexivity.
Qed.

End ReducerMore.

(** ** What the display list contains *)

Lemma mapGet_mapSet k k' v : forall m : Groups,
  mapGet k (mapSet k' v m) = if (k' =? k)%string then Some v else mapGet k m.
Proof.
  induction m as [|[k0 v0] m IH]; simpl.
  - destruct (k' =? k)%string; reflexivity.
  - destruct (String.eqb_spec k0 k') as [->|N]; simpl.
    + destruct (k' =? k)%string; reflexivity.
    + rewrite IH. destruct (String.eqb_spec k0 k) as [->|N'].
      * destruct (String.eqb_spec k' k); [congruence | reflexivity].
      * reflexivity.
Qed.

Lemma mapGet_fold recents k : forall skills (m : Groups),
  mapGet k (fold_left (groupStep (map u_name recents)) skills m) =
  match mapGet k m, filter (inGroup recents k) skills with
  | Some l, f => Some (l ++ f)%list
  | None, [] => None
  | None, f => Some f
  end.
Proof.
  induction skills as [|s skills IH]; intros m; cbn [fold_left filter].
  - destruct (mapGet k m); [now rewrite app_nil_r | reflexivity].
  - rewrite IH. unfold groupStep.
    assert (G : inGroup recents k s
                = negb (existsb (String.eqb (name s)) (map u_name recents))
                  && (namespace s =? k)%string) by reflexivity.
    rewrite G.
    destruct (existsb (String.eqb (name s)) (map u_name recents)); cbn [negb andb].
    + reflexivity.
    + rewrite mapGet_mapSet.
      destruct (String.eqb_spec (namespace s) k) as [->|N].
      * destruct (mapGet k m) as [l|]; cbn [app].
        -- now rewrite <- app_assoc.
        -- reflexivity.
      * reflexivity.
Qed.

Lemma mapGet_groupsOf skills recents k :
  match mapGet k (groupsOf skills recents) with
  | Some l => l
  | None => []
  end = filter (inGroup recents k) skills.
Proof.
  unfold groupsOf. rewrite mapGet_fold. cbn [mapGet].
  destruct (filter (inGroup recents k) skills); reflexivity.
Qed.

Lemma mapSet_perm k s : forall m : Groups,
  Permutation
    (flat_map snd
       (mapSet k (match mapGet k m with Some l => l | None => [] end ++ [s])%list m))
    (flat_map snd m ++ [s])%list.
Proof.
  induction m as [|[k0 v0] m IH]; cbn [mapGet mapSet].
  - reflexivity.
  - destruct (k0 =? k)%string; cbn [flat_map snd].
    + rewrite <- !app_assoc. apply Permutation_app_head. apply Permutation_app_comm.
    + rewrite IH. now rewrite app_assoc.
Qed.

Lemma groups_perm recents : forall skills (m : Groups),
  Permutation (flat_map snd (fold_left (groupStep (map u_name recents)) skills m))
    (flat_map snd m ++ filter (fun s => negb (isRecent recents s)) skills)%list.
Proof.
  induction skills as [|s skills IH]; intros m; cbn [fold_left filter].
  - now rewrite app_nil_r.
  - rewrite IH. unfold groupStep.
    change (isRecent recents s)
      with (existsb (String.eqb (name s)) (map u_name recents)).
    destruct (existsb (String.eqb (name s)) (map u_name recents)); cbn [negb].
    + reflexivity.
    + rewrite mapSet_perm. rewrite <- app_assoc. reflexivity.
Qed.

Lemma flat_map_perm_pointwise {A B} (f g : A -> list B) l :
  (forall x, Permutation (f x) (g x)) ->
  Permutation (flat_map f l) (flat_map g l).
Proof.
  intros H. induction l; simpl; auto. now apply Permutation_app.
Qed.

Lemma flat_map_same {A B} (f g : A -> list B) l :
  (forall x, In x l -> f x = g x) -> flat_map f l = flat_map g l.
Proof.
  induction l as [|x l IH]; intros H; simpl; auto.
  rewrite (H x) by now left. f_equal. apply IH. intros y Hy. apply H. now right.
Qed.

Lemma flat_map_keys : forall m : Groups,
  NoDup (map fst m) ->
  flat_map (fun k => match mapGet k m with Some l => l | None => [] end) (map fst m)
  = flat_map snd m.
Proof.
  induction m as [|[k v] m IH]; intros N; [reflexivity|].
  inversion N as [|? ? NI N']; subst.
  cbn [map fst flat_map mapGet snd]. rewrite String.eqb_refl. f_equal.
  rewrite <- IH by assumption.
  apply flat_map_same. intros k' I.
  destruct (String.eqb_spec k k'); [congruence | reflexivity].
Qed.

Section DisplayContent.

Variable localeCompare : string -> string -> Z.

Lemma allEntries_app a b :
  allEntries (a ++ b)%list = (allEntries a ++ allEntries b)%list.
Proof. unfold allEntries. apply flat_map_app. Qed.

Lemma allEntries_block g (l : list Skill) :
  allEntries (Header g :: map (fun skill => Entry skill g) l) = l.
Proof.
  unfold allEntries. cbn [flat_map app].
  induction l as [|s l IH]; simpl; congruence.
Qed.

Lemma allEntries_groups groups l :
  allEntries (flat_map (groupItems localeCompare groups) l)
  = flat_map (fun ns => sortBy (nameBefore localeCompare)
                          (match mapGet ns groups with Some v => v | None => [] end)) l.
Proof.
  induction l as [|ns l IH]; [reflexivity|].
  cbn [flat_map]. rewrite allEntries_app, IH. f_equal.
  apply allEntries_block.
Qed.

Lemma recentSection_cases skills recents :
  let resolved :=
    catSome (map (fun r => find (fun s => (name s =? u_name r)%string) skills) recents) in
  recentSection skills recents
  = match resolved with
    | [] => []
    | _ => Header "recent" :: map (fun skill => Entry skill "recent") resolved
    end.
Proof.
  cbv zeta. unfold recentSection.
  destruct recents as [|r recents]; [reflexivity|].
  change (0 <? length (r :: recents))%nat with true. cbv iota.
  destruct (catSome _); reflexivity.
Qed.

Lemma allEntries_recent skills recents :
  allEntries (recentSection skills recents)
  = catSome (map (fun r => find (fun s => (name s =? u_name r)%string) skills) recents).
Proof.
  rewrite recentSection_cases.
  destruct (catSome _) as [|s l]; [reflexivity|]. apply allEntries_block.
Qed.

Lemma groups_entries_perm skills recents :
  Permutation
    (allEntries (flat_map (groupItems localeCompare (groupsOf skills recents))
                   (sortedNs localeCompare (groupsOf skills recents))))
    (filter (fun s => negb (isRecent recents s)) skills).
Proof.
  rewrite allEntries_groups.
  rewrite (flat_map_perm_pointwise _
             (fun ns => match mapGet ns (groupsOf skills recents) with
                        | Some v => v
                        | None => []
                        end))
    by (intros x; apply sortBy_perm).
  unfold sortedNs.
  rewrite (Permutation_flat_map _ (sortBy_perm (nsBefore localeCompare) _)).
  rewrite flat_map_keys by apply groupsOf_ok.
  unfold groupsOf. rewrite groups_perm. reflexivity.
Qed.

Lemma resolved_in_catalog skills recents s :
  In s (catSome (map (fun r => find (fun s => (name s =? u_name r)%string) skills)
                   recents)) ->
  In s skills /\ isRecent recents s = true.
Proof.
  unfold catSome. rewrite flat_map_concat_map, map_map. intros H.
  apply in_concat in H. destruct H as (l & L & I).
  apply in_map_iff in L. destruct L as (r & <- & R).
  destruct (find _ skills) as [s'|] eqn:F; [|contradiction].
  destruct I as [<-|[]]. apply find_some in F. destruct F as [F1 F2].
  split; auto. unfold isRecent. apply existsb_exists.
  exists (u_name r). split; [now apply in_map | exact F2].
Qed.

(** X4. The grouped list shows catalog skills only, and every skill whose
    name is not among the recents exactly as often as the catalog holds it;
    the skills of the recent section are the first catalog skill of each
    recents name, in the order of the recents. *)
Theorem buildDisplayList_contents (skills : list Skill) (recents : list SkillUsage) :
  let out := buildDisplayList localeCompare skills recents in
  let resolved :=
    catSome (map (fun r => find (fun s => (name s =? u_name r)%string) skills) recents) in
  exists grouped,
    allEntries out = (resolved ++ grouped)%list /\
    Permutation grouped (filter (fun s => negb (isRecent recents s)) skills) /\
    (forall s, In s resolved -> In s skills /\ isRecent recents s = true) /\
    (forall s, In s (allEntries out) -> In s skills).
Proof.
  intros out resolved.
  exists (allEntries (flat_map (groupItems localeCompare (groupsOf skills recents))
                        (sortedNs localeCompare (groupsOf skills recents)))).
  pose proof (groups_entries_perm skills recents) as P.
  assert (A : allEntries out = (resolved ++ allEntries
                (flat_map (groupItems localeCompare (groupsOf skills recents))
                   (sortedNs localeCompare (groupsOf skills recents))))%list).
  { unfold out, buildDisplayList. cbv zeta.
    now rewrite allEntries_app, allEntries_recent. }
  split; [exact A|]. split; [exact P|]. split.
  - intros s. apply resolved_in_catalog.
  - intros s. rewrite A, in_app_iff. intros [H|H].
    + now apply resolved_in_catalog in H.
    + apply (Permutation_in _ P) in H. apply filter_In in H. tauto.
Qed.

End DisplayContent.

Section DisplayContentMore.

Variable localeCompare : string -> string -> Z.

Lemma entriesOf_labelled g h (l : list Skill) :
  entriesOf g (Header h :: map (fun skill => Entry skill h) l)
  = if (h =? g)%string then l else [].
Proof.
  unfold entriesOf. cbn [flat_map app].
  induction l as [|s l IH]; simpl.
  - now destruct (h =? g)%string.
  - rewrite IH. now destruct (h =? g)%string.
Qed.

Lemma entriesOf_present g groups l :
  NoDup l -> In g l ->
  entriesOf g (flat_map (groupItems localeCompare groups) l)
  = sortBy (nameBefore localeCompare)
      (match mapGet g groups with Some v => v | None => [] end).
Proof.
  induction l as [|ns l IH]; intros N I; [contradiction|].
  inversion N as [|? ? NI N']; subst. cbn [flat_map].
  rewrite entriesOf_app, entriesOf_block.
  destruct (String.eqb_spec ns g) as [->|NE].
  - rewrite entriesOf_absent by assumption. apply app_nil_r.
  - destruct I as [E|I]; [contradiction|]. now apply IH.
Qed.

(** X5. Under the header of a namespace stand the catalog skills of that
    namespace whose name is not among the recents, sorted by name from
    catalog order; under ["recent"] the resolved recents come first. *)
Theorem buildDisplayList_groups (skills : list Skill) (recents : list SkillUsage)
    (g : string) :
  entriesOf g (buildDisplayList localeCompare skills recents)
  = ((if ("recent" =? g)%string
      then catSome (map (fun r => find (fun s => (name s =? u_name r)%string) skills)
                      recents)
      else [])
     ++ sortBy (nameBefore localeCompare) (filter (inGroup recents g) skills))%list.
Proof.
  unfold buildDisplayList. cbv zeta. rewrite entriesOf_app. f_equal.
  - rewrite recentSection_cases.
    destruct (catSome _) as [|s l] eqn:E.
    + now destruct ("recent" =? g)%string.
    + apply entriesOf_labelled.
  - rewrite <- mapGet_groupsOf.
    destruct (in_dec string_dec g (sortedNs localeCompare (groupsOf skills recents)))
      as [I|I].
    + apply entriesOf_present; auto.
      eapply Permutation_NoDup; [symmetry; apply sortBy_perm|].
      apply groupsOf_ok.
    + rewrite entriesOf_absent by assumption.
      destruct (mapGet g (groupsOf skills recents)) as [v|] eqn:G; [|reflexivity].
      exfalso. apply I. apply sortBy_In. apply mapGet_In in G.
      apply in_map_iff. exists (g, v). auto.
Qed.

Lemma headersFollowed_entries g (l : list Skill) rest :
  headersFollowed (map (fun skill => Entry skill g) l ++ rest)%list
  <-> headersFollowed rest.
Proof. induction l as [|s l IH]; simpl; tauto. Qed.

Lemma headersFollowed_block g (l : list Skill) rest :
  l <> [] -> headersFollowed rest ->
  headersFollowed ((Header g :: map (fun skill => Entry skill g) l) ++ rest)%list.
Proof.
  intros N H. destruct l as [|s l]; [congruence|].
  cbn [map app headersFollowed]. split; [reflexivity|].
  now apply (headersFollowed_entries g l rest).
Qed.

Lemma headersFollowed_groups groups l :
  (forall k v, In (k, v) groups -> v <> []) ->
  (forall ns, In ns l -> In ns (map fst groups)) ->
  headersFollowed (flat_map (groupItems localeCompare groups) l).
Proof.
  intros V. induction l as [|ns l IH]; intros K; simpl; auto.
  apply headersFollowed_block.
  - apply sortBy_nonempty.
    destruct (mapGet_key ns groups) as (v & G); [apply K; now left|].
    rewrite G. apply mapGet_In in G. eapply V; eauto.
  - apply IH. intros x Hx. apply K. now right.
Qed.

Lemma buildDisplayList_headersFollowed skills recents :
  headersFollowed (buildDisplayList localeCompare skills recents).
Proof.
  unfold buildDisplayList. cbv zeta.
  assert (G : headersFollowed
                (flat_map (groupItems localeCompare (groupsOf skills recents))
                   (sortedNs localeCompare (groupsOf skills recents)))).
  { apply headersFollowed_groups.
    - apply groupsOf_ok.
    - intros ns. apply sortBy_In. }
  rewrite recentSection_cases.
  destruct (catSome _) as [|s l]; [exact G|].
  apply headersFollowed_block; [discriminate | exact G].
Qed.

Lemma headersFollowed_split items : forall pre g post,
  headersFollowed items -> items = (pre ++ Header g :: post)%list ->
  exists skill post', post = Entry skill g :: post'.
Proof.
  induction items as [|x items IH]; intros pre g post H E.
  - destruct pre; discriminate.
  - destruct pre as [|y pre]; simpl in E; injection E as -> E.
    + subst items. simpl in H. destruct H as [H _].
      destruct post as [|[h|s h] post]; try contradiction. subst h. eauto.
    + apply (IH pre g post); auto.
      destruct y; simpl in H; tauto.
Qed.

(** X6. No header stands alone: in the grouped list every header is
    directly followed by an entry of its own group, so a group is never
    empty and the list never ends with a header. *)
Theorem buildDisplayList_no_empty_group (skills : list Skill)
    (recents : list SkillUsage) pre g post :
  buildDisplayList localeCompare skills recents = (pre ++ Header g :: post)%list ->
  exists skill post', post = Entry skill g :: post'.
Proof.
  apply headersFollowed_split. apply buildDisplayList_headersFollowed.
Qed.

Lemma buildDisplayList_entries_in skills recents s :
  In s (allEntries (buildDisplayList localeCompare skills recents)) -> In s skills.
Proof.
  unfold buildDisplayList. cbv zeta.
  rewrite allEntries_app, allEntries_recent, in_app_iff. intros [H|H].
  - now apply resolved_in_catalog in H.
  - apply (Permutation_in _ (groups_entries_perm localeCompare skills recents)) in H.
    apply filter_In in H. tauto.
Qed.

Lemma allEntries_flatList l : allEntries (flatList l) = l.
Proof. induction l as [|s l IH]; simpl; congruence. Qed.

Lemma render_entries_in skills q rs s :
  In s (allEntries (render localeCompare skills q rs)) -> In s skills.
Proof.
  unfold render. destruct (Js.isEmpty (Js.trim q)).
  - apply buildDisplayList_entries_in.
  - rewrite allEntries_flatList.
    destruct (filterSkills_selects skills q) as (p & P).
    intros H. apply (Permutation_in _ P) in H. apply filter_In in H. tauto.
Qed.

Lemma reachable_cursorOk s : reachable localeCompare s -> cursorOk s.
Proof.
  induction 1; [apply createPaletteState_ok | now apply handlePaletteInput_ok].
Qed.

Lemma entry_in_allEntries items i skill g :
  at_ items i = Some (Entry skill g) -> In skill (allEntries items).
Proof.
  unfold at_. destruct (i <? 0); [discriminate|]. intros H.
  apply nth_error_In in H. unfold allEntries. apply in_flat_map.
  exists (Entry skill g). split; [assumption | now left].
Qed.

(** X7. In a reachable state the Return key answers with a skill of the
    catalog, selected or unqueued, as soon as the display list is not
    empty; it answers nothing exactly when nothing is displayed. *)
Theorem confirm_returns_catalog_skill (s : PaletteRenderState) :
  reachable localeCompare s ->
  match snd (handlePaletteInput localeCompare s KeyReturn) with
  | Some (select skill) | Some (unqueue skill) =>
      In skill (allSkills s) /\ displayItems s <> []
  | Some cancel => False
  | None => displayItems s = []
  end.
Proof.
  intros R. pose proof (reachable_cursorOk s R) as [C E].
  pose proof (reachable_render localeCompare s R) as D.
  cbn [handlePaletteInput].
  destruct (existsb isSkill (displayItems s)) eqn:X.
  - destruct C as (skill & g & A). rewrite A.
    assert (I : In skill (allSkills s)).
    { apply (render_entries_in _ (query s) (recents s)). rewrite <- D.
      eapply entry_in_allEntries; eauto. }
    assert (N : displayItems s <> []).
    { intros Z. rewrite Z in X. discriminate. }
    destruct (queuedSkillName s) as [q|]; [destruct (name skill =? q)%string|];
      cbn [snd]; auto.
  - rewrite (E eq_refl). rewrite C. reflexivity.
Qed.

End DisplayContentMore.

(** ** A catalog and recents with unique names *)

Lemma NoDup_map_filter {A B} (f : A -> B) (p : A -> bool) l :
  NoDup (map f l) -> NoDup (map f (filter p l)).
Proof.
  induction l as [|x l IH]; simpl; auto. intros N.
  inversion N as [|? ? NI N']; subst.
  destruct (p x); simpl; auto. constructor; auto.
  intros H. apply NI. apply in_map_iff in H. destruct H as (y & E & I).
  apply filter_In in I. rewrite <- E. apply in_map. tauto.
Qed.

Lemma NoDup_map_injective {A B} (f : A -> B) l a b :
  NoDup (map f l) -> In a l -> In b l -> f a = f b -> a = b.
Proof.
  induction l as [|x l IH]; simpl; [contradiction|]. intros N Ia Ib E.
  inversion N as [|? ? NI N']; subst.
  destruct Ia as [->|Ia], Ib as [->|Ib]; auto.
  - exfalso. apply NI. rewrite E. now apply in_map.
  - exfalso. apply NI. rewrite <- E. now apply in_map.
Qed.

Lemma filter_partition_perm {A} (p : A -> bool) l :
  Permutation (filter p l ++ filter (fun x => negb (p x)) l)%list l.
Proof.
  induction l as [|x l IH]; simpl; auto.
  destruct (p x); simpl.
  - now constructor.
  - rewrite <- Permutation_middle. now constructor.
Qed.

Lemma resolved_names skills recents :
  map name
    (catSome (map (fun r => find (fun s => (name s =? u_name r)%string) skills) recents))
  = map u_name
      (filter (fun r => match find (fun s => (name s =? u_name r)%string) skills with
                        | Some _ => true
                        | None => false
                        end) recents).
Proof.
  induction recents as [|r recents IH]; [reflexivity|].
  cbn [map catSome flat_map filter]. fold (@catSome Skill).
  destruct (find _ skills) as [s|] eqn:F.
  - cbn [app map]. apply find_some in F. destruct F as [_ F].
    apply String.eqb_eq in F. rewrite F. f_equal. exact IH.
  - exact IH.
Qed.

Lemma resolved_complete skills recents s :
  NoDup (map name skills) -> In s skills -> isRecent recents s = true ->
  In s (catSome (map (fun r => find (fun s => (name s =? u_name r)%string) skills)
                   recents)).
Proof.
  intros N I R. unfold isRecent in R. apply existsb_exists in R.
  destruct R as (n & Hn & E). apply String.eqb_eq in E.
  apply in_map_iff in Hn. destruct Hn as (r & <- & Hr).
  unfold catSome. apply in_flat_map.
  exists (find (fun s0 => (name s0 =? u_name r)%string) skills).
  split; [apply in_map_iff; exists r; split; [reflexivity | assumption]|].
  destruct (find _ skills) as [s'|] eqn:F.
  - left. apply find_some in F. destruct F as [F1 F2]. apply String.eqb_eq in F2.
    apply (NoDup_map_injective name skills); auto. congruence.
  - exfalso. apply (find_none _ _ F) in I. simpl in I.
    rewrite E, String.eqb_refl in I. discriminate.
Qed.

(** X8. When no two catalog skills share a name and no two recents do, the
    grouped list shows every skill of the catalog exactly once. *)
Theorem buildDisplayList_each_skill_once (localeCompare : string -> string -> Z)
    (skills : list Skill) (recents : list SkillUsage) :
  NoDup (map name skills) ->
  NoDup (map u_name recents) ->
  Permutation (allEntries (buildDisplayList localeCompare skills recents)) skills.
Proof.
  intros NS NR. unfold buildDisplayList. cbv zeta.
  rewrite allEntries_app, allEntries_recent, groups_entries_perm.
  etransitivity; [|apply (filter_partition_perm (isRecent recents) skills)].
  apply Permutation_app_tail.
  apply NoDup_Permutation.
  - apply (NoDup_map_inv name). rewrite resolved_names.
    now apply NoDup_map_filter.
  - apply NoDup_filter. now apply (NoDup_map_inv name).
  - intros s. rewrite filter_In. split.
    + apply resolved_in_catalog.
    + intros [I R]. now apply resolved_complete.
Qed.

Lemma buildDisplayList_each_skill_once_witness :
  Permutation
    (allEntries (buildDisplayList codeUnitCompare testSkills
                   [mkUsage "brave-search" "search" 1 1]))
    testSkills.
Proof.
  apply (buildDisplayList_each_skill_once codeUnitCompare testSkills
           [mkUsage "brave-search" "search" 1 1]).
  - repeat constructor; simpl; intuition discriminate.
  - repeat constructor; simpl; intuition discriminate.
Defined.

(** ** Moving the cursor *)

Lemma isEntryAt_nat items (k : nat) :
  isEntryAt items (Z.of_nat k)
  = match nth_error items k with Some it => isSkill it | None => false end.
Proof. unfold isEntryAt. now rewrite at_nat. Qed.

Lemma isEntryAt_range items k :
  isEntryAt items k = true -> 0 <= k < Z.of_nat (length items).
Proof.
  unfold isEntryAt, at_. destruct (Z.ltb_spec k 0); [discriminate|].
  destruct (nth_error items (Z.to_nat k)) eqn:N; [|discriminate].
  intros _. assert (Z.to_nat k < length items)%nat
    by (apply nth_error_Some; congruence). lia.
Qed.

Lemma isEntryAt_exists items k :
  isEntryAt items k = true -> existsb isSkill items = true.
Proof.
  unfold isEntryAt, at_. destruct (k <? 0); [discriminate|].
  destruct (nth_error items (Z.to_nat k)) as [it|] eqn:N; [|discriminate].
  intros S. apply existsb_exists. exists it. split; auto.
  eapply nth_error_In; eauto.
Qed.

Lemma scanUp_spec l : forall idx,
  match scanUp l idx with
  | Some j =>
      exists k x, j = idx + Z.of_nat k /\ nth_error l k = Some x /\ isSkill x = true /\
                  forall k' x', (k' < k)%nat -> nth_error l k' = Some x' ->
                                isSkill x' = false
  | None => forall k x, nth_error l k = Some x -> isSkill x = false
  end.
Proof.
  induction l as [|y l IH]; intros idx; simpl.
  - intros [|k] x; discriminate.
  - destruct (isSkill y) eqn:P.
    + exists 0%nat, y. repeat split; auto; [lia|]. intros k' x' L. lia.
    + specialize (IH (idx + 1)). destruct (scanUp l (idx + 1)) as [j|].
      * destruct IH as (k & x & -> & N & Px & M).
        exists (S k), x. repeat split; auto; [lia|].
        intros [|k'] x' L; simpl; [congruence|]. apply M. lia.
      * intros [|k] x; simpl; [congruence | apply IH].
Qed.

Lemma scanDown_spec items : forall n,
  match scanDown items n with
  | Some j =>
      0 <= j < Z.of_nat n /\ isEntryAt items j = true /\
      forall k, j < k < Z.of_nat n -> isEntryAt items k = false
  | None => forall k, 0 <= k < Z.of_nat n -> isEntryAt items k = false
  end.
Proof.
  induction n as [|n IH]; cbn [scanDown].
  - intros k L. lia.
  - assert (Step : forall k, isEntryAt items (Z.of_nat n) = false ->
             (Z.of_nat n < k < Z.of_nat (S n) -> isEntryAt items k = false) /\
             ((forall k0, 0 <= k0 < Z.of_nat n -> isEntryAt items k0 = false) ->
              0 <= k < Z.of_nat (S n) -> isEntryAt items k = false)).
    { intros k H. split; [lia|]. intros A L.
      destruct (Z.eq_dec k (Z.of_nat n)) as [->|NE]; auto. apply A. lia. }
    pose proof (isEntryAt_nat items n) as EN.
    destruct (nth_error items n) as [it|] eqn:N.
    + destruct (isSkill it) eqn:P.
      * repeat split; try lia; auto.
      * destruct (scanDown items n) as [j|].
        -- destruct IH as (R & Ej & M). repeat split; try lia; auto.
           intros k L. destruct (Z.eq_dec k (Z.of_nat n)) as [->|NE]; auto.
           apply M. lia.
        -- intros k L. now apply (Step k EN).
    + destruct (scanDown items n) as [j|].
      * destruct IH as (R & Ej & M). repeat split; try lia; auto.
        intros k L. destruct (Z.eq_dec k (Z.of_nat n)) as [->|NE]; auto.
        apply M. lia.
      * intros k L. now apply (Step k EN).
Qed.

Lemma findIndexFrom_first {A} (p : A -> bool) l : forall i,
  existsb p l = true ->
  exists k x, findIndexFrom p l i = i + Z.of_nat k /\
              nth_error l k = Some x /\ p x = true /\
              forall k' x', (k' < k)%nat -> nth_error l k' = Some x' -> p x' = false.
Proof.
  induction l as [|y l IH]; intros i; simpl; [discriminate|].
  destruct (p y) eqn:P; simpl.
  - intros _. exists 0%nat, y. repeat split; auto; [lia|]. intros k' x' L. lia.
  - intros E. destruct (IH (i + 1) E) as (k & x & -> & N & Px & M).
    exists (S k), x. repeat split; auto; [lia|].
    intros [|k'] x' L; simpl; [congruence|]. apply M. lia.
Qed.

Lemma firstSkillIndex_first items :
  existsb isSkill items = true ->
  isEntryAt items (firstSkillIndex items) = true /\
  forall k, k < firstSkillIndex items -> isEntryAt items k = false.
Proof.
  intros E. unfold firstSkillIndex, findIndex.
  destruct (findIndexFrom_first isSkill items 0 E) as (k & x & -> & N & P & M).
  simpl. split.
  - rewrite isEntryAt_nat, N. exact P.
  - intros k' L. destruct (isEntryAt items k') eqn:X; auto.
    apply isEntryAt_range in X as R.
    replace k' with (Z.of_nat (Z.to_nat k')) in X by lia.
    rewrite isEntryAt_nat in X.
    destruct (nth_error items (Z.to_nat k')) as [x'|] eqn:N'; [|discriminate].
    rewrite (M (Z.to_nat k') x') in X; [discriminate | lia | assumption].
Qed.

Lemma scanUp_items items idx :
  0 <= idx ->
  match scanUp (skipn (Z.to_nat idx) items) idx with
  | Some j => idx <= j /\ isEntryAt items j = true /\
              forall k, idx <= k < j -> isEntryAt items k = false
  | None => forall k, idx <= k -> isEntryAt items k = false
  end.
Proof.
  intros I. pose proof (scanUp_spec (skipn (Z.to_nat idx) items) idx) as S.
  assert (T : forall k, idx <= k ->
            isEntryAt items k
            = match nth_error (skipn (Z.to_nat idx) items) (Z.to_nat (k - idx)) with
              | Some it => isSkill it
              | None => false
              end).
  { intros k L. rewrite nth_error_skipn.
    replace (Z.to_nat idx + Z.to_nat (k - idx))%nat with (Z.to_nat k) by lia.
    replace k with (Z.of_nat (Z.to_nat k)) at 1 by lia. apply isEntryAt_nat. }
  destruct (scanUp _ idx) as [j|].
  - destruct S as (k & x & -> & N & P & M). split; [lia|]. split.
    + rewrite T by lia. replace (Z.to_nat (idx + Z.of_nat k - idx)) with k by lia.
      now rewrite N.
    + intros k' L. rewrite T by lia.
      destruct (nth_error _ (Z.to_nat (k' - idx))) as [x'|] eqn:N'; auto.
      apply (M (Z.to_nat (k' - idx))); [lia | assumption].
  - intros k L. rewrite T by assumption.
    destruct (nth_error _ _) as [x'|] eqn:N'; auto. eapply S; eauto.
Qed.

Lemma nextSkillIndex_down_spec (items : list DisplayItem) (from : Z) :
  existsb isSkill items = true ->
  let j := nextSkillIndex items from Down in
  isEntryAt items j = true /\
  ((from < j /\ forall k, from < k < j -> isEntryAt items k = false) \/
   (j <= from /\ (forall k, from < k -> isEntryAt items k = false) /\
    forall k, k < j -> isEntryAt items k = false)).
Proof.
  intros E. cbv zeta. unfold nextSkillIndex. cbv zeta. cbn [step].
  destruct (firstSkillIndex_first items E) as [F1 F2].
  apply isEntryAt_range in F1 as FR.
  destruct (Z.leb_spec 0 (firstSkillIndex items)) as [_|]; [|lia].
  destruct (Z.leb_spec 0 (from + 1)) as [L0|L0]; cbn [andb].
  - destruct (Z.ltb_spec (from + 1) (Z.of_nat (length items))) as [L1|L1].
    + pose proof (scanUp_items items (from + 1) L0) as S.
      destruct (scanUp _ (from + 1)) as [j|].
      * destruct S as (A & B & C). split; auto. left. split; [lia|].
        intros k K. apply C. lia.
      * split; auto. right. split; [|split; auto].
        -- destruct (Z.le_gt_cases (firstSkillIndex items) from); auto.
           rewrite S in F1 by lia. discriminate.
        -- intros k K. apply S. lia.
    + split; auto. right. split; [lia|]. split; auto.
      intros k K. destruct (isEntryAt items k) eqn:X; auto.
      apply isEntryAt_range in X. lia.
  - split; auto. left. split; [lia|]. intros k K. apply F2. lia.
Qed.

(** X9. Move-next: with an entry in the list, [nextSkillIndex] going down
    lands on the nearest entry after [from]; when no entry comes after
    [from] it wraps to the first entry of the list. *)
Theorem nextSkillIndex_down (items : list DisplayItem) (from : Z) :
  existsb isSkill items = true ->
  let j := nextSkillIndex items from Down in
  isEntryAt items j = true /\
  ((from < j /\ forall k, from < k < j -> isEntryAt items k = false) \/
   (j <= from /\ (forall k, from < k -> isEntryAt items k = false) /\
    forall k, k < j -> isEntryAt items k = false)).
Proof. apply nextSkillIndex_down_spec. Qed.

Lemma nextSkillIndex_up_spec (items : list DisplayItem) (from : Z) :
  existsb isSkill items = true ->
  let j := nextSkillIndex items from Up in
  isEntryAt items j = true /\
  ((j < from /\ forall k, j < k < from -> isEntryAt items k = false) \/
   (from <= j /\ (forall k, k < from -> isEntryAt items k = false) /\
    forall k, j < k -> isEntryAt items k = false)).
Proof.
  intros E. cbv zeta. unfold nextSkillIndex. cbv zeta. cbn [step].
  pose proof (scanDown_spec items (length items)) as W.
  assert (Last : exists j, scanDown items (length items) = Some j /\
                   isEntryAt items j = true /\
                   forall k, j < k -> isEntryAt items k = false).
  { destruct (scanDown items (length items)) as [j|] eqn:D.
    - destruct W as (R & Ej & M). exists j. repeat split; auto.
      intros k K. destruct (isEntryAt items k) eqn:X; auto.
      apply isEntryAt_range in X as XR. rewrite M in X by lia. discriminate.
    - apply scanDown_all_none in D. congruence. }
  destruct Last as (jl & DL & EL & ML).
  apply isEntryAt_range in EL as LR.
  assert (Before : forall k, k < 0 -> isEntryAt items k = false).
  { intros k K. destruct (isEntryAt items k) eqn:X; auto.
    apply isEntryAt_range in X. lia. }
  destruct (Z.leb_spec 0 (from + -1)) as [L0|L0]; cbn [andb].
  - destruct (Z.ltb_spec (from + -1) (Z.of_nat (length items))) as [L1|L1].
    + pose proof (scanDown_spec items (S (Z.to_nat (from + -1)))) as SD.
      destruct (scanDown items (S (Z.to_nat (from + -1)))) as [j|].
      * destruct SD as (A & B & C). split; auto. left. split; [lia|].
        intros k K. apply C. lia.
      * rewrite DL. split; auto. right. split; [|split; auto].
        -- destruct (Z.le_gt_cases from jl); auto.
           rewrite SD in EL by lia. discriminate.
        -- intros k K. destruct (Z.lt_ge_cases k 0); [now apply Before|].
           apply SD. lia.
    + rewrite DL. split; auto. left. split; [lia|]. intros k K. apply ML. lia.
  - rewrite DL. split; auto. right. split; [lia|]. split; auto.
    intros k K. apply Before. lia.
Qed.

(** X10. Move-previous: with an entry in the list, [nextSkillIndex] going
    up lands on the nearest entry before [from]; when no entry comes before
    [from] it wraps to the last entry of the list. *)
Theorem nextSkillIndex_up (items : list DisplayItem) (from : Z) :
  existsb isSkill items = true ->
  let j := nextSkillIndex items from Up in
  isEntryAt items j = true /\
  ((j < from /\ forall k, j < k < from -> isEntryAt items k = false) \/
   (from <= j /\ (forall k, k < from -> isEntryAt items k = false) /\
    forall k, j < k -> isEntryAt items k = false)).
Proof. apply nextSkillIndex_up_spec. Qed.

(** X11. Move-next and Move-previous undo each other: from an entry, one
    step down and one step up, or one step up and one step down, lead back
    to the same entry, also across the wrap. *)
Theorem navigation_round_trip (items : list DisplayItem) (i : Z) :
  isEntryAt items i = true ->
  nextSkillIndex items (nextSkillIndex items i Down) Up = i /\
  nextSkillIndex items (nextSkillIndex items i Up) Down = i.
Proof.
  intros Ei. pose proof (isEntryAt_exists _ _ Ei) as E.
  assert (No : forall k, isEntryAt items k = false -> isEntryAt items k = true -> False)
    by (intros k H1 H2; congruence).
  split.
  - destruct (nextSkillIndex_down_spec items i E) as (Ej & D).
    set (j := nextSkillIndex items i Down) in *.
    destruct (nextSkillIndex_up_spec items j E) as (Ek & U).
    set (k := nextSkillIndex items j Up) in *.
    destruct D as [(D1 & D2)|(D1 & D2 & D3)]; destruct U as [(U1 & U2)|(U1 & U2 & U3)].
    + destruct (Z.lt_trichotomy k i) as [L|[L|L]]; auto; exfalso.
      * apply (No i); [apply U2; lia | assumption].
      * apply (No k); [apply D2; lia | assumption].
    + exfalso. apply (No i); [apply U2; lia | assumption].
    + exfalso. apply (No k); [apply D3; lia | assumption].
    + destruct (Z.lt_trichotomy k i) as [L|[L|L]]; auto; exfalso.
      * apply (No i); [apply U3; lia | assumption].
      * apply (No k); [apply D2; lia | assumption].
  - destruct (nextSkillIndex_up_spec items i E) as (Ej & U).
    set (j := nextSkillIndex items i Up) in *.
    destruct (nextSkillIndex_down_spec items j E) as (Ek & D).
    set (k := nextSkillIndex items j Down) in *.
    destruct U as [(U1 & U2)|(U1 & U2 & U3)]; destruct D as [(D1 & D2)|(D1 & D2 & D3)].
    + destruct (Z.lt_trichotomy k i) as [L|[L|L]]; auto; exfalso.
      * apply (No k); [apply U2; lia | assumption].
      * apply (No i); [apply D2; lia | assumption].
    + exfalso. apply (No i); [apply D2; lia | assumption].
    + exfalso. apply (No k); [apply U3; lia | assumption].
    + destruct (Z.lt_trichotomy k i) as [L|[L|L]]; auto; exfalso.
      * apply (No k); [apply U2; lia | assumption].
      * apply (No i); [apply D3; lia | assumption].
Qed.

(** ** The recency list over time *)

Lemma recordUsage_shape state skill now :
  recentSkills (recordUsage state skill now)
  = mkUsage (name skill) (namespace skill) now
      (match find (fun r => (u_name r =? name skill)%string) (recentSkills state) with
       | Some r => count r
       | None => 0
       end + 1)
    :: firstn 7 (filter (fun r => negb (u_name r =? name skill)%string)
                   (recentSkills state)).
Proof.
  unfold recordUsage. cbv zeta. cbn [recentSkills]. unfold MAX_RECENTS.
  set (fresh := mkUsage _ _ _ _). set (others := filter _ _).
  destruct (Nat.ltb_spec 8 (length (fresh :: others))) as [L|L].
  - reflexivity.
  - simpl in L. f_equal. symmetry. apply firstn_all2. lia.
Qed.

Lemma firstn_incl {A} n : forall (l : list A) x, In x (firstn n l) -> In x l.
Proof.
  induction n as [|n IH]; intros [|y l] x; simpl; try tauto.
  intros [->|H]; auto.
Qed.

Lemma NoDup_firstn {A} n : forall l : list A, NoDup l -> NoDup (firstn n l).
Proof.
  induction n as [|n IH]; intros [|y l] N; simpl; try constructor.
  - inversion N; subst. intros H. apply firstn_incl in H. contradiction.
  - inversion N; subst. now apply IH.
Qed.

Lemma others_not_named n (rs : list SkillUsage) k r :
  In r (firstn k (filter (fun r => negb (u_name r =? n)%string) rs)) ->
  In r rs /\ u_name r <> n.
Proof.
  intros H. apply firstn_incl in H. apply filter_In in H. destruct H as [I H].
  split; auto. apply negb_true_iff in H. now apply String.eqb_neq.
Qed.

Lemma recordUsage_keeps_ok state skill now :
  usage_ok (recentSkills state) ->
  usage_ok (recentSkills (recordUsage state skill now)).
Proof.
  intros (N & _ & C). rewrite recordUsage_shape.
  set (others := filter _ (recentSkills state)).
  split; [|split].
  - cbn [map u_name]. constructor.
    + intros H. apply in_map_iff in H. destruct H as (r & E & I).
      apply others_not_named in I. tauto.
    + rewrite <- firstn_map. apply NoDup_firstn. now apply NoDup_map_filter.
  - cbn [length]. rewrite length_firstn. unfold MAX_RECENTS. lia.
  - constructor.
    + cbn [count]. destruct (find _ (recentSkills state)) as [r|] eqn:F; [|lia].
      apply find_some in F. destruct F as [I _].
      rewrite Forall_forall in C. specialize (C r I). lia.
    + apply Forall_forall. intros r I. apply others_not_named in I.
      rewrite Forall_forall in C. apply C. tauto.
Qed.

(** X12. [recordUsage] keeps the recency list well formed: one record per
    name, at most eight records, and no count below 1. *)
Theorem recordUsage_invariant (state : PaletteState) (skill : Skill) (now : Z) :
  usage_ok (recentSkills state) ->
  usage_ok (recentSkills (recordUsage state skill now)).
Proof. apply recordUsage_keeps_ok. Qed.

(** X13. Recording the same skill twice in a row leaves one record for it,
    at the front, counted once more and stamped with the second time; the
    records behind it are the same after both calls. A skill not seen
    before is counted 1, then 2. *)
Theorem recordUsage_twice (state : PaletteState) (skill : Skill) (t1 t2 : Z) :
  exists c rest,
    recentSkills (recordUsage state skill t1)
    = mkUsage (name skill) (namespace skill) t1 c :: rest /\
    recentSkills (recordUsage (recordUsage state skill t1) skill t2)
    = mkUsage (name skill) (namespace skill) t2 (c + 1) :: rest /\
    ((forall r, In r (recentSkills state) -> u_name r <> name skill) -> c = 1).
Proof.
  rewrite (recordUsage_shape (recordUsage state skill t1)).
  rewrite (recordUsage_shape state).
  set (c := match find _ (recentSkills state) with Some r => count r | None => 0 end + 1).
  set (rest := firstn 7 _).
  exists c, rest. split; [reflexivity|]. split.
  - cbn [find u_name]. rewrite String.eqb_refl. cbn [count filter u_name negb].
    rewrite String.eqb_refl. cbn [negb].
    assert (F : filter (fun r => negb (u_name r =? name skill)%string) rest = rest).
    { apply forallb_filter_id. apply forallb_forall. intros r I.
      apply others_not_named in I. destruct I as [_ I].
      apply negb_true_iff. now apply String.eqb_neq. }
    rewrite F. f_equal. apply firstn_all2.
    unfold rest. rewrite length_firstn. lia.
  - intros H. unfold c.
    replace (find _ (recentSkills state)) with (@None SkillUsage); [reflexivity|].
    symmetry. apply find_none_iff. intros r I. apply String.eqb_neq. auto.
Qed.

(** ** Escaping *)

Lemma append_nil_r s : s ++ "" = s.
Proof. induction s; simpl; congruence. Qed.

Lemma append_assoc_s (a b c : string) : (a ++ b) ++ c = a ++ (b ++ c).
Proof. induction a; simpl; congruence. Qed.

Lemma length_append_s (a b : string) :
  String.length (a ++ b) = (String.length a + String.length b)%nat.
Proof. induction a; simpl; congruence. Qed.

Lemma hasChar_append c a b : hasChar c (a ++ b) = hasChar c a || hasChar c b.
Proof. induction a as [|d a IH]; simpl; auto. now rewrite IH, orb_assoc. Qed.

Lemma replaceAll_clean d c by_ s :
  hasChar d by_ = false -> (d = c \/ hasChar d s = false) ->
  hasChar d (JsMore.replaceAll c by_ s) = false.
Proof.
  intros B H. induction s as [|e s IH]; [reflexivity|].
  cbn [JsMore.replaceAll].
  destruct (Ascii.eqb_spec e c) as [->|N].
  - rewrite hasChar_append, B. cbn [orb]. apply IH.
    destruct H as [H|H]; auto. cbn [hasChar] in H.
    apply orb_false_elim in H. tauto.
  - cbn [hasChar]. destruct H as [->|H].
    + apply Ascii.eqb_neq in N. rewrite N. cbn [orb]. apply IH. auto.
    + cbn [hasChar] in H. apply orb_false_elim in H. destruct H as [H1 H2].
      rewrite H1. cbn [orb]. apply IH. auto.
Qed.

Lemma replaceAll_absent c by_ s :
  hasChar c s = false -> JsMore.replaceAll c by_ s = s.
Proof.
  induction s as [|e s IH]; [reflexivity|]. cbn [hasChar JsMore.replaceAll].
  intros H. apply orb_false_elim in H. destruct H as [H1 H2].
  rewrite H1, (IH H2). reflexivity.
Qed.


(** ** The module state of the extension *)


Lemma hostStep_keeps_ok state e :
  usage_ok (recentSkills state) -> usage_ok (recentSkills (hostStep state e)).
Proof.
  intros H. destruct e as [[s|s|]|s|now readFile]; cbn [hostStep closePalette
    queueSkill recentSkills]; auto.
  unfold beforeAgentStart. destruct (queuedSkill state) as [skill|]; cbn [fst]; auto.
  cbv zeta. destruct (readFile (filePath skill)); cbn [fst];
    now apply recordUsage_keeps_ok.
Qed.

(** X15. Whatever the palette, the command and the agent do, and in
    whatever order, a well-formed recency list stays well formed. *)
Theorem host_keeps_recents_well_formed (state : PaletteState)
    (events : list HostEvent) :
  usage_ok (recentSkills state) ->
  usage_ok (recentSkills (fold_left hostStep events state)).
Proof.
  revert state. induction events as [|e events IH]; intros state H; simpl; auto.
  apply IH. now apply hostStep_keeps_ok.
Qed.

(** ** The window of the renderer *)

(** X16. The renderer shows rows [startIdx .. endIdx - 1]: the window lies
    inside the list, is fourteen rows high or the whole list when that is
    shorter, and contains the cursor whenever the cursor is on the list. *)
Theorem visibleWindow_shows_cursor (n sel : Z) :
  0 <= n ->
  let (startIdx, endIdx) := visibleWindow n sel in
  0 <= startIdx <= endIdx /\ endIdx <= n /\
  endIdx - startIdx = Z.min maxVisible n /\
  (0 <= sel < n -> startIdx <= sel < endIdx).
Proof.
  intros N. unfold visibleWindow, maxVisible.
  change (14 / 2) with 7. cbv zeta. lia.
Qed.

Lemma filter_firstn_length {A} (p : A -> bool) n : forall l,
  (length (filter p (firstn n l)) <= length (filter p l))%nat.
Proof.
  induction n as [|n IH]; intros [|x l]; simpl; try lia.
  specialize (IH l). destruct (p x); simpl; lia.
Qed.

Lemma filter_firstn_has {A} (p : A -> bool) : forall k l x,
  nth_error l k = Some x -> p x = true ->
  (1 <= length (filter p (firstn (S k) l)))%nat.
Proof.
  induction k as [|k IH]; intros [|y l] x; simpl; try discriminate.
  - intros [= ->] P. rewrite P. simpl. lia.
  - intros N P. specialize (IH l x N P). simpl in IH.
    destruct (p y); simpl; lia.
Qed.

(** X17. With the cursor on an entry, the scroll indicator ["k/n skills"]
    has [1 <= k <= n]: [k] counts the entries up to the cursor and [n] all
    entries. *)
Theorem scrollIndicator_in_range (items : list DisplayItem) (sel : Z) :
  isEntryAt items sel = true ->
  let (currentSkillIdx, skillCount) := scrollIndicator items sel in
  1 <= currentSkillIdx <= skillCount.
Proof.
  intros E. apply isEntryAt_range in E as R.
  unfold scrollIndicator, sliceTo0. cbv zeta.
  destruct (Z.ltb_spec (sel + 1) 0); [lia|].
  replace (Z.to_nat (Z.min (sel + 1) (Z.of_nat (length items))))
    with (S (Z.to_nat sel)) by lia.
  pose proof (filter_firstn_length isSkill (S (Z.to_nat sel)) items).
  unfold isEntryAt, at_ in E. destruct (sel <? 0); [discriminate|].
  destruct (nth_error items (Z.to_nat sel)) as [it|] eqn:N; [|discriminate].
  pose proof (filter_firstn_has isSkill _ _ _ N E). lia.
Qed.

(** ** What a positive score says about the text *)

Lemma InOrder_refl s : InOrder s s.
Proof. induction s; constructor; auto. Qed.

Lemma prefix_split p : forall s, String.prefix p s = true -> exists b, s = p ++ b.
Proof.
  induction p as [|c p IH]; intros s; [exists s; reflexivity|].
  destruct s as [|d s]; simpl; [discriminate|].
  destruct (ascii_dec c d) as [->|]; [|discriminate].
  intros H. destruct (IH s H) as (b & ->). now exists b.
Qed.

Lemma prefix_append p b : String.prefix p (p ++ b) = true.
Proof.
  induction p as [|c p IH]; simpl; [now destruct b|].
  destruct (ascii_dec c c); [assumption | congruence].
Qed.

Lemma InOrder_append_r q b : InOrder q (q ++ b).
Proof. induction q; simpl; constructor; auto. Qed.

Lemma InOrder_append_l a : forall q t, InOrder q t -> InOrder q (a ++ t).
Proof. induction a; simpl; auto. intros q t H. constructor. auto. Qed.

Lemma Occurs_InOrder p t : Occurs p t -> InOrder p t.
Proof.
  intros (a & b & ->). apply InOrder_append_l. apply InOrder_append_r.
Qed.

Lemma indexOfFrom_occurs s p : forall i,
  Js.indexOfFrom s p i <> -1 -> Occurs p s.
Proof.
  induction s as [|c s IH]; intros i; cbn [Js.indexOfFrom].
  - destruct (String.prefix p "") eqn:P; [|congruence].
    intros _. apply prefix_split in P. destruct P as (b & E).
    exists "", b. exact E.
  - destruct (String.prefix p (String c s)) eqn:P.
    + intros _. apply prefix_split in P. destruct P as (b & E).
      exists "", b. exact E.
    + intros H. destruct (IH _ H) as (a & b & ->).
      exists (String c a), b. reflexivity.
Qed.

Lemma occurs_indexOfFrom p b : forall a i,
  0 <= i -> 0 <= Js.indexOfFrom (a ++ p ++ b) p i.
Proof.
  induction a as [|c a IH]; intros i I.
  - simpl. destruct (p ++ b) eqn:E; cbn [Js.indexOfFrom];
      rewrite <- E, prefix_append; assumption.
  - cbn [append Js.indexOfFrom].
    destruct (String.prefix p _); [assumption|].
    specialize (IH (i + 1)). lia.
Qed.

Lemma fuzzyLoop_rest lt : forall rest st,
  snd (fuzzyLoop lt rest st) = "" -> InOrder rest lt.
Proof.
  induction lt as [|c lt IH]; intros rest st; simpl.
  - destruct rest; simpl; [constructor | discriminate].
  - destruct rest as [|q rest]; [constructor|].
    destruct (Ascii.eqb_spec c q) as [->|N]; intros H.
    + constructor. eapply IH; eauto.
    + constructor. eapply IH; eauto.
Qed.

Lemma fuzzyLoop_done lt lq :
  let r := fuzzyLoop lt lq (mkFuzzy 0 0 0 0) in
  (qi (fst r) <? Js.len lq) = false -> snd r = "".
Proof.
  cbv zeta. intros H. apply Z.ltb_ge in H.
  destruct (fuzzyLoop_inv lt lq (mkFuzzy 0 0 0 0) 0) as [_ E].
  { unfold fuzzy_ok; simpl; lia. }
  cbv zeta in E. cbn [qi] in E. unfold Js.len in *.
  destruct (snd (fuzzyLoop lt lq (mkFuzzy 0 0 0 0))); [reflexivity|].
  simpl in E. lia.
Qed.

(** X18. A positive score means that the characters of the lower-cased
    query can be read in the lower-cased text from left to right. *)
Theorem positive_score_reads_in_order (q t : string) :
  (0 < scoreMatch q t)%Q ->
  InOrder (Js.toLowerCase q) (Js.toLowerCase t).
Proof.
  unfold scoreMatch. cbv zeta.
  destruct (String.eqb_spec (Js.toLowerCase t) (Js.toLowerCase q)) as [->|_].
  { intros _. apply InOrder_refl. }
  unfold Js.startsWith.
  destruct (String.prefix (Js.toLowerCase q) (Js.toLowerCase t)) eqn:P.
  { intros _. apply prefix_split in P. destruct P as (b & ->).
    apply InOrder_append_r. }
  destruct (Z.leb_spec 0 (Js.indexOf (Js.toLowerCase t) (Js.toLowerCase q))) as [I|I].
  { intros _. apply Occurs_InOrder. apply (indexOfFrom_occurs _ _ 0).
    unfold Js.indexOf in I. lia. }
  destruct (qi _ <? _) eqn:E1; [intros H; discriminate H|].
  intros _. apply (fuzzyLoop_rest _ _ (mkFuzzy 0 0 0 0)).
  now apply fuzzyLoop_done.
Qed.

Lemma positive_score_reads_in_order_witness :
  InOrder (Js.toLowerCase "FzCli") (Js.toLowerCase "fizzy-cli").
Proof.
  apply (positive_score_reads_in_order "FzCli" "fizzy-cli").
  vm_compute. reflexivity.
Defined.

Lemma length_zero_empty s : Js.len s = 0 -> s = "".
Proof. destruct s; [reflexivity|]. unfold Js.len. simpl. lia. Qed.

Lemma fuzzyLoop_run lt : forall rest st done seen,
  qi st = Js.len done ->
  0 <= currentRun st <= maxRun st -> maxRun st <= qi st ->
  (currentRun st = qi st -> exists a, seen = a ++ done) ->
  (maxRun st = qi st -> Occurs done seen) ->
  snd (fuzzyLoop lt rest st) = "" ->
  maxRun (fst (fuzzyLoop lt rest st)) = qi (fst (fuzzyLoop lt rest st)) ->
  Occurs (done ++ rest) (seen ++ lt).
Proof.
  induction lt as [|c lt IH]; intros rest st done seen Q C M A B.
  - assert (E : fuzzyLoop "" rest st = (st, rest)) by (destruct rest; reflexivity).
    rewrite E. cbn [fst snd]. intros -> H. rewrite !append_nil_r. auto.
  - destruct rest as [|q rest].
    + cbn [fuzzyLoop fst snd]. intros _ H. rewrite append_nil_r.
      destruct (B H) as (a & b & ->). exists a, (b ++ String c lt).
      now rewrite !append_assoc_s.
    + cbn [fuzzyLoop].
      destruct (Ascii.eqb_spec c q) as [<-|N]; intros S R.
      * replace (done ++ String c rest) with ((done ++ String c "") ++ rest)
          by (rewrite append_assoc_s; reflexivity).
        replace (seen ++ String c lt) with ((seen ++ String c "") ++ lt)
          by (rewrite append_assoc_s; reflexivity).
        assert (Run : currentRun st = qi st ->
                      exists a, seen ++ String c "" = a ++ (done ++ String c "")).
        { intros X. destruct (A X) as (a & ->). exists a.
          now rewrite append_assoc_s. }
        eapply IH; try exact S; try exact R; cbn [qi maxRun currentRun].
        -- unfold Js.len in *. rewrite length_append_s. simpl. lia.
        -- lia.
        -- lia.
        -- intros X. apply Run. lia.
        -- intros X. destruct Run as (a & E); [lia|].
           exists a, "". rewrite E. now rewrite append_nil_r.
      * replace (seen ++ String c lt) with ((seen ++ String c "") ++ lt)
          by (rewrite append_assoc_s; reflexivity).
        eapply IH; try exact S; try exact R; cbn [qi maxRun currentRun].
        -- assumption.
        -- lia.
        -- assumption.
        -- intros X. rewrite (length_zero_empty done) by lia.
           exists (seen ++ String c ""). now rewrite append_nil_r.
        -- intros X. destruct (B X) as (a & b & ->).
           exists a, (b ++ String c ""). now rewrite !append_assoc_s.
Qed.

Lemma tier_prefix_occurs q t :
  tierOf q t = Prefix -> Occurs (Js.toLowerCase q) (Js.toLowerCase t).
Proof.
  unfold tierOf. cbv zeta.
  destruct (_ =? _)%string; [discriminate|]. unfold Js.startsWith.
  destruct (String.prefix _ _) eqn:P.
  - intros _. apply prefix_split in P. destruct P as (b & E).
    exists "", b. exact E.
  - repeat match goal with |- context [if ?c then _ else _] => destruct c end;
      discriminate.
Qed.

Lemma tier_substring_occurs q t :
  tierOf q t = Substring -> Occurs (Js.toLowerCase q) (Js.toLowerCase t).
Proof.
  unfold tierOf. cbv zeta.
  destruct (_ =? _)%string; [discriminate|].
  destruct (Js.startsWith _ _); [discriminate|].
  destruct (Z.leb_spec 0 (Js.indexOf (Js.toLowerCase t) (Js.toLowerCase q))) as [I|I].
  - intros _. apply (indexOfFrom_occurs _ _ 0). unfold Js.indexOf in I. lia.
  - repeat match goal with |- context [if ?c then _ else _] => destruct c end;
      discriminate.
Qed.

(** The subsequence tier needs a query of three characters or more: a
    shorter one would have to match in one piece, and then it is a
    substring. *)
Lemma tier_subsequence_long q t :
  tierOf q t = Subsequence -> 2 < Js.len (Js.toLowerCase q).
Proof.
  unfold tierOf. cbv zeta.
  destruct (_ =? _)%string; [discriminate|].
  destruct (Js.startsWith _ _); [discriminate|].
  destruct (Z.leb_spec 0 (Js.indexOf (Js.toLowerCase t) (Js.toLowerCase q))) as [I|I];
    [discriminate|].
  pose proof (fuzzyLoop_start (Js.toLowerCase t) (Js.toLowerCase q)) as F.
  cbv zeta in F.
  destruct (qi _ <? _) eqn:E1; [discriminate|].
  destruct (Z.leb_spec (Js.len (Js.toLowerCase q)) 2) as [L|L]; [|intros; lia].
  destruct (Z.ltb_spec (maxRun (fst (fuzzyLoop (Js.toLowerCase t) (Js.toLowerCase q)
                                     (mkFuzzy 0 0 0 0))))
              (Js.len (Js.toLowerCase q))) as [M|M]; cbn [andb]; [discriminate|].
  intros _. exfalso.
  pose proof (fuzzyLoop_done _ _ E1) as D. cbv zeta in D.
  assert (O : Occurs ("" ++ Js.toLowerCase q) ("" ++ Js.toLowerCase t)).
  { apply Z.ltb_ge in E1.
    apply (fuzzyLoop_run _ _ (mkFuzzy 0 0 0 0)); cbn [qi maxRun currentRun].
    - reflexivity.
    - lia.
    - lia.
    - intros _. now exists "".
    - intros _. now exists "", "".
    - exact D.
    - lia. }
  destruct O as (a & b & E). simpl in E.
  pose proof (occurs_indexOfFrom (Js.toLowerCase q) b a 0) as X.
  unfold Js.indexOf in I. rewrite E in I. lia.
Qed.

(** X19. A query of one or two characters never matches by scattered
    characters: when it scores at all, it stands in the text in one piece,
    and the score is at least 1000. *)
Theorem short_query_matches_in_one_piece (q t : string) :
  Js.len (Js.toLowerCase q) <= 2 ->
  (0 < scoreMatch q t)%Q ->
  Occurs (Js.toLowerCase q) (Js.toLowerCase t) /\ (1000 <= scoreMatch q t)%Q.
Proof.
  intros L P. destruct (tierOf q t) eqn:T.
  - split.
    + apply tier_exact_iff in T. rewrite T. exists "", "". simpl.
      now rewrite append_nil_r.
    + rewrite (scoreMatch_exact _ _ T). lra.
  - split; [now apply tier_prefix_occurs|]. apply scoreMatch_prefix in T. lra.
  - split; [now apply tier_substring_occurs|]. apply scoreMatch_substring in T. lra.
  - apply tier_subsequence_long in T. lia.
  - rewrite (scoreMatch_nomatch _ _ T) in P. lra.
Qed.

Lemma short_query_matches_in_one_piece_witness :
  Occurs (Js.toLowerCase "ad") (Js.toLowerCase "brAD") /\
  (1000 <= scoreMatch "ad" "brAD")%Q.
Proof.
  apply (short_query_matches_in_one_piece "ad" "brAD").
  - vm_compute. discriminate.
  - vm_compute. reflexivity.
Defined.

Lemma lowerChar_idem c : Js.lowerChar (Js.lowerChar c) = Js.lowerChar c.
Proof.
  destruct c as [[] [] [] [] [] [] [] []]; vm_compute; reflexivity.
Qed.

Lemma toLowerCase_idem s : Js.toLowerCase (Js.toLowerCase s) = Js.toLowerCase s.
Proof. induction s; simpl; [reflexivity|]. now rewrite lowerChar_idem, IHs. Qed.

(** X20. The score ignores case in both arguments: two pairs that agree
    after lower-casing score the same, and lower-casing the query or the
    text beforehand, as [filterSkills] does with the query, changes
    nothing. *)
Theorem scoreMatch_ignores_case (q t q' t' : string) :
  Js.toLowerCase q' = Js.toLowerCase q ->
  Js.toLowerCase t' = Js.toLowerCase t ->
  scoreMatch q' t' = scoreMatch q t /\
  scoreMatch (Js.toLowerCase q) (Js.toLowerCase t) = scoreMatch q t.
Proof.
  intros Eq Et. unfold scoreMatch. rewrite Eq, Et, !toLowerCase_idem. auto.
Qed.

Lemma scoreMatch_ignores_case_witness :
  scoreMatch "FIZZY" "Fizzy-CLI" = scoreMatch "fizzy" "fizzy-cli" /\
  scoreMatch (Js.toLowerCase "fizzy") (Js.toLowerCase "fizzy-cli")
  = scoreMatch "fizzy" "fizzy-cli".
Proof.
  apply (scoreMatch_ignores_case "fizzy" "fizzy-cli" "FIZZY" "Fizzy-CLI");
    reflexivity.
Defined.

(** X21. A score is never negative, and there is a gap above zero: a pair
    scores 0 or at least 130, the least a subsequence match can get. *)
Theorem scoreMatch_zero_or_130 (q t : string) :
  scoreMatch q t = 0%Q \/ (130 <= scoreMatch q t)%Q.
Proof.
  destruct (tierOf q t) eqn:T.
  - right. rewrite (scoreMatch_exact _ _ T). lra.
  - right. apply scoreMatch_prefix in T. lra.
  - right. apply scoreMatch_substring in T. lra.
  - right. apply scoreMatch_subsequence_bounds in T. lra.
  - left. now apply scoreMatch_nomatch.
Qed.

(** ** More on the filter *)

Lemma setAdd_fold_In l : forall acc x,
  In x (fold_left setAdd l acc) <-> In x acc \/ In x l.
Proof.
  induction l as [|y l IH]; intros acc x; simpl; [tauto|].
  rewrite IH. unfold setAdd.
  destruct (existsb (String.eqb y) acc) eqn:E.
  - apply existsb_exists in E. destruct E as (z & Z & Ez).
    apply String.eqb_eq in Ez. subst z. intuition (subst; auto).
  - rewrite in_app_iff. simpl. tauto.
Qed.

Lemma setAdd_fold_NoDup l : forall acc,
  NoDup acc -> NoDup (fold_left setAdd l acc).
Proof.
  induction l as [|y l IH]; intros acc N; simpl; auto.
  apply IH. unfold setAdd.
  destruct (existsb (String.eqb y) acc) eqn:E; auto.
  apply NoDup_app; auto.
  - repeat constructor. intros [].
  - intros x Hx [X|[]]. subst x.
    assert (existsb (String.eqb y) acc = true); [|congruence].
    apply existsb_exists. exists y. split; auto. apply String.eqb_refl.
Qed.

Lemma distinct_In l x : In x (distinct l) <-> In x l.
Proof. unfold distinct. rewrite setAdd_fold_In. simpl. tauto. Qed.

Lemma distinct_NoDup l : NoDup (distinct l).
Proof. apply setAdd_fold_NoDup. constructor. Qed.

Lemma NoDup_all_same {A} (x : A) l :
  NoDup l -> In x l -> (forall y, In y l -> y = x) -> l = [x].
Proof.
  intros N I S. destruct l as [|a l]; [contradiction|].
  assert (a = x) by (apply S; now left). subst a.
  destruct l as [|b l]; [reflexivity|].
  assert (b = x) by (apply S; right; now left). subst b.
  inversion N as [|? ? NI _]; subst. exfalso. apply NI. now left.
Qed.

Lemma filter_unique {A} (p : A -> bool) (x : A) l :
  NoDup l -> In x l -> p x = true -> (forall y, In y l -> p y = true -> y = x) ->
  filter p l = [x].
Proof.
  intros N I P U. apply NoDup_all_same.
  - now apply NoDup_filter.
  - apply filter_In. auto.
  - intros y Hy. apply filter_In in Hy. destruct Hy. auto.
Qed.

Lemma nsMatchesOf_In skills lq x :
  In x (nsMatchesOf skills lq) <->
  exists s, In s skills /\ Js.toLowerCase (namespace s) = x /\
            Js.startsWith x lq = true.
Proof.
  unfold nsMatchesOf. rewrite filter_In, distinct_In, in_map_iff.
  split.
  - intros ((s & E & I) & P). eauto.
  - intros (s & I & E & P). eauto.
Qed.

Lemma nsMatchesOf_NoDup skills lq : NoDup (nsMatchesOf skills lq).
Proof. apply NoDup_filter. apply distinct_NoDup. Qed.

(** [filterSkills] past its first two tests: no blank query, no colon
    behind a namespace. *)
Lemma filterSkills_unscoped skills query :
  Js.trim query <> "" -> Js.indexOf query ":" <= 0 ->
  filterSkills skills query =
    let lowerQuery := Js.trim (Js.toLowerCase query) in
    let exactNsMatch :=
      filter (fun s => (Js.toLowerCase (namespace s) =? lowerQuery)%string) skills in
    if (0 <? length exactNsMatch)%nat then exactNsMatch
    else match nsMatchesOf skills lowerQuery with
         | [ns0] =>
             filter (fun s => (Js.toLowerCase (namespace s) =? ns0)%string) skills
         | _ => rank (globalScore lowerQuery) skills
         end.
Proof.
  intros B C. unfold filterSkills. cbv zeta.
  rewrite (isEmpty_false _ B).
  destruct (Z.ltb_spec 0 (Js.indexOf query ":")); [lia | reflexivity].
Qed.

Lemma no_exact_match skills lq :
  (forall s, In s skills -> Js.toLowerCase (namespace s) <> lq) ->
  filter (fun s => (Js.toLowerCase (namespace s) =? lq)%string) skills = [].
Proof.
  intros H. induction skills as [|s skills IH]; simpl; auto.
  destruct (String.eqb_spec (Js.toLowerCase (namespace s)) lq) as [E|_].
  - exfalso. apply (H s); auto. now left.
  - apply IH. intros x Hx. apply H. now right.
Qed.

(** X23. Unique namespace prefix: when the query has no scoping colon, is
    no namespace itself, and the namespaces that start with it are, up to
    case, one and the same, [filterSkills] returns the skills of that
    namespace in catalog order. *)
Theorem unique_namespace_prefix (skills : list Skill) (query : string) (s0 : Skill) :
  let lowerQuery := Js.trim (Js.toLowerCase query) in
  Js.trim query <> "" -> Js.indexOf query ":" <= 0 ->
  (forall s, In s skills -> Js.toLowerCase (namespace s) <> lowerQuery) ->
  In s0 skills ->
  Js.startsWith (Js.toLowerCase (namespace s0)) lowerQuery = true ->
  (forall s, In s skills ->
     Js.startsWith (Js.toLowerCase (namespace s)) lowerQuery = true ->
     Js.toLowerCase (namespace s) = Js.toLowerCase (namespace s0)) ->
  filterSkills skills query
  = filter (fun s => Js.startsWith (Js.toLowerCase (namespace s)) lowerQuery) skills.
Proof.
  intros lq B C NE I0 P0 U.
  rewrite (filterSkills_unscoped skills query B C). cbv zeta. fold lq.
  rewrite (no_exact_match skills lq NE). cbn [length Nat.ltb Nat.leb].
  assert (M : nsMatchesOf skills lq = [Js.toLowerCase (namespace s0)]).
  { apply NoDup_all_same.
    - apply nsMatchesOf_NoDup.
    - apply nsMatchesOf_In. eauto.
    - intros y Hy. apply nsMatchesOf_In in Hy. destruct Hy as (s & I & <- & P).
      now apply U. }
  rewrite M. apply filter_ext_in. intros s I.
  destruct (String.eqb_spec (Js.toLowerCase (namespace s))
              (Js.toLowerCase (namespace s0))) as [E|N].
  - now rewrite E.
  - destruct (Js.startsWith (Js.toLowerCase (namespace s)) lq) eqn:P;
      [exfalso; apply N; now apply U | reflexivity].
Qed.

Lemma not_singleton {A} (x y : A) l :
  NoDup l -> In x l -> In y l -> x <> y ->
  forall B (f : A -> B) (d : B),
    match l with [z] => f z | _ => d end = d.
Proof.
  intros N Ix Iy D B f d. destruct l as [|a [|b l]]; auto.
  destruct Ix as [<-|[]], Iy as [<-|[]]. congruence.
Qed.

(** X24. The general ranking: when the query has no scoping colon, is no
    namespace itself, and starts no namespace or starts two different ones,
    [filterSkills] returns exactly the skills whose score
    [max(name, 0.9 * "namespace:name", description bonus)] is positive,
    by descending score. *)
Theorem general_ranking (skills : list Skill) (query : string) :
  let lowerQuery := Js.trim (Js.toLowerCase query) in
  Js.trim query <> "" -> Js.indexOf query ":" <= 0 ->
  (forall s, In s skills -> Js.toLowerCase (namespace s) <> lowerQuery) ->
  ((forall s, In s skills ->
      Js.startsWith (Js.toLowerCase (namespace s)) lowerQuery = false) \/
   (exists s1 s2, In s1 skills /\ In s2 skills /\
      Js.startsWith (Js.toLowerCase (namespace s1)) lowerQuery = true /\
      Js.startsWith (Js.toLowerCase (namespace s2)) lowerQuery = true /\
      Js.toLowerCase (namespace s1) <> Js.toLowerCase (namespace s2))) ->
  Permutation (filterSkills skills query)
    (filter (fun s => positive (globalScore lowerQuery s)) skills) /\
  (forall s, In s (filterSkills skills query)
             <-> In s skills /\ (0 < globalScore lowerQuery s)%Q) /\
  StronglySorted (fun a b => globalScore lowerQuery b <= globalScore lowerQuery a)%Q
    (filterSkills skills query).
Proof.
  intros lq B C NE H.
  assert (F : filterSkills skills query = rank (globalScore lq) skills).
  { rewrite (filterSkills_unscoped skills query B C). cbv zeta. fold lq.
    rewrite (no_exact_match skills lq NE). cbn [length Nat.ltb Nat.leb].
    destruct H as [H|(s1 & s2 & I1 & I2 & P1 & P2 & D)].
    - assert (M : nsMatchesOf skills lq = []).
      { destruct (nsMatchesOf skills lq) as [|x l] eqn:E; auto. exfalso.
        assert (X : In x (nsMatchesOf skills lq)) by (rewrite E; now left).
        apply nsMatchesOf_In in X. destruct X as (s & I & <- & P).
        rewrite (H s I) in P. discriminate. }
      now rewrite M.
    - apply (not_singleton (Js.toLowerCase (namespace s1))
               (Js.toLowerCase (namespace s2))); auto.
      + apply nsMatchesOf_NoDup.
      + apply nsMatchesOf_In. eauto.
      + apply nsMatchesOf_In. eauto. }
  rewrite F. split; [apply rank_perm|]. split; [|apply rank_sorted].
  intros s. rewrite <- positive_iff.
  pose proof (filter_In (fun s => positive (globalScore lq s)) s skills) as FI.
  cbv beta in FI. rewrite <- FI.
  split; apply Permutation_in; [|symmetry]; apply rank_perm.
Qed.

(** ** Ties and repeated filtering *)

Section Stable.

Context {A : Type} (before : A -> A -> bool) (P : A -> bool).
Hypothesis same_class : forall x y, P x = true -> P y = true -> before x y = true.

Lemma insertBy_class x l :
  filter P (insertBy before x l) = if P x then x :: filter P l else filter P l.
Proof.
  induction l as [|y l IH]; simpl.
  - now destruct (P x).
  - destruct (before x y) eqn:B; simpl.
    + now destruct (P x).
    + rewrite IH. destruct (P x) eqn:Px, (P y) eqn:Py; auto.
      rewrite (same_class x y Px Py) in B. discriminate.
Qed.

Lemma sortBy_class l : filter P (sortBy before l) = filter P l.
Proof.
  induction l as [|x l IH]; simpl; auto.
  rewrite insertBy_class, IH. now destruct (P x).
Qed.

End Stable.


Lemma scored_ok (score : Skill -> Q) l :
  Forall (fun p : Skill * Q => snd p = score (fst p) /\ positive (snd p) = true)
    (sortBy byScoreDesc
       (filter (fun item : Skill * Q => positive (snd item))
          (map (fun skill => (skill, score skill)) l))).
Proof.
  eapply Permutation_Forall; [symmetry; apply sortBy_perm|].
  apply Forall_forall. intros p Hp. apply filter_In in Hp. destruct Hp as [Hp Pp].
  apply in_map_iff in Hp. destruct Hp as (s & <- & _). auto.
Qed.





Lemma class_filter (score : Skill -> Q) (c : Q) (ps : list (Skill * Q)) :
  Forall (fun p => snd p = score (fst p)) ps ->
  map fst (filter (fun p : Skill * Q => Qeq_bool (snd p) c) ps)
  = filter (fun s => Qeq_bool (score s) c) (map fst ps).
Proof.
  induction 1 as [|[s x] ps E F IH]; simpl in *; auto.
  subst x. destruct (Qeq_bool (score s) c); simpl; congruence.
Qed.

(** X25. The ranking is stable: skills with the same score come out in the
    order the catalog lists them. *)
Theorem rank_keeps_catalog_order_on_ties (score : Skill -> Q) (l : list Skill) (c : Q) :
  filter (fun s => Qeq_bool (score s) c) (rank score l)
  = filter (fun s => Qeq_bool (score s) c) (filter (fun s => positive (score s)) l).
Proof.
  unfold rank. rewrite <- (class_filter score c).
  - rewrite sortBy_class.
    + rewrite (class_filter score c), scored_filter; [reflexivity|].
      apply Forall_forall. intros p Hp. apply filter_In in Hp. destruct Hp as [Hp _].
      apply in_map_iff in Hp. destruct Hp as (s & <- & _). reflexivity.
    + intros x y Hx Hy. apply Qeq_bool_iff in Hx, Hy. unfold byScoreDesc.
      apply Qle_bool_iff. rewrite Hx, Hy. lra.
  - eapply Forall_impl; [|apply scored_ok]. intros p [E _]. exact E.
Qed.

Lemma isSpace_lower c : Js.isSpace (Js.lowerChar c) = Js.isSpace c.
Proof.
  destruct c as [[] [] [] [] [] [] [] []]; vm_compute; reflexivity.
Qed.

Lemma lower_trimStart s :
  Js.toLowerCase (Js.trimStart s) = Js.trimStart (Js.toLowerCase s).
Proof.
  induction s as [|c s IH]; simpl; auto.
  rewrite isSpace_lower. destruct (Js.isSpace c); auto.
Qed.

Lemma lower_trimEnd s :
  Js.toLowerCase (Js.trimEnd s) = Js.trimEnd (Js.toLowerCase s).
Proof.
  induction s as [|c s IH]; simpl; auto.
  rewrite <- IH, isSpace_lower.
  destruct (Js.trimEnd s); simpl; auto. now destruct (Js.isSpace c).
Qed.

Lemma lower_trim s : Js.toLowerCase (Js.trim s) = Js.trim (Js.toLowerCase s).
Proof. unfold Js.trim. now rewrite lower_trimEnd, lower_trimStart. Qed.


Lemma allSpaces_trimStart s : allSpaces s = true -> Js.trimStart s = "".
Proof.
  induction s as [|c s IH]; [reflexivity|]. cbn [allSpaces Js.trimStart].
  intros H. apply andb_prop in H. destruct H as [C S]. rewrite C. auto.
Qed.

(** X22. White space and the filter.  A query made of white space only,
    the no-break space included, returns the catalog as it is; an empty
    catalog gives an empty result for every query; and two queries without
    a scoping colon that agree once trimmed give the same result: white
    space around such a query is ignored. *)
Theorem filterSkills_blank_and_empty (skills : list Skill) (query query' : string) :
  (allSpaces query = true -> filterSkills skills query = skills) /\
  filterSkills [] query = [] /\
  (Js.trim query = Js.trim query' ->
   Js.indexOf query ":" <= 0 -> Js.indexOf query' ":" <= 0 ->
   filterSkills skills query = filterSkills skills query').
Proof.
  split; [|split].
  - intros B. unfold filterSkills, Js.trim.
    now rewrite (allSpaces_trimStart _ B).
  - destruct (filterSkills_selects [] query) as (p & P).
    simpl in P. apply Permutation_sym in P. now apply Permutation_nil.
  - intros T C C'. unfold filterSkills. cbv zeta.
    rewrite <- !lower_trim, T.
    destruct (Z.ltb_spec 0 (Js.indexOf query ":")); [lia|].
    destruct (Z.ltb_spec 0 (Js.indexOf query' ":")); [lia|].
    reflexivity.
Qed.










(** ** The front matter *)

Lemma prefix_cons a p c s :
  String.prefix (String a p) (String c s) = Ascii.eqb a c && String.prefix p s.
Proof.
  cbn [String.prefix]. destruct (ascii_dec a c) as [->|N].
  - now rewrite Ascii.eqb_refl.
  - apply Ascii.eqb_neq in N. now rewrite N.
Qed.

Lemma indexOfFrom_skip c q w : forall s i,
  hasChar c w = false ->
  Js.indexOfFrom (w ++ s) (String c q) i
  = Js.indexOfFrom s (String c q) (i + Js.len w).
Proof.
  unfold Js.len. induction w as [|d w IH]; intros s i H.
  - simpl. f_equal. lia.
  - cbn [hasChar] in H. apply orb_false_elim in H. destruct H as [D H].
    cbn [append Js.indexOfFrom]. rewrite prefix_cons.
    rewrite Ascii.eqb_sym, D. cbn [andb].
    rewrite IH by assumption. f_equal. simpl. lia.
Qed.

Lemma indexOfFrom_here p b i : Js.indexOfFrom (p ++ b) p i = i.
Proof.
  destruct (p ++ b) eqn:E; cbn [Js.indexOfFrom]; rewrite <- E, prefix_append;
    reflexivity.
Qed.

Lemma substring_prefix a : forall b,
  String.substring 0 (String.length a) (a ++ b) = a.
Proof.
  induction a as [|c a IH]; intros b; simpl.
  - now destruct b.
  - now rewrite IH.
Qed.

Lemma substring_drop a : forall n m s,
  String.substring (String.length a + n) m (a ++ s) = String.substring n m s.
Proof. induction a as [|c a IH]; intros n m s; simpl; auto. Qed.

Lemma sliceFrom_append a b : Js.sliceFrom (a ++ b) (Js.len a) = b.
Proof.
  unfold Js.sliceFrom, Js.len. rewrite Nat2Z.id, length_append_s.
  replace (String.length a + String.length b - String.length a)%nat
    with (String.length b) by lia.
  rewrite <- (Nat.add_0_r (String.length a)) at 1.
  rewrite substring_drop. apply substring_all.
Qed.

Lemma sliceTo_append a b : Js.sliceTo (a ++ b) (Js.len a) = a.
Proof. unfold Js.sliceTo, Js.len. rewrite Nat2Z.id. apply substring_prefix. Qed.

Lemma slice_middle a b c :
  JsMore.slice (a ++ b ++ c) (Js.len a) (Js.len a + Js.len b) = b.
Proof.
  unfold JsMore.slice, Js.len.
  replace (Z.to_nat (Z.of_nat (String.length a) + Z.of_nat (String.length b))
           - Z.to_nat (Z.of_nat (String.length a)))%nat
    with (String.length b) by lia.
  rewrite Nat2Z.id. rewrite <- (Nat.add_0_r (String.length a)).
  rewrite substring_drop. apply substring_prefix.
Qed.

Lemma split_free w :
  hasChar JsMore.nl w = false -> JsMore.split JsMore.nl w = [w].
Proof.
  induction w as [|c w IH]; [reflexivity|]. cbn [hasChar JsMore.split].
  intros H. apply orb_false_elim in H. destruct H as [D H].
  rewrite D, (IH H). reflexivity.
Qed.

Lemma split_line w s :
  hasChar JsMore.nl w = false ->
  JsMore.split JsMore.nl (w ++ String JsMore.nl s) = w :: JsMore.split JsMore.nl s.
Proof.
  induction w as [|c w IH]; intros H.
  - cbn [append JsMore.split]. now rewrite Ascii.eqb_refl.
  - cbn [hasChar] in H. apply orb_false_elim in H. destruct H as [D H].
    cbn [append JsMore.split]. rewrite D, (IH H). reflexivity.
Qed.

(** A line [key:value] whose key has no colon sets the field its trimmed
    key names to its trimmed value. *)
Lemma frontmatterLine_key acc k v :
  hasChar ":" k = false ->
  frontmatterLine acc (k ++ String ":" v)
  = ((if (Js.trim k =? "name")%string then Js.trim v else fst acc),
     (if (Js.trim k =? "description")%string then Js.trim v else snd acc)).
Proof.
  intros H. unfold frontmatterLine. cbv zeta.
  assert (I : Js.indexOf (k ++ String ":" v) ":" = Js.len k).
  { unfold Js.indexOf. rewrite indexOfFrom_skip by assumption.
    change (String ":" v) with (":" ++ v). rewrite indexOfFrom_here. lia. }
  rewrite I.
  destruct (Z.eqb_spec (Js.len k) (-1)) as [E|_]; [unfold Js.len in E; lia|].
  rewrite sliceTo_append.
  replace (k ++ String ":" v) with ((k ++ ":") ++ v)
    by (rewrite append_assoc_s; reflexivity).
  replace (Js.len k + 1) with (Js.len (k ++ ":"))
    by (unfold Js.len; rewrite length_append_s; simpl; lia).
  rewrite sliceFrom_append. reflexivity.
Qed.

Lemma trim_leading_space s : Js.trim (String " " s) = Js.trim s.
Proof. reflexivity. Qed.

Lemma frontmatterDoc_shape n d body :
  frontmatterDoc n d body
  = ("---" ++ String JsMore.nl "")
      ++ frontmatterOf n d ++ String JsMore.nl ("---" ++ body).
Proof.
  unfold frontmatterDoc, frontmatterOf.
  repeat rewrite append_assoc_s. cbn [append].
  repeat rewrite append_assoc_s. reflexivity.
Qed.

Lemma frontmatterDoc_end n d body :
  hasChar JsMore.nl n = false -> hasChar JsMore.nl d = false ->
  JsMore.indexOfAt (frontmatterDoc n d body) (String JsMore.nl "---") 3
  = 4 + Js.len (frontmatterOf n d).
Proof.
  intros Hn Hd. unfold JsMore.indexOfAt. cbv zeta.
  assert (L : 3 <= Js.len (frontmatterDoc n d body)).
  { unfold frontmatterDoc, Js.len. rewrite length_append_s. simpl. lia. }
  replace (Z.min (Z.max 3 0) (Js.len (frontmatterDoc n d body))) with (Js.len "---")
    by (change (Js.len "---") with 3; lia).
  unfold frontmatterDoc at 1. rewrite sliceFrom_append.
  change (Js.len "---") with 3.
  (* the line feed in front of "name" *)
  cbn [Js.indexOfFrom]. rewrite prefix_cons, Ascii.eqb_refl. cbn [andb].
  change ("name: " ++ n ++ String JsMore.nl ("description: " ++ d
            ++ String JsMore.nl ("---" ++ body)))
    with (String "n" ("ame: " ++ n ++ String JsMore.nl ("description: " ++ d
            ++ String JsMore.nl ("---" ++ body)))).
  rewrite prefix_cons. change (Ascii.eqb "-" "n") with false. cbn [andb].
  change (String "n" ("ame: " ++ n ++ String JsMore.nl ("description: " ++ d
            ++ String JsMore.nl ("---" ++ body))))
    with ("name: " ++ (n ++ String JsMore.nl ("description: " ++ d
            ++ String JsMore.nl ("---" ++ body)))).
  rewrite (indexOfFrom_skip JsMore.nl "---" "name: ") by reflexivity.
  rewrite (indexOfFrom_skip JsMore.nl "---" n) by assumption.
  (* the line feed in front of "description" *)
  cbn [Js.indexOfFrom]. rewrite prefix_cons, Ascii.eqb_refl. cbn [andb].
  change ("description: " ++ d ++ String JsMore.nl ("---" ++ body))
    with (String "d" ("escription: " ++ d ++ String JsMore.nl ("---" ++ body))).
  rewrite prefix_cons. change (Ascii.eqb "-" "d") with false. cbn [andb].
  change (String "d" ("escription: " ++ d ++ String JsMore.nl ("---" ++ body)))
    with ("description: " ++ (d ++ String JsMore.nl ("---" ++ body))).
  rewrite (indexOfFrom_skip JsMore.nl "---" "description: ") by reflexivity.
  rewrite (indexOfFrom_skip JsMore.nl "---" d) by assumption.
  (* the closing line *)
  change (String JsMore.nl ("---" ++ body))
    with (String JsMore.nl "---" ++ body).
  rewrite indexOfFrom_here.
  unfold frontmatterOf, Js.len.
  repeat (rewrite length_append_s || cbn [String.length]). lia.
Qed.

(** X27. A skill file written with the two keys, [name] first, is read
    back: [parseFrontmatter] returns the trimmed name and the trimmed
    description, whatever the fallback, and [getSkillContent] returns the
    trimmed text after the closing line. The values may hold colons, not
    line feeds. *)
Theorem frontmatter_round_trip (n d body fallbackName : string) :
  hasChar JsMore.nl n = false ->
  hasChar JsMore.nl d = false ->
  parseFrontmatter (frontmatterDoc n d body) fallbackName = (Js.trim n, Js.trim d) /\
  skillContentOf (frontmatterDoc n d body) = Js.trim body.
Proof.
  intros Hn Hd.
  assert (S : Js.startsWith (frontmatterDoc n d body) "---" = true)
    by apply prefix_append.
  pose proof (frontmatterDoc_end n d body Hn Hd) as E.
  assert (NE : (4 + Js.len (frontmatterOf n d) =? -1) = false)
    by (apply Z.eqb_neq; unfold Js.len; lia).
  split.
  - unfold parseFrontmatter. cbv zeta. rewrite S, E, NE. cbn [negb].
    rewrite frontmatterDoc_shape.
    change 4 with (Js.len ("---" ++ String JsMore.nl "")) at 1 2.
    rewrite slice_middle. unfold frontmatterOf.
    replace ("name: " ++ n ++ String JsMore.nl ("description: " ++ d))
      with (("name: " ++ n) ++ String JsMore.nl ("description: " ++ d))
      by (rewrite append_assoc_s; reflexivity).
    rewrite split_line.
    2:{ cbn [append hasChar]. cbn. exact Hn. }
    rewrite split_free.
    2:{ cbn [append hasChar]. cbn. exact Hd. }
    cbn [fold_left].
    change ("name: " ++ n) with ("name" ++ String ":" (String " " n)).
    rewrite frontmatterLine_key by reflexivity.
    change ("description: " ++ d) with ("description" ++ String ":" (String " " d)).
    rewrite frontmatterLine_key by reflexivity.
    cbn [fst snd]. rewrite !trim_leading_space. reflexivity.
  - unfold skillContentOf. cbv zeta. rewrite S, E, NE. cbn [negb].
    rewrite frontmatterDoc_shape.
    replace (("---" ++ String JsMore.nl "")
             ++ frontmatterOf n d ++ String JsMore.nl ("---" ++ body))
      with ((("---" ++ String JsMore.nl "") ++ frontmatterOf n d
             ++ String JsMore.nl "---") ++ body).
    2:{ rewrite !append_assoc_s. reflexivity. }
    replace (4 + Js.len (frontmatterOf n d) + 4)
      with (Js.len (("---" ++ String JsMore.nl "") ++ frontmatterOf n d
                    ++ String JsMore.nl "---")).
    2:{ unfold Js.len. rewrite !length_append_s. cbn [String.length]. lia. }
    now rewrite sliceFrom_append.
Qed.

Lemma trimStart_head s :
  Js.trimStart s = "" \/
  exists c r, Js.trimStart s = String c r /\ Js.isSpace c = false.
Proof.
  induction s as [|c s IH]; simpl; auto.
  destruct (Js.isSpace c) eqn:E; eauto.
Qed.

Lemma trimEnd_head c r :
  Js.isSpace c = false -> Js.trimEnd (String c r) = String c (Js.trimEnd r).
Proof. intros H. simpl. rewrite H. now destruct (Js.trimEnd r). Qed.

Lemma trimEnd_idem s : Js.trimEnd (Js.trimEnd s) = Js.trimEnd s.
Proof.
  induction s as [|c s IH]; [reflexivity|]. cbn [Js.trimEnd].
  destruct (Js.trimEnd s) as [|d t] eqn:T.
  - destruct (Js.isSpace c) eqn:E; [reflexivity|]. simpl. now rewrite E.
  - change (Js.trimEnd (String c (String d t)))
      with (match Js.trimEnd (String d t) with
            | EmptyString => if Js.isSpace c then EmptyString else String c EmptyString
            | String x y => String c (String x y)
            end).
    now rewrite IH.
Qed.

Lemma trim_idem s : Js.trim (Js.trim s) = Js.trim s.
Proof.
  unfold Js.trim. destruct (trimStart_head s) as [E|(c & r & E & C)]; rewrite E.
  - reflexivity.
  - rewrite (trimEnd_head c r C). cbn [Js.trimStart]. rewrite C.
    rewrite <- (trimEnd_head c r C). apply trimEnd_idem.
Qed.

Lemma frontmatterLine_ok fb acc line :
  parsed_ok fb acc -> parsed_ok fb (frontmatterLine acc line).
Proof.
  intros [N D]. unfold frontmatterLine. cbv zeta.
  destruct (_ =? -1); [now split|].
  split; cbn [fst snd].
  - destruct (_ =? "name")%string; auto. right. apply trim_idem.
  - destruct (_ =? "description")%string; auto. apply trim_idem.
Qed.

Lemma fold_frontmatter_ok fb lines : forall acc,
  parsed_ok fb acc -> parsed_ok fb (fold_left frontmatterLine lines acc).
Proof.
  induction lines as [|l lines IH]; simpl; auto.
  intros acc H. apply IH. now apply frontmatterLine_ok.
Qed.

Lemma parseFrontmatter_ok content fb : parsed_ok fb (parseFrontmatter content fb).
Proof.
  unfold parseFrontmatter. cbv zeta.
  destruct (negb _); [split; auto|].
  destruct (_ =? -1); [split; auto|].
  apply fold_frontmatter_ok. split; auto.
Qed.

(** X28. Whatever the file holds, [parseFrontmatter] returns a description
    without surrounding white space and a name that is the fallback or has
    none either; a text that does not open with ["---"], or never closes
    it, gives the fallback name and the empty description. *)
Theorem parseFrontmatter_results (content fallbackName : string) :
  let r := parseFrontmatter content fallbackName in
  (fst r = fallbackName \/ Js.trim (fst r) = fst r) /\
  Js.trim (snd r) = snd r /\
  (Js.startsWith content "---" = false \/
   JsMore.indexOfAt content (String JsMore.nl "---") 3 = -1 ->
   r = (fallbackName, "")).
Proof.
  cbv zeta. destruct (parseFrontmatter_ok content fallbackName) as [N D].
  split; [exact N|]. split; [exact D|].
  unfold parseFrontmatter. cbv zeta. intros [H|H].
  - now rewrite H.
  - rewrite H. now destruct (negb _).
Qed.

(** ** Loading the catalog *)

Lemma loadSkillFile_cases l f :
  loadSkillFile l f =
  if Js.isEmpty (description (skillOfFile f))
     || existsb (fun s => (name s =? name (skillOfFile f))%string) l
  then l else (l ++ [skillOfFile f])%list.
Proof.
  unfold loadSkillFile, skillOfFile. cbn [name description].
  destruct (parseFrontmatter _ _) as [n d]. reflexivity.
Qed.

Lemma loadSkillFile_ok files l f :
  In f files -> catalog_ok files l -> catalog_ok files (loadSkillFile l f).
Proof.
  intros I [N D]. rewrite loadSkillFile_cases.
  destruct (Js.isEmpty (description (skillOfFile f))) eqn:E; cbn [orb]; [now split|].
  destruct (existsb _ l) eqn:X; [now split|].
  split.
  - rewrite map_app. apply NoDup_app; auto.
    + repeat constructor. intros [].
    + intros n Hn [<-|[]]. apply in_map_iff in Hn. destruct Hn as (s & Es & Is).
      assert (existsb (fun s => (name s =? name (skillOfFile f))%string) l = true);
        [|congruence].
      apply existsb_exists. exists s. split; auto. now apply String.eqb_eq.
  - intros s Hs. apply in_app_iff in Hs. destruct Hs as [Hs|[<-|[]]]; auto.
    split; eauto. intros Z. rewrite Z in E. discriminate.
Qed.

Lemma fold_loadSkillFile_ok files : forall fs l,
  (forall f, In f fs -> In f files) -> catalog_ok files l ->
  catalog_ok files (fold_left loadSkillFile fs l).
Proof.
  induction fs as [|f fs IH]; simpl; auto. intros l S H.
  apply IH; auto. apply loadSkillFile_ok; auto.
Qed.

Lemma fold_loadSkillFile_keeps fs : forall l s,
  In s l -> In s (fold_left loadSkillFile fs l).
Proof.
  induction fs as [|f fs IH]; simpl; auto. intros l s H. apply IH.
  rewrite loadSkillFile_cases. destruct (_ || _); auto.
  apply in_app_iff. now left.
Qed.

(** X29. The catalog [loadSkills] builds: no two skills share a name, no
    skill has an empty description, every skill is what some scanned file
    parses to, and the first file of a name wins; a later file with the same
    name, from a project directory say, cannot replace it. *)
Theorem loadSkills_first_seen_wins (files : list SkillFile) :
  let catalog := loadSkillsFrom files in
  NoDup (map name catalog) /\
  (forall s, In s catalog ->
     description s <> "" /\ exists f, In f files /\ s = skillOfFile f) /\
  (forall pre f post,
     files = (pre ++ f :: post)%list ->
     description (skillOfFile f) <> "" ->
     (forall g, In g pre -> description (skillOfFile g) = ""
                            \/ name (skillOfFile g) <> name (skillOfFile f)) ->
     In (skillOfFile f) catalog).
Proof.
  cbv zeta. unfold loadSkillsFrom.
  assert (Empty : forall fs, catalog_ok fs []).
  { intros fs. split; [constructor | intros s []]. }
  destruct (fold_loadSkillFile_ok files files []) as [N D]; auto.
  split; [exact N|]. split; [exact D|].
  intros pre f post -> Df First.
  rewrite fold_left_app. cbn [fold_left].
  apply fold_loadSkillFile_keeps.
  destruct (fold_loadSkillFile_ok pre pre []) as [_ Dpre]; auto.
  rewrite loadSkillFile_cases. rewrite (isEmpty_false _ Df). cbn [orb].
  destruct (existsb _ (fold_left loadSkillFile pre [])) eqn:X.
  - exfalso. apply existsb_exists in X. destruct X as (s & Is & Es).
    apply String.eqb_eq in Es.
    destruct (Dpre s Is) as (Ds & g & Ig & ->).
    destruct (First g Ig); contradiction.
  - apply in_app_iff. right. now left.
Qed.

(** X30. What [escapeXml] returns holds no ["<"], no [">"] and no double
    quote, so it cannot end the attribute or the tag it is written into;
    a text without any of the four special characters is returned as it
    is. *)
Theorem escapeXml_is_safe (s : string) :
  hasChar "<" (escapeXml s) = false /\
  hasChar ">" (escapeXml s) = false /\
  hasChar dquote (escapeXml s) = false /\
  (hasChar "&" s = false -> hasChar "<" s = false ->
   hasChar ">" s = false -> hasChar dquote s = false -> escapeXml s = s).
Proof.
  unfold escapeXml. repeat split.
  - apply replaceAll_clean; [reflexivity|]. right.
    apply replaceAll_clean; [reflexivity|]. right.
    apply replaceAll_clean; [reflexivity|]. now left.
  - apply replaceAll_clean; [reflexivity|]. right.
    apply replaceAll_clean; [reflexivity|]. now left.
  - apply replaceAll_clean; [reflexivity|]. now left.
  - intros A L G Q.
    rewrite (replaceAll_absent "&") by assumption.
    rewrite (replaceAll_absent "<") by assumption.
    rewrite (replaceAll_absent ">") by assumption.
    now rewrite (replaceAll_absent dquote) by assumption.
Qed.

(** ** Code units above 127 *)

Example test_latin1_toLowerCase :
  Js.toLowerCase (String capitalE "") = String smallE "" /\
  Js.lowerChar "215"%char = "215"%char /\
  Js.lowerChar "223"%char = "223"%char /\
  Js.lowerChar "192"%char = "224"%char /\
  Js.lowerChar "222"%char = "254"%char.
Proof. repeat split. Qed.

Example test_latin1_trim :
  Js.trim (String nbsp ("x" ++ String nbsp "")) = "x" /\
  Js.trim (String nbsp "") = "".
Proof. split; reflexivity. Qed.

Example test_latin1_scoreMatch :
  scoreMatch (String capitalE "") (String smallE "") = 10000%Q.
Proof. reflexivity. Qed.

Example test_latin1_filter_blank :
  filterSkills testSkills (String nbsp "") = testSkills /\
  filterSkills testSkills ("marketing:" ++ String nbsp "") = [sampleSkill].
Proof. split; reflexivity. Qed.

Example test_latin1_filter_namespace :
  let s1 := mkSkill "one" (String capitalE "") "first" "" home in
  let s2 := mkSkill "two" (String smallE "") "second" "" home in
  filterSkills [s1; s2] (String smallE "") = [s1; s2] /\
  filterSkills [s1; s2] (String capitalE "") = [s1; s2].
Proof. split; reflexivity. Qed.

Example test_latin1_palette_typing :
  let s := createPaletteState codeUnitCompare testSkills None [] in
  let s' := fst (handlePaletteInput codeUnitCompare s (Data (String nbsp ""))) in
  query s' = String nbsp "" /\
  displayItems s' = buildDisplayList codeUnitCompare testSkills [].
Proof. split; reflexivity. Qed.

Example test_latin1_frontmatter :
  parseFrontmatter (frontmatterDoc (String nbsp "x") "d" "") "dir" = ("x", "d") /\
  loadSkillsFrom
    [mkSkillFile (frontmatterDoc "x" (String nbsp "") "") "/s/x/SKILL.md" "x"
       "other" home]
  = [].
Proof. split; reflexivity. Qed.

(** ** Instances of the further properties *)

Lemma displayItems_is_render_witness :
  let s0 := createPaletteState codeUnitCompare testSkills None [] in
  let s1 := fst (handlePaletteInput codeUnitCompare s0 (Data "a")) in
  displayItems s1 = render codeUnitCompare (allSkills s1) (query s1) (recents s1).
Proof.
  intros s0 s1. apply (displayItems_is_render codeUnitCompare s1).
  apply reach_input. apply reach_create.
Defined.

Lemma type_then_erase_witness :
  let s := createPaletteState codeUnitCompare testSkills None [] in
  let s1 := fst (handlePaletteInput codeUnitCompare s (Data "x")) in
  let s2 := fst (handlePaletteInput codeUnitCompare s1 KeyBackspace) in
  query s1 = query s ++ "x" /\
  query s2 = query s /\
  displayItems s2 = displayItems s /\
  selectedIndex s2
  = (if 0 <=? firstSkillIndex (displayItems s)
     then firstSkillIndex (displayItems s) else 0).
Proof.
  intros s.
  apply (type_then_erase codeUnitCompare s "x"%char).
  - apply reach_create.
  - reflexivity.
Defined.

Lemma buildDisplayList_no_empty_group_witness :
  exists skill post',
    [Entry (mkSkill "brave-search" "search" "Desc for brave-search"
              "/fake/brave-search/SKILL.md" home) "search";
     Header "tools";
     Entry (mkSkill "fizzy-cli" "tools" "Desc for fizzy-cli"
              "/fake/fizzy-cli/SKILL.md" home) "tools"]
    = Entry skill "search" :: post'.
Proof.
  apply (buildDisplayList_no_empty_group codeUnitCompare testSkills []
           [Header "marketing"; Entry sampleSkill "marketing"] "search").
  reflexivity.
Defined.

Lemma confirm_returns_catalog_skill_witness :
  let s := createPaletteState codeUnitCompare testSkills None [] in
  match snd (handlePaletteInput codeUnitCompare s KeyReturn) with
  | Some (select skill) | Some (unqueue skill) =>
      In skill (allSkills s) /\ displayItems s <> []
  | Some cancel => False
  | None => displayItems s = []
  end.
Proof.
  intros s. apply (confirm_returns_catalog_skill codeUnitCompare s).
  apply reach_create.
Defined.

Lemma nextSkillIndex_down_witness :
  let j := nextSkillIndex sampleItems 5 Down in
  isEntryAt sampleItems j = true /\
  ((5 < j /\ forall k, 5 < k < j -> isEntryAt sampleItems k = false) \/
   (j <= 5 /\ (forall k, 5 < k -> isEntryAt sampleItems k = false) /\
    forall k, k < j -> isEntryAt sampleItems k = false)).
Proof.
  apply (nextSkillIndex_down sampleItems 5). reflexivity.
Defined.

Lemma nextSkillIndex_up_witness :
  let j := nextSkillIndex sampleItems 3 Up in
  isEntryAt sampleItems j = true /\
  ((j < 3 /\ forall k, j < k < 3 -> isEntryAt sampleItems k = false) \/
   (3 <= j /\ (forall k, k < 3 -> isEntryAt sampleItems k = false) /\
    forall k, j < k -> isEntryAt sampleItems k = false)).
Proof.
  apply (nextSkillIndex_up sampleItems 3). reflexivity.
Defined.

Lemma navigation_round_trip_witness :
  nextSkillIndex sampleItems (nextSkillIndex sampleItems 5 Down) Up = 5 /\
  nextSkillIndex sampleItems (nextSkillIndex sampleItems 5 Up) Down = 5.
Proof.
  apply (navigation_round_trip sampleItems 5). reflexivity.
Defined.

Lemma recordUsage_invariant_witness :
  usage_ok
    (recentSkills (recordUsage (mkPaletteState None sampleRecents) sampleSkill 20)).
Proof.
  apply (recordUsage_invariant (mkPaletteState None sampleRecents) sampleSkill 20).
  repeat split.
  - repeat constructor; simpl; intuition discriminate.
  - unfold MAX_RECENTS. simpl. lia.
  - repeat constructor; simpl; lia.
Defined.

Lemma host_keeps_recents_well_formed_witness :
  usage_ok
    (recentSkills
       (fold_left hostStep
          [DirectQueue sampleSkill; AgentStart 20 (fun _ => None);
           PaletteClosed cancel; PaletteClosed (select sampleSkill);
           AgentStart 30 (fun _ => Some "# Ad creative")]
          (mkPaletteState None sampleRecents))).
Proof.
  apply (host_keeps_recents_well_formed (mkPaletteState None sampleRecents)).
  repeat split.
  - repeat constructor; simpl; intuition discriminate.
  - unfold MAX_RECENTS. simpl. lia.
  - repeat constructor; simpl; lia.
Defined.

Lemma visibleWindow_shows_cursor_witness :
  let (startIdx, endIdx) := visibleWindow 20 15 in
  0 <= startIdx <= endIdx /\ endIdx <= 20 /\
  endIdx - startIdx = Z.min maxVisible 20 /\
  (0 <= 15 < 20 -> startIdx <= 15 < endIdx).
Proof.
  apply (visibleWindow_shows_cursor 20 15). lia.
Defined.

Lemma scrollIndicator_in_range_witness :
  let (currentSkillIdx, skillCount) := scrollIndicator sampleItems 3 in
  1 <= currentSkillIdx <= skillCount.
Proof.
  apply (scrollIndicator_in_range sampleItems 3). reflexivity.
Defined.

Lemma unique_namespace_prefix_witness :
  filterSkills testSkills "Mark"
  = filter (fun s => Js.startsWith (Js.toLowerCase (namespace s))
                       (Js.trim (Js.toLowerCase "Mark"))) testSkills.
Proof.
  apply (unique_namespace_prefix testSkills "Mark" sampleSkill).
  - vm_compute. intros H. discriminate H.
  - vm_compute. intros H. discriminate H.
  - intros s [<-|[<-|[<-|[]]]]; vm_compute; intros H; discriminate H.
  - right. right. left. reflexivity.
  - reflexivity.
  - intros s [<-|[<-|[<-|[]]]]; vm_compute; intros H;
      (discriminate H || reflexivity).
Defined.

Lemma general_ranking_witness :
  let lowerQuery := Js.trim (Js.toLowerCase "fiz") in
  Permutation (filterSkills testSkills "fiz")
    (filter (fun s => positive (globalScore lowerQuery s)) testSkills) /\
  (forall s, In s (filterSkills testSkills "fiz")
             <-> In s testSkills /\ (0 < globalScore lowerQuery s)%Q) /\
  StronglySorted (fun a b => globalScore lowerQuery b <= globalScore lowerQuery a)%Q
    (filterSkills testSkills "fiz").
Proof.
  apply (general_ranking testSkills "fiz").
  - vm_compute. intros H. discriminate H.
  - vm_compute. intros H. discriminate H.
  - intros s [<-|[<-|[<-|[]]]]; vm_compute; intros H; discriminate H.
  - left. intros s [<-|[<-|[<-|[]]]]; reflexivity.
Defined.

Lemma frontmatter_round_trip_witness :
  parseFrontmatter
    (frontmatterDoc (String nbsp "fizzy-cli") " Manage boards "
       (String JsMore.nl "# Fizzy"))
    "dir"
  = (Js.trim (String nbsp "fizzy-cli"), Js.trim " Manage boards ") /\
  skillContentOf
    (frontmatterDoc (String nbsp "fizzy-cli") " Manage boards "
       (String JsMore.nl "# Fizzy"))
  = Js.trim (String JsMore.nl "# Fizzy").
Proof.
  apply (frontmatter_round_trip (String nbsp "fizzy-cli") " Manage boards "
           (String JsMore.nl "# Fizzy") "dir"); reflexivity.
Defined.
